(** * Zoom-clone browser scripts: a shallow embedding and its properties

    The development embeds the client-side scripts [static/app.js] (page
    chrome) and [static/meeting.js] (the [MeetingRoom] controller) and
    proves properties of the input mask, the time formatter, the chat
    message renderer, the roster rebuild, the media toggles, leaving a
    meeting and the submit-button busy state.

    Conventions of the model.
    - A JavaScript string is the list of its UTF-16 code units ([N]).
    - An integer-valued JavaScript number is an [N]; every arithmetic
      operation used here is exact on such numbers below 2^53.
      [Binary64] carries out the arithmetic of [formatTime] on Numbers
      themselves (IEEE 754 binary64); [formatTime_Number] shows that the
      two agree below 2^53.
    - Objects that the scripts mutate are records threaded explicitly. *)

From Stdlib Require Import String Ascii ZArith NArith PArith Arith Bool Lia.
From Stdlib Require Import List Permutation.
From Stdlib Require Floats.SpecFloat.
Import ListNotations.

Set Implicit Arguments.

(** [lia] is to know quotients and remainders by constants. *)
Ltac Zify.zify_post_hook ::= Z.to_euclidean_division_equations.

(* ===================================================================== *)
(** * Part I. The embedding                                               *)
(* ===================================================================== *)

(** ** JavaScript strings and the built-ins the scripts call *)
Module Js.

Definition char := N.
Definition str := list char.

(** A string literal of the source whose characters are all ASCII. *)
Definition lit (s : string) : str :=
  map N_of_ascii (list_ascii_of_string s).

(** The double quote, U+0022. *)
Definition dq : char := 34%N.

(** [q s] is [s] between double quotes. *)
Definition q (s : str) : str := dq :: s ++ [dq].

Definition char_eqb (a b : char) : bool := N.eqb a b.

Fixpoint str_eqb (a b : str) : bool :=
  match a, b with
  | [], [] => true
  | x :: a', y :: b' => char_eqb x y && str_eqb a' b'
  | _, _ => false
  end.

(** The regular-expression class [\d]: the ten ASCII digits. *)
Definition is_digit (c : char) : bool :=
  ((48 <=? c) && (c <=? 57))%N.

(** The class [\s], which is also the set [String.prototype.trim] strips:
    WhiteSpace and LineTerminator code units of ECMAScript. *)
Definition is_ws (c : char) : bool :=
  (((9 <=? c) && (c <=? 13))
   || (c =? 32) || (c =? 160) || (c =? 5760)
   || ((8192 <=? c) && (c <=? 8202))
   || (c =? 8232) || (c =? 8233) || (c =? 8239) || (c =? 8287)
   || (c =? 12288) || (c =? 65279))%N.

(** [s.slice(i)] and [s.slice(i, j)] for [0 <= i <= j]. *)
Definition slice_from (i : nat) (s : str) : str := skipn i s.
Definition slice (i j : nat) (s : str) : str := firstn (j - i) (skipn i s).

(** [s.trim()]. *)
Fixpoint trimStart (s : str) : str :=
  match s with
  | [] => []
  | c :: s' => if is_ws c then trimStart s' else s
  end.

Definition trimEnd (s : str) : str := rev (trimStart (rev s)).

Definition trim (s : str) : str := trimEnd (trimStart s).

(** [n.toString()] for a non-negative integer: its decimal numeral. *)
Fixpoint digits_fuel (fuel : nat) (n : N) : str :=
  match fuel with
  | O => []
  | S f =>
      if (n <? 10)%N then [(48 + n)%N]
      else digits_fuel f (n / 10)%N ++ [(48 + n mod 10)%N]
  end.

(** [1 + log2 n] rounds suffice: a decimal numeral is no longer than the
    binary one. *)
Definition toString (n : N) : str :=
  digits_fuel (S (N.to_nat (N.log2 n))) n.

(** [s.padStart(target, fill)]. *)
Definition padStart (target : nat) (fill : str) (s : str) : str :=
  let len := length s in
  if (target <=? len)%nat then s
  else match fill with
       | [] => s
       | _ => firstn (target - len) (concat (repeat fill (target - len))) ++ s
       end.

(** Reading a decimal numeral back (used to state what a rendering
    denotes; the scripts never parse). *)
Definition digit_val (c : char) : N := (c - 48)%N.

Definition parse_dec (s : str) : N :=
  fold_left (fun acc c => (10 * acc + digit_val c)%N) s 0%N.

(** [pre ++ x ++ post = s] for some [pre], [post], as a boolean. *)
Fixpoint is_prefix (p s : str) : bool :=
  match p, s with
  | [], _ => true
  | x :: p', y :: s' => char_eqb x y && is_prefix p' s'
  | _ :: _, [] => false
  end.

Fixpoint is_infix (x s : str) : bool :=
  is_prefix x s ||
  match s with
  | [] => false
  | _ :: s' => is_infix x s'
  end.

End Js.

Import Js.

(** ** [static/app.js] *)
Module App.

(** The [input] listener of the meeting-id field: the value it stores in
    [e.target.value], as a function of the value it reads there. *)
Definition meetingIdInput_oninput (value0 : str) : str :=
  (* e.target.value.replace(/\D/g, '') *)
  let value := filter is_digit value0 in
  (* Limit to 10 digits *)
  let value :=
    if (10 <? length value)%nat then slice 0 10 value else value in
  (* Format as XXX-XXX-XXXX *)
  if (6 <=? length value)%nat then
    slice 0 3 value ++ lit "-" ++ slice 3 6 value ++ lit "-"
      ++ slice_from 6 value
  else if (3 <=? length value)%nat then
    slice 0 3 value ++ lit "-" ++ slice_from 3 value
  else value.

(** [formatTime(seconds)] for [seconds] an integer below 2^53, where
    Numbers count exactly and the arithmetic below is the function's
    ([Binary64.formatTime] is the function on every Number). *)
Definition formatTime (seconds : N) : str :=
  let hours := (seconds / 3600)%N in
  let minutes := ((seconds mod 3600) / 60)%N in
  let secs := (seconds mod 60)%N in
  padStart 2 (lit "0") (toString hours) ++ lit ":"
    ++ padStart 2 (lit "0") (toString minutes) ++ lit ":"
    ++ padStart 2 (lit "0") (toString secs).

(** *** The busy state of a submit button

    The [click] listener of every [button[type="submit"]], for one button.
    The listener's timeout callback closes over the button and over the
    label it read, [originalText]. The clock is the event loop's logical
    time in milliseconds; a timeout runs once the clock reaches its due
    time, pending timeouts in registration order (all delays are equal, so
    this is also due-time order). *)
Record Button := {
  innerHTML : str;
  disabled : bool
}.

Record Timeout := {
  due : N;
  originalText : str
}.

Record ButtonWorld := {
  button : Button;
  now : N;
  timeouts : list Timeout
}.

Definition loadingLabel : str :=
  lit "<i class=" ++ q (lit "fas fa-spinner fa-spin me-2")
    ++ lit "></i>Loading...".

(** The body of [setTimeout(() => {...}, 3000)]. *)
Definition restore (cb : Timeout) (b : Button) : Button :=
  {| innerHTML := originalText cb; disabled := false |}.

(** The listener itself. *)
Definition click (w : ButtonWorld) : ButtonWorld :=
  let original := innerHTML (button w) in
  {| button := {| innerHTML := loadingLabel; disabled := true |};
     now := now w;
     timeouts := timeouts w
                   ++ [{| due := (now w + 3000)%N; originalText := original |}] |}.

(** The clock moves to [t]: every pending timeout that is due runs. *)
Definition advance (t : N) (w : ButtonWorld) : ButtonWorld :=
  {| button :=
       fold_left (fun b cb => if (due cb <=? t)%N then restore cb b else b)
                 (timeouts w) (button w);
     now := N.max (now w) t;
     timeouts := filter (fun cb => (t <? due cb)%N) (timeouts w) |}.

(** A page just loaded: the button shows [label], is enabled, and nothing
    is pending. *)
Definition loaded (label : str) : ButtonWorld :=
  {| button := {| innerHTML := label; disabled := false |};
     now := 0%N;
     timeouts := [] |}.

End App.


(** ** [static/meeting.js] *)
Module Meeting.

(** *** Data *)

(** Identifiers travel as JavaScript numbers or strings; [!==] compares
    them without conversion. *)
Inductive value :=
| VNum (n : N)
| VStr (s : str).

Definition strict_eqb (a b : value) : bool :=
  match a, b with
  | VNum m, VNum n => N.eqb m n
  | VStr s, VStr t => str_eqb s t
  | _, _ => false
  end.

(** [`${v}`]. *)
Definition interpolate (v : value) : str :=
  match v with
  | VNum n => toString n
  | VStr s => s
  end.

(** [MEETING_CONFIG]. *)
Record Config := {
  meetingId : value;
  userId : value;
  userName : str
}.

(** What [socket.emit] is called with, by event name. *)
Inductive Emitted :=
| join_meeting (meeting_id : value)
| send_message (meeting_id : value) (message : str)
| send_reaction (meeting_id : value) (emoji : str)
| toggle_camera (meeting_id : value) (camera_on : bool)
| toggle_microphone (meeting_id : value) (mic_on : bool)
| leave_meeting (meeting_id : value).

(** The socket, as the sequence of its [emit] calls, oldest first. *)
Definition Socket := list Emitted.

Inductive TrackKind := audio | video.

(** A [MediaStreamTrack]: its kind, its [enabled] flag and how many times
    [stop()] was called on it. *)
Record MediaStreamTrack := {
  kind : TrackKind;
  enabled : bool;
  stopCalls : nat
}.

(** A [MediaStream] owns its tracks: [localStream] comes from
    [getUserMedia], [screenStream] from [getDisplayMedia], and the script
    never moves a track between streams. *)
Definition MediaStream := list MediaStreamTrack.

(** The fields of a [MeetingRoom] ([participants] is never read or
    written after the constructor and is left out). A field the
    constructor sets to [null] is an [option]. An interval handle is a
    positive integer, hence truthy. *)
Record MeetingRoom := {
  config : Config;
  socket : option Socket;
  startTime : N;
  timerInterval : option positive;
  isCameraOn : bool;
  isMicrophoneOn : bool;
  isChatVisible : bool;
  localStream : option MediaStream;
  screenStream : option MediaStream;
  isScreenSharing : bool
}.

(** A DOM element, as far as the script looks at it. *)
Record Element := {
  className : str;
  elementId : str;
  elementHTML : str
}.

(** A control button: its class list and markup. *)
Record ControlButton := {
  classList : list str;
  buttonHTML : str
}.

(** An alert appended to [document.body] by [showNotification]. *)
Record Alert := {
  alertMessage : str;
  alertType : str
}.

(** The page and the window: the elements the script reaches by id
    (those it dereferences without a guard are taken to exist, the two it
    guards are optional), the alerts shown, and the handles of the
    intervals that are scheduled. *)
Record Page := {
  messageInput : str;
  participantsList : list Element;
  participantVideos : list Element;
  participantCount : str;
  timer : str;
  cameraBtn : option ControlButton;
  micBtn : option ControlButton;
  alerts : list Alert;
  intervals : list positive
}.

Record State := {
  this : MeetingRoom;
  document : Page
}.

(** How a method ends: it returns, or a [TypeError] escapes it (a property
    read on [null]) with the state reached so far. *)
Inductive Outcome :=
| Returned (st : State)
| Threw (st : State).

(** *** Field assignment *)

Definition set_socket (v : option Socket) (r : MeetingRoom) : MeetingRoom :=
  {| config := config r; socket := v; startTime := startTime r;
     timerInterval := timerInterval r; isCameraOn := isCameraOn r;
     isMicrophoneOn := isMicrophoneOn r; isChatVisible := isChatVisible r;
     localStream := localStream r; screenStream := screenStream r;
     isScreenSharing := isScreenSharing r |}.

Definition set_timerInterval (v : option positive) (r : MeetingRoom)
  : MeetingRoom :=
  {| config := config r; socket := socket r; startTime := startTime r;
     timerInterval := v; isCameraOn := isCameraOn r;
     isMicrophoneOn := isMicrophoneOn r; isChatVisible := isChatVisible r;
     localStream := localStream r; screenStream := screenStream r;
     isScreenSharing := isScreenSharing r |}.

Definition set_isCameraOn (v : bool) (r : MeetingRoom) : MeetingRoom :=
  {| config := config r; socket := socket r; startTime := startTime r;
     timerInterval := timerInterval r; isCameraOn := v;
     isMicrophoneOn := isMicrophoneOn r; isChatVisible := isChatVisible r;
     localStream := localStream r; screenStream := screenStream r;
     isScreenSharing := isScreenSharing r |}.

Definition set_isMicrophoneOn (v : bool) (r : MeetingRoom) : MeetingRoom :=
  {| config := config r; socket := socket r; startTime := startTime r;
     timerInterval := timerInterval r; isCameraOn := isCameraOn r;
     isMicrophoneOn := v; isChatVisible := isChatVisible r;
     localStream := localStream r; screenStream := screenStream r;
     isScreenSharing := isScreenSharing r |}.

Definition set_localStream (v : option MediaStream) (r : MeetingRoom)
  : MeetingRoom :=
  {| config := config r; socket := socket r; startTime := startTime r;
     timerInterval := timerInterval r; isCameraOn := isCameraOn r;
     isMicrophoneOn := isMicrophoneOn r; isChatVisible := isChatVisible r;
     localStream := v; screenStream := screenStream r;
     isScreenSharing := isScreenSharing r |}.

Definition set_screenStream (v : option MediaStream) (r : MeetingRoom)
  : MeetingRoom :=
  {| config := config r; socket := socket r; startTime := startTime r;
     timerInterval := timerInterval r; isCameraOn := isCameraOn r;
     isMicrophoneOn := isMicrophoneOn r; isChatVisible := isChatVisible r;
     localStream := localStream r; screenStream := v;
     isScreenSharing := isScreenSharing r |}.

Definition set_messageInput (v : str) (d : Page) : Page :=
  {| messageInput := v; participantsList := participantsList d;
     participantVideos := participantVideos d;
     participantCount := participantCount d; timer := timer d;
     cameraBtn := cameraBtn d; micBtn := micBtn d; alerts := alerts d;
     intervals := intervals d |}.

Definition set_participantsList (v : list Element) (d : Page) : Page :=
  {| messageInput := messageInput d; participantsList := v;
     participantVideos := participantVideos d;
     participantCount := participantCount d; timer := timer d;
     cameraBtn := cameraBtn d; micBtn := micBtn d; alerts := alerts d;
     intervals := intervals d |}.

Definition set_participantVideos (v : list Element) (d : Page) : Page :=
  {| messageInput := messageInput d; participantsList := participantsList d;
     participantVideos := v;
     participantCount := participantCount d; timer := timer d;
     cameraBtn := cameraBtn d; micBtn := micBtn d; alerts := alerts d;
     intervals := intervals d |}.

Definition set_participantCount (v : str) (d : Page) : Page :=
  {| messageInput := messageInput d; participantsList := participantsList d;
     participantVideos := participantVideos d;
     participantCount := v; timer := timer d;
     cameraBtn := cameraBtn d; micBtn := micBtn d; alerts := alerts d;
     intervals := intervals d |}.

Definition set_timer (v : str) (d : Page) : Page :=
  {| messageInput := messageInput d; participantsList := participantsList d;
     participantVideos := participantVideos d;
     participantCount := participantCount d; timer := v;
     cameraBtn := cameraBtn d; micBtn := micBtn d; alerts := alerts d;
     intervals := intervals d |}.

Definition set_cameraBtn (v : option ControlButton) (d : Page) : Page :=
  {| messageInput := messageInput d; participantsList := participantsList d;
     participantVideos := participantVideos d;
     participantCount := participantCount d; timer := timer d;
     cameraBtn := v; micBtn := micBtn d; alerts := alerts d;
     intervals := intervals d |}.

Definition set_micBtn (v : option ControlButton) (d : Page) : Page :=
  {| messageInput := messageInput d; participantsList := participantsList d;
     participantVideos := participantVideos d;
     participantCount := participantCount d; timer := timer d;
     cameraBtn := cameraBtn d; micBtn := v; alerts := alerts d;
     intervals := intervals d |}.

Definition set_alerts (v : list Alert) (d : Page) : Page :=
  {| messageInput := messageInput d; participantsList := participantsList d;
     participantVideos := participantVideos d;
     participantCount := participantCount d; timer := timer d;
     cameraBtn := cameraBtn d; micBtn := micBtn d; alerts := v;
     intervals := intervals d |}.

Definition set_intervals (v : list positive) (d : Page) : Page :=
  {| messageInput := messageInput d; participantsList := participantsList d;
     participantVideos := participantVideos d;
     participantCount := participantCount d; timer := timer d;
     cameraBtn := cameraBtn d; micBtn := micBtn d; alerts := alerts d;
     intervals := v |}.

Definition on_this (f : MeetingRoom -> MeetingRoom) (st : State) : State :=
  {| this := f (this st); document := document st |}.

Definition on_document (f : Page -> Page) (st : State) : State :=
  {| this := this st; document := f (document st) |}.

Definition set_isScreenSharing (v : bool) (r : MeetingRoom) : MeetingRoom :=
  {| config := config r; socket := socket r; startTime := startTime r;
     timerInterval := timerInterval r; isCameraOn := isCameraOn r;
     isMicrophoneOn := isMicrophoneOn r; isChatVisible := isChatVisible r;
     localStream := localStream r; screenStream := screenStream r;
     isScreenSharing := v |}.

(** *** Sequencing *)

Definition andThen (o : Outcome) (k : State -> Outcome) : Outcome :=
  match o with
  | Returned st => k st
  | Threw st => Threw st
  end.

(** *** Browser operations *)

(** [this.socket.emit(...)]: a [TypeError] when [this.socket] is [null]. *)
Definition emit (e : Emitted) (st : State) : Outcome :=
  match socket (this st) with
  | Some sk => Returned (on_this (set_socket (Some (sk ++ [e]))) st)
  | None => Threw st
  end.

(** [setInterval] hands out the handle [h] and schedules the callback. *)
Definition setInterval (h : positive) (d : Page) : Page :=
  set_intervals (intervals d ++ [h]) d.

Definition clearInterval (h : positive) (d : Page) : Page :=
  set_intervals (filter (fun h' => negb (Pos.eqb h' h)) (intervals d)) d.

Definition scheduled (h : positive) (d : Page) : bool :=
  existsb (Pos.eqb h) (intervals d).

(** [track.stop()]. *)
Definition stop (t : MediaStreamTrack) : MediaStreamTrack :=
  {| kind := kind t; enabled := enabled t; stopCalls := S (stopCalls t) |}.

(** [track.enabled = v]. *)
Definition set_enabled (v : bool) (t : MediaStreamTrack) : MediaStreamTrack :=
  {| kind := kind t; enabled := v; stopCalls := stopCalls t |}.

Definition is_video (t : MediaStreamTrack) : bool :=
  match kind t with video => true | audio => false end.

Definition is_audio (t : MediaStreamTrack) : bool :=
  match kind t with audio => true | video => false end.

Definition getTracks (s : MediaStream) : list MediaStreamTrack := s.
Definition getVideoTracks (s : MediaStream) : list MediaStreamTrack :=
  filter is_video s.
Definition getAudioTracks (s : MediaStream) : list MediaStreamTrack :=
  filter is_audio s.

(** [const t = stream.getXTracks()[0]; if (t) { t.enabled = v; }] written
    on the stream that owns the track: the first track of the kind, if
    there is one, is assigned; nothing else is. *)
Fixpoint assign_first (p : MediaStreamTrack -> bool)
    (f : MediaStreamTrack -> MediaStreamTrack) (s : MediaStream)
  : MediaStream :=
  match s with
  | [] => []
  | t :: s' => if p t then f t :: s' else t :: assign_first p f s'
  end.

(** [classList.remove(c)] and [classList.add(c)]. *)
Definition classList_remove (c : str) (l : list str) : list str :=
  filter (fun x => negb (str_eqb x c)) l.

Definition classList_add (c : str) (l : list str) : list str :=
  if existsb (fun x => str_eqb x c) l then l else l ++ [c].

(** The tokens of a [class] attribute. *)
Definition is_html_space (c : char) : bool :=
  ((c =? 32) || (c =? 9) || (c =? 10) || (c =? 12) || (c =? 13))%N.

Fixpoint class_tokens_from (cur : str) (s : str) : list str :=
  match s with
  | [] => match cur with [] => [] | _ => [rev cur] end
  | c :: s' =>
      if is_html_space c then
        match cur with
        | [] => class_tokens_from [] s'
        | _ => rev cur :: class_tokens_from [] s'
        end
      else class_tokens_from (c :: cur) s'
  end.

Definition class_tokens (s : str) : list str := class_tokens_from [] s.

Definition has_class (c : str) (e : Element) : bool :=
  existsb (str_eqb c) (class_tokens (className e)).

(** [container.querySelector('.' + c)] over the children of a container
    whose children hold no element of that class further down (so for
    the entries this script builds, whose markup is fixed apart from the
    participant's name). *)
Definition querySelector (c : str) (children : list Element)
  : option Element :=
  find (has_class c) children.

(** *** Methods of [MeetingRoom] *)

(** [showNotification(message, type)]: the alert it appends. (Its
    three-second removal is not modelled.) *)
Definition showNotification (message type : str) (st : State) : State :=
  on_document
    (fun d => set_alerts
                (alerts d ++ [{| alertMessage := message; alertType := type |}])
                d) st.

(** [formatTime(seconds)] for [seconds] an integer below 2^53, where
    Numbers count exactly and the arithmetic below is the function's
    ([Binary64.formatTime] is the function on every Number). *)
Definition formatTime (seconds : N) : str :=
  let hours := (seconds / 3600)%N in
  let minutes := ((seconds mod 3600) / 60)%N in
  let secs := (seconds mod 60)%N in
  padStart 2 (lit "0") (toString hours) ++ lit ":"
    ++ padStart 2 (lit "0") (toString minutes) ++ lit ":"
    ++ padStart 2 (lit "0") (toString secs).

(** [startTimer()], the browser handing out handle [h]. *)
Definition startTimer (h : positive) (st : State) : State :=
  on_this (set_timerInterval (Some h)) (on_document (setInterval h) st).

(** The callback [startTimer] schedules, run when [Date.now()] is
    [dateNow] (the wall clock is taken not to run backwards). *)
Definition timerTick (dateNow : N) (st : State) : State :=
  let elapsed := ((dateNow - startTime (this st)) / 1000)%N in
  on_document (set_timer (formatTime elapsed)) st.

(** The event loop reaching the turn of interval [h]: its callback runs
    if the interval is still scheduled. *)
Definition intervalFires (h : positive) (dateNow : N) (st : State) : State :=
  if scheduled h (document st) then timerTick dateNow st else st.

(** [updateControlButtons()]. *)
Definition updateControlButtons (st : State) : State :=
  let st :=
    match cameraBtn (document st) with
    | Some b =>
        let b' :=
          if isCameraOn (this st) then
            {| classList :=
                 classList_add (lit "active")
                   (classList_remove (lit "muted") (classList b));
               buttonHTML :=
                 lit "<i class=" ++ q (lit "fas fa-video") ++ lit "></i>" |}
          else
            {| classList :=
                 classList_add (lit "muted")
                   (classList_remove (lit "active") (classList b));
               buttonHTML :=
                 lit "<i class=" ++ q (lit "fas fa-video-slash")
                   ++ lit "></i>" |} in
        on_document (set_cameraBtn (Some b')) st
    | None => st
    end in
  match micBtn (document st) with
  | Some b =>
      let b' :=
        if isMicrophoneOn (this st) then
          {| classList :=
               classList_add (lit "active")
                 (classList_remove (lit "muted") (classList b));
             buttonHTML :=
               lit "<i class=" ++ q (lit "fas fa-microphone")
                 ++ lit "></i>" |}
        else
          {| classList :=
               classList_add (lit "muted")
                 (classList_remove (lit "active") (classList b));
             buttonHTML :=
               lit "<i class=" ++ q (lit "fas fa-microphone-slash")
                 ++ lit "></i>" |} in
      on_document (set_micBtn (Some b')) st
  | None => st
  end.

(** [toggleCamera()]. *)
Definition toggleCamera (st : State) : Outcome :=
  match localStream (this st) with
  | None =>
      Returned (showNotification (lit "Camera not available") (lit "error") st)
  | Some stream =>
      let st := on_this (set_isCameraOn (negb (isCameraOn (this st)))) st in
      let st :=
        on_this
          (set_localStream
             (Some (assign_first is_video
                      (set_enabled (isCameraOn (this st))) stream))) st in
      let st := updateControlButtons st in
      andThen
        (emit (toggle_camera (meetingId (config (this st)))
                 (isCameraOn (this st))) st)
        (fun st =>
           Returned
             (showNotification
                (lit "Camera "
                   ++ (if isCameraOn (this st) then lit "enabled"
                       else lit "disabled"))
                (lit "info") st))
  end.

(** [toggleMicrophone()]. *)
Definition toggleMicrophone (st : State) : Outcome :=
  match localStream (this st) with
  | None =>
      Returned
        (showNotification (lit "Microphone not available") (lit "error") st)
  | Some stream =>
      let st :=
        on_this (set_isMicrophoneOn (negb (isMicrophoneOn (this st)))) st in
      let st :=
        on_this
          (set_localStream
             (Some (assign_first is_audio
                      (set_enabled (isMicrophoneOn (this st))) stream))) st in
      let st := updateControlButtons st in
      andThen
        (emit (toggle_microphone (meetingId (config (this st)))
                 (isMicrophoneOn (this st))) st)
        (fun st =>
           Returned
             (showNotification
                (lit "Microphone "
                   ++ (if isMicrophoneOn (this st) then lit "enabled"
                       else lit "disabled"))
                (lit "info") st))
  end.

(** [sendMessage()]. [!message] holds of the empty string only. *)
Definition sendMessage (st : State) : Outcome :=
  let message := trim (messageInput (document st)) in
  match message with
  | [] => Returned st
  | _ :: _ =>
      andThen
        (emit (send_message (meetingId (config (this st))) message) st)
        (fun st => Returned (on_document (set_messageInput []) st))
  end.

(** [leaveMeeting()]. *)
Definition leaveMeeting (st : State) : State :=
  let st :=
    match socket (this st) with
    | Some sk =>
        on_this
          (set_socket
             (Some (sk ++ [leave_meeting (meetingId (config (this st)))])))
          st
    | None => st
    end in
  let st :=
    match timerInterval (this st) with
    | Some h => on_document (clearInterval h) st
    | None => st
    end in
  (* Stop all streams *)
  let st :=
    match localStream (this st) with
    | Some s => on_this (set_localStream (Some (map stop (getTracks s)))) st
    | None => st
    end in
  match screenStream (this st) with
  | Some s => on_this (set_screenStream (Some (map stop (getTracks s)))) st
  | None => st
  end.

(** *** The roster *)

(** A participant of a roster push. *)
Record Participant := {
  id : value;
  name : str;
  microphone : bool;
  camera : bool
}.

(** A line break followed by [n] spaces of template indentation. *)
Definition nl (n : nat) : str := 10%N :: repeat 32%N n.

Definition statusClass (on : bool) : str :=
  if on then lit "text-success" else lit "text-danger".

(** The element [addParticipantToList(participant)] appends. *)
Definition participantDiv (participant : Participant) : Element :=
  {| className := lit "participant-item fade-in";
     elementId := lit "participant-" ++ interpolate (id participant);
     elementHTML :=
       nl 12 ++ lit "<div class=" ++ q (lit "participant-avatar") ++ lit ">"
       ++ nl 16 ++ lit "<i class=" ++ q (lit "fas fa-user") ++ lit "></i>"
       ++ nl 12 ++ lit "</div>"
       ++ nl 12 ++ lit "<div class=" ++ q (lit "participant-info") ++ lit ">"
       ++ nl 16 ++ lit "<span class=" ++ q (lit "participant-name") ++ lit ">"
       ++ name participant ++ lit "</span>"
       ++ nl 16 ++ lit "<div class=" ++ q (lit "participant-status")
       ++ lit ">"
       ++ nl 20 ++ lit "<i class="
       ++ q (lit "fas fa-microphone "
               ++ statusClass (microphone participant))
       ++ lit "></i>"
       ++ nl 20 ++ lit "<i class="
       ++ q (lit "fas fa-video " ++ statusClass (camera participant))
       ++ lit "></i>"
       ++ nl 16 ++ lit "</div>"
       ++ nl 12 ++ lit "</div>"
       ++ nl 8 |}.

Definition addParticipantToList (participant : Participant) (st : State)
  : State :=
  on_document
    (fun d => set_participantsList
                (participantsList d ++ [participantDiv participant]) d) st.

(** The element [addParticipantVideo(participant)] appends. *)
Definition videoDiv (participant : Participant) : Element :=
  {| className := lit "participant-video fade-in";
     elementId := lit "video-" ++ interpolate (id participant);
     elementHTML :=
       nl 12 ++ lit "<div class=" ++ q (lit "video-placeholder") ++ lit ">"
       ++ nl 16 ++ lit "<i class=" ++ q (lit "fas fa-user fa-2x text-muted")
       ++ lit "></i>"
       ++ nl 12 ++ lit "</div>"
       ++ nl 12 ++ lit "<div class=" ++ q (lit "video-overlay") ++ lit ">"
       ++ nl 16 ++ lit "<span class=" ++ q (lit "participant-name") ++ lit ">"
       ++ name participant ++ lit "</span>"
       ++ nl 12 ++ lit "</div>"
       ++ nl 8 |}.

Definition addParticipantVideo (participant : Participant) (st : State)
  : State :=
  on_document
    (fun d => set_participantVideos
                (participantVideos d ++ [videoDiv participant]) d) st.

(** [updateParticipantsList(participants)]. *)
Definition updateParticipantsList (participants : list Participant)
    (st : State) : State :=
  (* Clear existing participants (except self) *)
  let selfParticipant :=
    querySelector (lit "participant-item") (participantsList (document st)) in
  let st := on_document (set_participantsList []) st in
  let st :=
    match selfParticipant with
    | Some e => on_document (set_participantsList [e]) st
    | None => st
    end in
  (* Add other participants *)
  let st :=
    fold_left
      (fun st participant =>
         if negb (strict_eqb (id participant) (userId (config (this st))))
         then addParticipantVideo participant
                (addParticipantToList participant st)
         else st)
      participants st in
  (* Update count *)
  on_document
    (set_participantCount (toString (N.of_nat (length participants)))) st.

(** *** Chat message rendering *)

(** [s.replace(/pat/g, rep)] for a pattern that is a non-empty literal
    and a replacement without [$]: scanning left to right, an occurrence
    at the current position is replaced and skipped; otherwise the
    character is copied. [skip] counts the characters of the occurrence
    still to be passed over. *)
Fixpoint replace_g (pat rep : str) (skip : nat) (s : str) : str :=
  match s with
  | [] => []
  | c :: s' =>
      match skip with
      | S k => replace_g pat rep k s'
      | O =>
          if is_prefix pat s
          then rep ++ replace_g pat rep (length pat - 1) s'
          else c :: replace_g pat rep 0 s'
      end
  end.

Definition replaceAll (pat rep : str) (s : str) : str := replace_g pat rep 0 s.

(** The five replacement strings, code unit by code unit as the script
    file has them. *)
Definition glyph_smile : str := [63743; 252; 242; 228]%N.
Definition glyph_frown : str := [63743; 252; 242; 251]%N.
Definition glyph_grin : str := [63743; 252; 242; 201]%N.
Definition glyph_neutral : str := [63743; 252; 242; 234]%N.
Definition glyph_heart : str := [8218; 249; 167; 212; 8719; 232]%N.

(** [[^\s]+] at the start of [s]: the longest run of non-blank
    characters. *)
Fixpoint take_non_ws (s : str) : str :=
  match s with
  | [] => []
  | c :: s' => if is_ws c then [] else c :: take_non_ws s'
  end.

Fixpoint strip_prefix (p s : str) : option str :=
  match p, s with
  | [], _ => Some s
  | x :: p', y :: s' => if char_eqb x y then strip_prefix p' s' else None
  | _ :: _, [] => None
  end.

(** [:\/\/[^\s]+] at the start of [r], after [scheme] was read. *)
Definition url_rest (scheme : str) (r : str) : option str :=
  match strip_prefix (lit "://") r with
  | Some r' =>
      match take_non_ws r' with
      | [] => None
      | body => Some (scheme ++ lit "://" ++ body)
      end
  | None => None
  end.

(** [https?:\/\/[^\s]+] at the start of [s]: the text matched, if any.
    The optional [s] is tried first, then left out. *)
Definition url_at (s : str) : option str :=
  match strip_prefix (lit "http") s with
  | None => None
  | Some r =>
      let with_s :=
        match r with
        | c :: r' =>
            if char_eqb c 115%N then url_rest (lit "https") r' else None
        | [] => None
        end in
      match with_s with
      | Some m => Some m
      | None => url_rest (lit "http") r
      end
  end.

(** The replacement ['<a href="$1" target="_blank"
    class="text-primary">$1</a>'] with [$1] bound to [m]. *)
Definition anchor (m : str) : str :=
  lit "<a href=" ++ q m ++ lit " target=" ++ q (lit "_blank")
    ++ lit " class=" ++ q (lit "text-primary") ++ lit ">" ++ m ++ lit "</a>".

(** [s.replace(/(https?:\/\/[^\s]+)/g, '<a ...>$1</a>')]. *)
Fixpoint linkify_from (skip : nat) (s : str) : str :=
  match s with
  | [] => []
  | c :: s' =>
      match skip with
      | S k => linkify_from k s'
      | O =>
          match url_at s with
          | Some m => anchor m ++ linkify_from (length m - 1) s'
          | None => c :: linkify_from 0 s'
          end
      end
  end.

Definition linkify (s : str) : str := linkify_from 0 s.

(** [formatMessageContent(content)]. *)
Definition formatMessageContent (content : str) : str :=
  linkify
    (replaceAll (lit "<3") glyph_heart
       (replaceAll (lit ":|") glyph_neutral
          (replaceAll (lit ":D") glyph_grin
             (replaceAll (lit ":(") glyph_frown
                (replaceAll (lit ":)") glyph_smile content))))).

(** The five emoticon passes of [formatMessageContent] as a table, in
    the order of the source, and a run of the passes of any table. *)
Definition emoticonPasses : list (str * str) :=
  [ (lit ":)", glyph_smile);
    (lit ":(", glyph_frown);
    (lit ":D", glyph_grin);
    (lit ":|", glyph_neutral);
    (lit "<3", glyph_heart) ].

Definition runPasses (passes : list (str * str)) (s : str) : str :=
  fold_left (fun acc p => replaceAll (fst p) (snd p) acc) passes s.

(** *** Construction and the asynchronous continuations *)

(** [new MeetingRoom(config)] at time [dateNow] on page [d]; the browser
    hands out interval handle [h]. [init] opens the socket, starts the
    timer, binds the listeners, starts the camera request (which settles
    later, see below) and joins. *)
Definition construct (cfg : Config) (dateNow : N) (h : positive) (d : Page)
  : State :=
  let st :=
    {| this :=
         {| config := cfg; socket := None; startTime := dateNow;
            timerInterval := None; isCameraOn := true;
            isMicrophoneOn := true; isChatVisible := true;
            localStream := None; screenStream := None;
            isScreenSharing := false |};
       document := d |} in
  let st := on_this (set_socket (Some [])) st in
  let st := startTimer h st in
  match emit (join_meeting (meetingId cfg)) st with
  | Returned st => st
  | Threw st => st
  end.

(** [initCamera()] once [getUserMedia] resolves with [stream]. *)
Definition initCamera_granted (stream : MediaStream) (st : State) : State :=
  showNotification (lit "Camera and microphone access granted")
    (lit "success") (on_this (set_localStream (Some stream)) st).

(** [initCamera()] once [getUserMedia] rejects. *)
Definition initCamera_denied (st : State) : State :=
  let st :=
    showNotification
      (lit "Camera/microphone access denied. Please allow access and refresh.")
      (lit "warning") st in
  updateControlButtons
    (on_this (set_isMicrophoneOn false) (on_this (set_isCameraOn false) st)).

(** [shareScreen()] while sharing: the share stops. *)
Definition shareScreen_stop (st : State) : State :=
  let st :=
    match screenStream (this st) with
    | Some _ => on_this (set_screenStream None) st
    | None => st
    end in
  showNotification (lit "Screen sharing stopped") (lit "info")
    (on_this (set_isScreenSharing false) st).

(** [shareScreen()] while not sharing, once [getDisplayMedia] resolves
    with [stream]. Reading [getVideoTracks()[0].addEventListener] on a
    stream without a video track throws inside the [try]. *)
Definition shareScreen_started (stream : MediaStream) (st : State) : State :=
  let st := on_this (set_screenStream (Some stream)) st in
  match getVideoTracks stream with
  | [] =>
      showNotification
        (lit "Screen sharing not supported or permission denied")
        (lit "error") st
  | _ :: _ =>
      showNotification (lit "Screen sharing started") (lit "success")
        (on_this (set_isScreenSharing true) st)
  end.

(** [shareScreen()] while not sharing, once [getDisplayMedia] rejects. *)
Definition shareScreen_denied (st : State) : State :=
  showNotification (lit "Screen sharing not supported or permission denied")
    (lit "error") st.

End Meeting.

(** ** Vocabulary of the statements *)
Module Vocabulary.
Import Meeting.

(** The state a method ends in, whichever way it ends. *)
Definition stateOf (o : Outcome) : State :=
  match o with
  | Returned st => st
  | Threw st => st
  end.

(** [t'] is [t] after exactly one more call of [stop()], and nothing
    else. *)
Definition stoppedOnce (t t' : MediaStreamTrack) : Prop :=
  stopCalls t' = S (stopCalls t)
  /\ kind t' = kind t /\ enabled t' = enabled t.

(** Track by track, a stream after [stop()] was called exactly once on
    each of its tracks; an absent stream stays absent. *)
Definition streamStoppedOnce (s s' : option MediaStream) : Prop :=
  match s, s' with
  | Some l, Some l' => Forall2 stoppedOnce l l'
  | None, None => True
  | _, _ => False
  end.

(** Every scheduled interval is the one [timerInterval] records: what
    [startTimer], the only caller of [setInterval], establishes. *)
Definition timerRecorded (st : State) : Prop :=
  forall h, In h (intervals (document st)) ->
            timerInterval (this st) = Some h.

(** The participants of a push other than the local user, as the loop of
    [updateParticipantsList] tells them apart. *)
Definition others (cfg : Config) (participants : list Participant)
  : list Participant :=
  filter (fun p => negb (strict_eqb (id p) (userId cfg))) participants.

(** A stream as [getUserMedia({ video: true, audio: true })] resolves
    with: one track for each kind asked for, so at most one video and at
    most one audio track. [initCamera] is the only place that assigns
    [localStream]. *)
Definition captured (stream : MediaStream) : Prop :=
  (length (getVideoTracks stream) <= 1)%nat
  /\ (length (getAudioTracks stream) <= 1)%nat.

(** A run of later turns of the event loop in which intervals come up. *)
Definition fireAll (turns : list (positive * N)) (st : State) : State :=
  fold_left (fun st turn => intervalFires (fst turn) (snd turn) st) turns st.

End Vocabulary.

(** ** Emoticons, read two characters at a time *)
Module Emoticons.
Import Meeting.

(** A pass whose pattern is the two characters [a], [b]. *)
Definition Entry := (char * char * str)%type.

Definition pass (e : Entry) : str * str :=
  match e with (a, b, g) => ([a; b], g) end.

(** The five sequences with their replacements: [:)], [:(], [:D], [:|]
    and [<3]. *)
Definition emoticonTable : list Entry :=
  [ (58, 41, glyph_smile);
    (58, 40, glyph_frown);
    (58, 68, glyph_grin);
    (58, 124, glyph_neutral);
    (60, 51, glyph_heart) ]%N.

(** One pass over a two-character pattern, by direct recursion. *)
Fixpoint replace2 (a b : char) (g : str) (s : str) : str :=
  match s with
  | [] => []
  | x :: s' =>
      match s' with
      | [] => [x]
      | y :: r =>
          if char_eqb a x && char_eqb b y then g ++ replace2 a b g r
          else x :: replace2 a b g s'
      end
  end.

(** The replacement the table maps the sequence [x], [y] to. *)
Fixpoint lookup (T : list Entry) (x y : char) : option str :=
  match T with
  | [] => None
  | (a, b, g) :: T' =>
      if char_eqb a x && char_eqb b y then Some g else lookup T' x y
  end.

(** Rendering as the specification words it: reading the text once from
    the left, every occurrence of a sequence of the table is replaced by
    the replacement mapped to it, and every other character is kept. *)
Fixpoint replaceEach (T : list Entry) (s : str) : str :=
  match s with
  | [] => []
  | x :: s' =>
      match s' with
      | [] => [x]
      | y :: r =>
          match lookup T x y with
          | Some g => g ++ replaceEach T r
          | None => x :: replaceEach T s'
          end
      end
  end.

(** Some sequence of the table occurs in [s]. *)
Fixpoint hasEmoticon (T : list Entry) (s : str) : bool :=
  match s with
  | [] => false
  | x :: s' =>
      match s' with
      | [] => false
      | y :: _ =>
          match lookup T x y with
          | Some _ => true
          | None => hasEmoticon T s'
          end
      end
  end.

(** [c] starts, respectively ends, a sequence of the table. *)
Definition IsHead (T : list Entry) (c : char) : Prop :=
  exists b g, In (c, b, g) T.

Definition IsTail (T : list Entry) (c : char) : Prop :=
  exists a g, In (a, c, g) T.

(** What makes the passes of a table independent of one another: no
    replacement is empty or holds a character of a sequence, and no
    character ends one sequence and starts another. *)
Definition TableOk (T : list Entry) : Prop :=
  forall a b g, In (a, b, g) T ->
    g <> []
    /\ (forall c, In c g -> ~ IsHead T c /\ ~ IsTail T c)
    /\ ~ IsHead T b.


(** The same conditions, computed. *)
Definition isHeadb (T : list Entry) (c : char) : bool :=
  existsb (fun e => char_eqb (fst (fst e)) c) T.

Definition isTailb (T : list Entry) (c : char) : bool :=
  existsb (fun e => char_eqb (snd (fst e)) c) T.

Definition tableOkb (T : list Entry) : bool :=
  forallb
    (fun e =>
       match snd e with [] => false | _ :: _ => true end
       && forallb (fun c => negb (isHeadb T c) && negb (isTailb T c)) (snd e)
       && negb (isHeadb T (snd (fst e))))
    T.

End Emoticons.

(** ** URLs in a text *)
Module Links.
Import Meeting.

(** [u] is an HTTP or HTTPS URL as the pattern reads one: the scheme,
    [://], then one or more non-blank characters. *)
Definition IsUrl (u : str) : Prop :=
  exists body,
    (u = lit "http://" ++ body \/ u = lit "https://" ++ body)
    /\ body <> []
    /\ Forall (fun c => is_ws c = false) body.

(** Nothing, or a blank, comes right before, respectively right after. *)
Definition EndsBlank (pre : str) : Prop :=
  pre = [] \/ exists p w, pre = p ++ [w] /\ is_ws w = true.

Definition StartsBlank (post : str) : Prop :=
  match post with
  | [] => True
  | c :: _ => is_ws c = true
  end.

(** [u] is what the pattern, applied globally to [pre ++ u ++ post],
    matches at the position after [pre]: the pattern matches exactly [u]
    there, and no match that starts earlier reaches that position. *)
Definition MatchedAt (pre u post : str) : Prop :=
  url_at (u ++ post) = Some u
  /\ forall p1 p2 m,
       pre = p1 ++ p2 -> p2 <> [] ->
       url_at (p2 ++ u ++ post) = Some m -> (length m <= length p2)%nat.

End Links.

(** ** [formatTime] on Numbers

    A JavaScript Number is an IEEE 754 binary64 value. [SpecFloat] is the
    Standard Library's specification of that arithmetic (precision 53,
    [emax] 1024, round to nearest, ties to even). This module carries out
    [formatTime] on Numbers that are non-negative integers, which is what
    the timer passes: the quotient [seconds / 3600] is rounded before
    [Math.floor] sees it, and [toString] prints the shortest numeral that
    reads back as the Number. *)
Module Binary64.
Import Js.

Definition Number := SpecFloat.spec_float.
Definition prec : Z := 53.
Definition emax : Z := 1024.

(** The Number value for a non-negative integer: the integer itself when
    it is a Number, else the nearest Number. *)
Definition of_N (n : N) : Number :=
  SpecFloat.binary_normalize prec emax (Z.of_N n) 0 false.

(** [x / y]. *)
Definition div (x y : Number) : Number := SpecFloat.SFdiv prec emax x y.

(** [Math.floor(x)] for a finite [x >= 0]: an integer-valued Number,
    given by its value. For an integer-valued [x] it is the value of
    [x]. *)
Definition floor (x : Number) : N :=
  match x with
  | SpecFloat.S754_finite false m (Zpos e) => N.shiftl (Npos m) (Npos e)
  | SpecFloat.S754_finite false m Z0 => Npos m
  | SpecFloat.S754_finite false m (Zneg e) => N.shiftr (Npos m) (Npos e)
  | _ => 0%N
  end.

(** The second half of [SpecFloat.binary_round_aux]: the rounded
    mantissa [mr] is brought back to 53 digits and the result is built.
    (It gives the lemmas on rounding a term to talk about.) *)
Definition finishing (mr : Z) (e : Z) : SpecFloat.spec_float :=
  let '(mrs'', e'') :=
    SpecFloat.shr (SpecFloat.shr_record_of_loc mr SpecFloat.loc_Exact) e
      (Z.max (SpecFloat.Zdigits2 mr + e - 53) (3 - 1024 - 53) - e) in
  match SpecFloat.shr_m mrs'' with
  | 0%Z => SpecFloat.S754_zero false
  | Z.pos m0 =>
      if (e'' <=? 1024 - 53)%Z
      then SpecFloat.S754_finite false m0 e''
      else SpecFloat.S754_infinity false
  | Z.neg _ => SpecFloat.S754_nan
  end.

(** [n] is the value of a Number. *)
Definition isNumber (n : N) : bool := (floor (of_N n) =? n)%N.

(** [x % d] for an integer-valued [x >= 0] and an integer [d > 0]: the
    remainder is exact. *)
Definition rem (x : Number) (d : N) : N := (floor x mod d)%N.

(** *** [Number.prototype.toString()]

    For a Number [x] that is a positive integer (ECMA-262,
    Number::toString, radix 10): let [n], [k] and [s] be integers with
    [k >= 1], [10^(k-1) <= s < 10^k], the Number value for
    [s * 10^(n-k)] being [x], and [k] as small as possible; of several
    such [s] the one with [s * 10^(n-k)] closest to [x] (the even one on
    a tie). If [k <= n <= 21] the result is the [k] digits of [s]
    followed by [n - k] zeros; for larger [n] it is in exponent
    notation. With [d] the number of decimal digits of [x], [n] is [d] or
    [d + 1], and [s] is one of the two integers around
    [x / 10^(n-k)]. *)
Definition candidates (x : N) (k n : nat) : list (N * nat) :=
  if (n <? k)%nat then []
  else
    let p := (10 ^ N.of_nat (n - k))%N in
    filter
      (fun c =>
         (10 ^ N.of_nat (k - 1) <=? fst c)%N && (fst c <? 10 ^ N.of_nat k)%N
         && (floor (of_N (fst c * p)) =? x)%N)
      [((x / p)%N, n); ((x / p + 1)%N, n)].

Definition distance (x : N) (k : nat) (c : N * nat) : N :=
  let v := (fst c * 10 ^ N.of_nat (snd c - k))%N in
  if (v <? x)%N then (x - v)%N else (v - x)%N.

Definition closer (x : N) (k : nat) (best c : N * nat) : N * nat :=
  if (distance x k c <? distance x k best)%N then c
  else if (distance x k c =? distance x k best)%N
          && N.even (fst c) && N.odd (fst best)
       then c
       else best.

(** The triple [(s, n, k)], trying [k], [k + 1], ... ([k = d] succeeds
    with [s = x]). *)
Fixpoint shortest (fuel : nat) (x : N) (d k : nat) : N * nat * nat :=
  match fuel with
  | O => (x, d, d)
  | S fuel' =>
      match candidates x k d ++ candidates x k (S d) with
      | [] => shortest fuel' x d (S k)
      | c :: cs =>
          let best := fold_left (closer x k) cs c in
          (fst best, snd best, k)
      end
  end.

Definition toString (x : N) : str :=
  if (x =? 0)%N then lit "0"
  else
    let d := length (Js.toString x) in
    let '(s, n, k) := shortest d x d 1 in
    let digits := Js.toString s in
    if (n <=? 21)%nat then digits ++ repeat 48%N (n - k)
    else
      match digits with
      | [] => []
      | [c] => [c] ++ lit "e+" ++ Js.toString (N.of_nat (n - 1))
      | c :: more =>
          [c] ++ lit "." ++ more ++ lit "e+"
            ++ Js.toString (N.of_nat (n - 1))
      end.

(** [formatTime(seconds)], both copies, for [seconds] a Number that is a
    non-negative integer. *)
Definition formatTime (seconds : Number) : str :=
  let hours := floor (div seconds (of_N 3600)) in
  let minutes := floor (div (of_N (rem seconds 3600)) (of_N 60)) in
  let secs := rem seconds 60 in
  padStart 2 (lit "0") (toString hours) ++ lit ":"
    ++ padStart 2 (lit "0") (toString minutes) ++ lit ":"
    ++ padStart 2 (lit "0") (toString secs).

End Binary64.

(** ** A meeting page to run the methods on *)
Module Scenario.
Import Meeting.

Definition ann : Participant :=
  {| id := VNum 1; name := lit "Ann"; microphone := true; camera := true |}.

Definition bob : Participant :=
  {| id := VNum 2; name := lit "Bob"; microphone := true; camera := false |}.

Definition cfg : Config :=
  {| meetingId := VStr (lit "123-456-7890");
     userId := VNum 1;
     userName := lit "Ann" |}.

(** The list entry of the local user, as the page template renders it. *)
Definition selfEntry : Element :=
  {| className := lit "participant-item";
     elementId := lit "participant-self";
     elementHTML := lit "<span class=" ++ q (lit "participant-name")
                      ++ lit ">Ann (You)</span>" |}.

Definition page : Page :=
  {| messageInput := [];
     participantsList := [selfEntry];
     participantVideos := [];
     participantCount := lit "1";
     timer := lit "00:00:00";
     cameraBtn := Some {| classList := [lit "control-btn"; lit "active"];
                          buttonHTML := [] |};
     micBtn := Some {| classList := [lit "control-btn"; lit "active"];
                       buttonHTML := [] |};
     alerts := [];
     intervals := [] |}.

Definition track (k : TrackKind) : MediaStreamTrack :=
  {| kind := k; enabled := true; stopCalls := 0 |}.

(** The page right after [new MeetingRoom(cfg)]. *)
Definition joined : State := construct cfg 1000 1%positive page.

(** Camera and microphone granted: one track of each kind. *)
Definition live : State := initCamera_granted [track video; track audio] joined.

(** Camera and microphone denied: no local stream. *)
Definition denied : State := initCamera_denied joined.

(** Sharing the screen as well. *)
Definition sharing : State := shareScreen_started [track video] live.

(** Some text typed into the message box. *)
Definition typed (text : str) (st : State) : State :=
  on_document (set_messageInput text) st.

End Scenario.

(** ** Runs of the submit button *)
Module ButtonRuns.
Import App.

(** What happens to the button: a [click] event reaches its listener, or
    the clock moves. [handleButton] runs the listener on every such
    event, also on one that a script dispatches to a disabled button;
    [handlePage] below is what clicks in the page do. *)
Inductive ButtonEvent :=
| Click
| Clock (t : N).

Definition handleButton (w : ButtonWorld) (e : ButtonEvent) : ButtonWorld :=
  match e with
  | Click => click w
  | Clock t => advance t w
  end.

Definition runButton (events : list ButtonEvent) (w : ButtonWorld)
  : ButtonWorld :=
  fold_left handleButton events w.

(** A click on the button in the page. A disabled button is not clicked:
    the browser dispatches no [click] event to a disabled form control
    (and [button.click()] does nothing on one), so the listener runs on
    an enabled button only. *)
Definition userClick (w : ButtonWorld) : ButtonWorld :=
  if disabled (button w) then w else click w.

(** What happens to the button in the page: the user clicks it, or the
    clock moves. *)
Definition handlePage (w : ButtonWorld) (e : ButtonEvent) : ButtonWorld :=
  match e with
  | Click => userClick w
  | Clock t => advance t w
  end.

Definition runPage (events : list ButtonEvent) (w : ButtonWorld)
  : ButtonWorld :=
  fold_left handlePage events w.


(** The two states of a button whose page label is [label]: idle, with
    its label and nothing pending; busy until [d], with one restore
    pending that holds the label and is due at [d], at most 3000 ms
    ahead. *)
Definition idle (label : str) (w : ButtonWorld) : Prop :=
  button w = {| innerHTML := label; disabled := false |}
  /\ timeouts w = [].

Definition busyUntil (label : str) (d : N) (w : ButtonWorld) : Prop :=
  button w = {| innerHTML := loadingLabel; disabled := true |}
  /\ timeouts w = [{| due := d; originalText := label |}]
  /\ (now w < d)%N /\ (d <= now w + 3000)%N.

Definition PageState (label : str) (w : ButtonWorld) : Prop :=
  idle label w \/ exists d, busyUntil label d w.

End ButtonRuns.

(** ** The remaining handlers of [static/meeting.js] *)
Module Handlers.
Import Meeting Vocabulary.

(** *** The chat pane *)

(** A child of [#chatMessages]: a [div.chat-message] with its markup, or
    a [div.system-notification] with its text. *)
Inductive ChatNode :=
| chatMessage (innerHTML : str)
| systemNotification (textContent : str).

(** The markup [displayMessage(data)] gives the message element. *)
Definition messageHTML (cfg : Config) (user_name message timestamp : str)
  : str :=
  let isOwnMessage := str_eqb user_name (userName cfg) in
  nl 12 ++ lit "<div class=" ++ q (lit "message-header") ++ lit ">"
  ++ nl 16 ++ lit "<span class=" ++ q (lit "message-sender")
  ++ lit " style="
  ++ q (if isOwnMessage then lit "color: var(--success-color);" else [])
  ++ lit ">" ++ user_name
  ++ (if isOwnMessage then lit " (You)" else []) ++ lit "</span>"
  ++ nl 16 ++ lit "<span class=" ++ q (lit "message-time") ++ lit ">"
  ++ timestamp ++ lit "</span>"
  ++ nl 12 ++ lit "</div>"
  ++ nl 12 ++ lit "<div class=" ++ q (lit "message-content") ++ lit ">"
  ++ formatMessageContent message ++ lit "</div>"
  ++ nl 8.

(** [displayMessage(data)] (the scroll position is not modelled). *)
Definition displayMessage (cfg : Config) (user_name message timestamp : str)
    (chat : list ChatNode) : list ChatNode :=
  chat ++ [chatMessage (messageHTML cfg user_name message timestamp)].

(** [showSystemNotification(message)]. *)
Definition showSystemNotification (message : str) (chat : list ChatNode)
  : list ChatNode :=
  chat ++ [systemNotification message].

(** A stored message of a [chat_history] payload. *)
Record StoredMessage := {
  stored_user_name : str;
  stored_message : str;
  stored_timestamp : str
}.

(** [loadChatHistory(messages)]; [localTime] stands for
    [new Date(t).toLocaleTimeString()], which depends on the locale. *)
Definition loadChatHistory (localTime : str -> str) (cfg : Config)
    (messages : list StoredMessage) (chat : list ChatNode)
  : list ChatNode :=
  fold_left
    (fun chat m =>
       displayMessage cfg (stored_user_name m) (stored_message m)
         (localTime (stored_timestamp m)) chat)
    messages [].

(** *** The tab: the controller, its page and the chat pane *)
Record Tab := {
  room : State;
  chatMessages : list ChatNode
}.

Definition on_room (f : State -> State) (tab : Tab) : Tab :=
  {| room := f (room tab); chatMessages := chatMessages tab |}.

Definition on_chat (f : list ChatNode -> list ChatNode) (tab : Tab) : Tab :=
  {| room := room tab; chatMessages := f (chatMessages tab) |}.

(** [handleUserJoined(data)] and [handleUserLeft(data)]. *)
Definition handleUserJoined (message user_name : str)
    (participants : list Participant) (tab : Tab) : Tab :=
  let tab := on_chat (showSystemNotification message) tab in
  let tab := on_room (updateParticipantsList participants) tab in
  on_room
    (showNotification (user_name ++ lit " joined the meeting") (lit "success"))
    tab.

Definition handleUserLeft (message user_name : str)
    (participants : list Participant) (tab : Tab) : Tab :=
  let tab := on_chat (showSystemNotification message) tab in
  let tab := on_room (updateParticipantsList participants) tab in
  on_room
    (showNotification (user_name ++ lit " left the meeting") (lit "info"))
    tab.

(** [sendReaction(emoji)]. *)
Definition sendReaction (emoji : str) (st : State) : Outcome :=
  emit (send_reaction (meetingId (config (this st))) emoji) st.

(** The quick reactions, code unit by code unit as the script file has
    them. *)
Definition reactions : list str :=
  [ [63743; 252; 235; 231]; [63743; 252; 235; 233];
    [8218; 249; 167; 212; 8719; 232]; [63743; 252; 242; 199];
    [63743; 252; 242; 198]; [63743; 252; 242; 162];
    [63743; 252; 235; 232]; [63743; 252; 238; 8226] ]%N.

(** [showReactionPicker()]; [draw] stands for the random draw, of which
    [Math.floor(Math.random() * reactions.length)] keeps an index below
    the length. *)
Definition showReactionPicker (draw : nat) (st : State) : Outcome :=
  sendReaction (nth (draw mod length reactions) reactions []) st.

(** The [keypress] listener of the message box. *)
Definition messageInput_onkeypress (key : str) (shiftKey : bool) (st : State)
  : Outcome :=
  if str_eqb key (lit "Enter") && negb shiftKey then sendMessage st
  else Returned st.

(** [shareScreen()] up to its [await]: while sharing it stops the share;
    otherwise it asks for a display capture, which settles later. *)
Definition shareScreen_called (st : State) : State :=
  if isScreenSharing (this st) then shareScreen_stop st else st.

(** [confirmLeaveMeeting()]: one call of [leaveMeeting()]
    ([window.meetingRoom] is the controller). The assignment to
    [window.location.href] that follows starts the navigation and changes
    nothing here; the [beforeunload] event it brings about is an event of
    its own, [BeforeUnload] below. *)
Definition confirmLeaveMeeting (st : State) : State :=
  leaveMeeting st.

(** *** What can happen in a tab *)

(** The events the script has handlers for, as far as they reach the
    controller, the page of [Page] or the chat pane. (The handlers of
    [new_reaction], [camera_toggled] and [microphone_toggled] and the
    chat and emoji-picker toggles only restyle elements outside this
    model or rewrite an icon inside a list entry.) *)
Inductive Event :=
| CameraGranted (stream : MediaStream)
| CameraDenied
| Connected
| Disconnected
| UserJoined (message user_name : str) (participants : list Participant)
| UserLeft (message user_name : str) (participants : list Participant)
| NewMessage (user_name message timestamp : str)
| MessageSent (status : str)
| ChatHistory (messages : list StoredMessage)
| Typed (text : str)
| KeyPress (key : str) (shiftKey : bool)
| ClickSend
| ClickReaction (draw : nat)
| ClickCamera
| ClickMicrophone
| ClickShareScreen
| ShareGranted (stream : MediaStream)
| ShareDenied
| IntervalTurn (h : positive) (dateNow : N)
| BeforeUnload
| ConfirmLeave.

Definition handle (localTime : str -> str) (tab : Tab) (e : Event) : Tab :=
  match e with
  | CameraGranted stream => on_room (initCamera_granted stream) tab
  | CameraDenied => on_room initCamera_denied tab
  | Connected =>
      on_room
        (showNotification (lit "Connected to meeting server") (lit "success"))
        tab
  | Disconnected =>
      on_room
        (showNotification (lit "Connection lost. Trying to reconnect...")
           (lit "warning")) tab
  | UserJoined message user_name participants =>
      handleUserJoined message user_name participants tab
  | UserLeft message user_name participants =>
      handleUserLeft message user_name participants tab
  | NewMessage user_name message timestamp =>
      on_chat
        (displayMessage (config (this (room tab))) user_name message
           timestamp) tab
  | MessageSent status =>
      if str_eqb status (lit "success")
      then on_room (showNotification (lit "Message sent") (lit "success")) tab
      else tab
  | ChatHistory messages =>
      on_chat (loadChatHistory localTime (config (this (room tab))) messages)
        tab
  | Typed text => on_room (on_document (set_messageInput text)) tab
  | KeyPress key shiftKey =>
      on_room (fun st => stateOf (messageInput_onkeypress key shiftKey st)) tab
  | ClickSend => on_room (fun st => stateOf (sendMessage st)) tab
  | ClickReaction draw =>
      on_room (fun st => stateOf (showReactionPicker draw st)) tab
  | ClickCamera => on_room (fun st => stateOf (toggleCamera st)) tab
  | ClickMicrophone => on_room (fun st => stateOf (toggleMicrophone st)) tab
  | ClickShareScreen => on_room shareScreen_called tab
  | ShareGranted stream => on_room (shareScreen_started stream) tab
  | ShareDenied => on_room shareScreen_denied tab
  | IntervalTurn h dateNow => on_room (intervalFires h dateNow) tab
  | BeforeUnload => on_room leaveMeeting tab
  | ConfirmLeave => on_room confirmLeaveMeeting tab
  end.

Definition run (localTime : str -> str) (events : list Event) (tab : Tab)
  : Tab :=
  fold_left (handle localTime) events tab.

(** The tab when the page has loaded: the controller just constructed,
    the chat pane empty. *)
Definition opened (cfg : Config) (dateNow : N) (h : positive) (d : Page)
  : Tab :=
  {| room := construct cfg dateNow h d; chatMessages := [] |}.

Definition isToggleClick (e : Event) : bool :=
  match e with
  | ClickCamera | ClickMicrophone => true
  | _ => false
  end.

End Handlers.

(** ** What the handlers keep *)
Module Invariants.
Import Meeting Handlers.

(** From [st] to [st']: the configuration, the start time and the
    recorded timer handle are the same, no interval was scheduled, and
    an open socket stays open with its earlier events in place. *)
Definition Steady (st st' : State) : Prop :=
  config (this st') = config (this st)
  /\ startTime (this st') = startTime (this st)
  /\ timerInterval (this st') = timerInterval (this st)
  /\ incl (intervals (document st')) (intervals (document st))
  /\ forall sk, socket (this st) = Some sk ->
                exists more, socket (this st') = Some (sk ++ more).

(** What [updateControlButtons] makes of the button of a device whose
    flag is [on]; [icon] is [video] or [microphone]. *)
Definition restyle (on : bool) (icon : str) (b : ControlButton)
  : ControlButton :=
  if on then
    {| classList :=
         classList_add (lit "active")
           (classList_remove (lit "muted") (classList b));
       buttonHTML :=
         lit "<i class=" ++ q (lit "fas fa-" ++ icon) ++ lit "></i>" |}
  else
    {| classList :=
         classList_add (lit "muted")
           (classList_remove (lit "active") (classList b));
       buttonHTML :=
         lit "<i class=" ++ q (lit "fas fa-" ++ icon ++ lit "-slash")
           ++ lit "></i>" |}.

(** While the controller says the screen is shared it holds the stream. *)
Definition ScreenHeld (st : State) : Prop :=
  isScreenSharing (this st) = false
  \/ exists s, screenStream (this st) = Some s.

End Invariants.

(* ===================================================================== *)
(** * Part II. Properties                                                 *)
(* ===================================================================== *)

(** ** Strings *)
Section StringFacts.

Lemma char_eqb_eq (a b : char) : char_eqb a b = true <-> a = b.
Proof. apply N.eqb_eq. Qed.

Lemma char_eqb_refl (a : char) : char_eqb a a = true.
Proof. apply N.eqb_refl. Qed.

Lemma str_eqb_eq (a b : str) : str_eqb a b = true <-> a = b.
Proof.
  revert b; induction a as [|x a IH]; intros [|y b]; simpl;
    try (split; [discriminate | discriminate]); try tauto.
  rewrite andb_true_iff, char_eqb_eq, IH.
  split; [intros [-> ->]; reflexivity | intros E; inversion E; auto].
Qed.

Lemma str_eqb_refl (a : str) : str_eqb a a = true.
Proof. apply str_eqb_eq; reflexivity. Qed.

Lemma is_prefix_spec (p s : str) :
  is_prefix p s = true <-> exists r, s = p ++ r.
Proof.
  revert s; induction p as [|x p IH]; intros s; simpl.
  - split; [intros _; exists s; reflexivity | reflexivity].
  - destruct s as [|y s].
    + split; [discriminate | intros [r E]; discriminate].
    + rewrite andb_true_iff, char_eqb_eq, IH. split.
      * intros [-> [r ->]]. exists r; reflexivity.
      * intros [r E]. inversion E; subst. split; [reflexivity | eauto].
Qed.

Lemma is_infix_spec (x s : str) :
  is_infix x s = true <-> exists pre post, s = pre ++ x ++ post.
Proof.
  induction s as [|c s IH].
  - simpl. rewrite orb_false_r, is_prefix_spec. split.
    + intros [r E]. exists [], r. exact E.
    + intros [pre [post E]]. destruct pre; simpl in E.
      * exists post; exact E.
      * discriminate.
  - simpl. rewrite orb_true_iff, is_prefix_spec, IH. split.
    + intros [[r E] | [pre [post E]]].
      * exists [], r. exact E.
      * exists (c :: pre), post. simpl. rewrite E. reflexivity.
    + intros [pre [post E]]. destruct pre as [|c' pre]; simpl in E.
      * left. exists post. exact E.
      * right. inversion E; subst. exists pre, post. reflexivity.
Qed.

Lemma parse_dec_snoc (l : str) (c : char) :
  parse_dec (l ++ [c]) = (10 * parse_dec l + digit_val c)%N.
Proof. unfold parse_dec. rewrite fold_left_app. reflexivity. Qed.

Lemma digits_fuel_sound (fuel : nat) :
  forall n, (n < 2 ^ N.of_nat fuel)%N ->
    parse_dec (digits_fuel fuel n) = n
    /\ Forall (fun c => is_digit c = true) (digits_fuel fuel n).
Proof.
  induction fuel as [|f IH]; intros n Hn.
  - simpl in Hn. assert (n = 0%N) by lia. subst. simpl. split; constructor.
  - cbn [digits_fuel]. destruct (N.ltb_spec n 10) as [Hlt | Hge].
    + split.
      * unfold parse_dec, digit_val. cbn [fold_left]. lia.
      * constructor; [|constructor]. unfold is_digit.
        apply andb_true_iff. split; apply N.leb_le; lia.
    + assert (Hq : (n / 10 < 2 ^ N.of_nat f)%N).
      { rewrite Nat2N.inj_succ, N.pow_succ_r' in Hn.
        apply N.Div0.div_lt_upper_bound. lia. }
      destruct (IH _ Hq) as [Hp Hd]. split.
      * rewrite parse_dec_snoc, Hp. unfold digit_val.
        pose proof (N.Div0.div_mod n 10).
        pose proof (N.mod_lt n 10 ltac:(lia)). lia.
      * apply Forall_app. split; [exact Hd|].
        constructor; [|constructor]. unfold is_digit.
        pose proof (N.mod_lt n 10 ltac:(lia)).
        apply andb_true_iff. split; apply N.leb_le; lia.
Qed.

Lemma toString_fuel (n : N) : (n < 2 ^ N.of_nat (S (N.to_nat (N.log2 n))))%N.
Proof.
  rewrite Nat2N.inj_succ, N2Nat.id.
  destruct (N.eq_dec n 0) as [-> | Hn].
  - simpl. lia.
  - apply N.log2_spec. lia.
Qed.

Lemma parse_toString (n : N) : parse_dec (toString n) = n.
Proof. apply digits_fuel_sound, toString_fuel. Qed.

Lemma toString_digits (n : N) :
  Forall (fun c => is_digit c = true) (toString n).
Proof. apply digits_fuel_sound, toString_fuel. Qed.

Lemma toString_small (n : N) : (n < 10)%N -> toString n = [(48 + n)%N].
Proof.
  intros H. unfold toString. cbn [digits_fuel].
  destruct (N.ltb_spec n 10); [reflexivity | lia].
Qed.

Lemma toString_two (n : N) :
  (10 <= n < 100)%N -> toString n = [(48 + n / 10)%N; (48 + n mod 10)%N].
Proof.
  intros [Hlo Hhi]. unfold toString.
  assert (Hl : (1 <= N.log2 n)%N).
  { change 1%N with (N.log2 2). apply N.log2_le_mono. lia. }
  destruct (N.to_nat (N.log2 n)) as [|k] eqn:E; [lia|].
  cbn [digits_fuel].
  destruct (N.ltb_spec n 10); [lia|].
  assert (n / 10 < 10)%N by (apply N.Div0.div_lt_upper_bound; lia).
  destruct (N.ltb_spec (n / 10) 10); [reflexivity | lia].
Qed.

Lemma toString_nonempty (n : N) : toString n <> [].
Proof.
  unfold toString. cbn [digits_fuel].
  destruct (n <? 10)%N; [discriminate|].
  intros E. apply app_eq_nil in E. destruct E as [_ E]. discriminate.
Qed.

(** [padStart(2, '0')] of the numeral of a number below 100. *)
Lemma pad2_below_100 (n : N) :
  (n < 100)%N ->
  padStart 2 (lit "0") (toString n) = [(48 + n / 10)%N; (48 + n mod 10)%N].
Proof.
  intros H. destruct (N.ltb_spec n 10) as [Hs | Hb].
  - rewrite toString_small by exact Hs. unfold padStart. simpl.
    rewrite N.div_small, N.mod_small by lia. reflexivity.
  - rewrite toString_two by lia. reflexivity.
Qed.

(** [padStart(2, '0')] leaves a longer numeral alone and never drops a
    digit. *)
Lemma pad2_parse (n : N) :
  parse_dec (padStart 2 (lit "0") (toString n)) = n
  /\ Forall (fun c => is_digit c = true) (padStart 2 (lit "0") (toString n))
  /\ (2 <= length (padStart 2 (lit "0") (toString n)))%nat.
Proof.
  destruct (N.ltb_spec n 100) as [Hs | Hb].
  - rewrite pad2_below_100 by exact Hs.
    assert (n / 10 < 10)%N by (apply N.Div0.div_lt_upper_bound; lia).
    pose proof (N.mod_lt n 10 ltac:(lia)). pose proof (N.Div0.div_mod n 10).
    split; [|split].
    + unfold parse_dec, digit_val. cbn [fold_left]. lia.
    + repeat constructor; unfold is_digit; apply andb_true_iff;
        split; apply N.leb_le; lia.
    + simpl. lia.
  - unfold padStart.
    destruct (Nat.leb_spec 2 (length (toString n))) as [Hl | Hl].
    + split; [apply parse_toString | split; [apply toString_digits | exact Hl]].
    + exfalso. pose proof (parse_toString n) as Hp.
      pose proof (toString_digits n) as Hd.
      pose proof (@toString_nonempty n) as Hne.
      destruct (toString n) as [|c [|c' t]]; simpl in Hl; try lia.
      * congruence.
      * apply Forall_inv in Hd. unfold is_digit in Hd.
        apply andb_true_iff in Hd. destruct Hd as [Hc1 Hc2].
        apply N.leb_le in Hc1, Hc2.
        unfold parse_dec, digit_val in Hp. cbn [fold_left] in Hp. lia.
Qed.

End StringFacts.

(** ** The meeting-id input mask *)
Section InputMask.

(** What the listener does once the digits are extracted and cut to ten. *)
Lemma oninput_on_digits (v : str) :
  let d := firstn 10 (filter is_digit v) in
  App.meetingIdInput_oninput v =
    if (6 <=? length d)%nat then
      firstn 3 d ++ lit "-" ++ firstn 3 (skipn 3 d) ++ lit "-" ++ skipn 6 d
    else if (3 <=? length d)%nat then firstn 3 d ++ lit "-" ++ skipn 3 d
    else d.
Proof.
  intros d. unfold App.meetingIdInput_oninput.
  assert (E : (if (10 <? length (filter is_digit v))%nat
               then slice 0 10 (filter is_digit v)
               else filter is_digit v) = d).
  { subst d. destruct (Nat.ltb_spec 10 (length (filter is_digit v))).
    - reflexivity.
    - symmetry. apply firstn_all2. lia. }
  rewrite E. reflexivity.
Qed.

(** The listener keeps the digits it shows: extracting the digits of the
    rendered value gives back the (at most ten) digits of the input. *)
Lemma oninput_keeps_digits (v : str) :
  filter is_digit (App.meetingIdInput_oninput v)
  = firstn 10 (filter is_digit v).
Proof.
  rewrite oninput_on_digits. cbv zeta.
  set (d := firstn 10 (filter is_digit v)).
  assert (Hd : filter is_digit d = d).
  { subst d. apply forallb_filter_id. apply forallb_forall.
    intros x Hx.
    assert (Hin : In x (filter is_digit v)).
    { rewrite <- (firstn_skipn 10 (filter is_digit v)).
      apply in_or_app. left. exact Hx. }
    apply filter_In in Hin. tauto. }
  assert (Hsplit3 : firstn 3 d ++ skipn 3 d = d) by apply firstn_skipn.
  assert (Hdash : filter is_digit (lit "-") = []) by reflexivity.
  destruct (6 <=? length d)%nat.
  - rewrite !filter_app, Hdash. cbn [app]. rewrite <- !filter_app.
    replace (skipn 6 d) with (skipn 3 (skipn 3 d))
      by (rewrite skipn_skipn; reflexivity).
    rewrite (firstn_skipn 3 (skipn 3 d)), Hsplit3. exact Hd.
  - destruct (3 <=? length d)%nat.
    + rewrite !filter_app, Hdash. cbn [app]. rewrite <- !filter_app.
      rewrite Hsplit3. exact Hd.
    + exact Hd.
Qed.

(** Typing on: the listener applied to a value it rendered changes
    nothing. *)
Lemma oninput_idempotent (v : str) :
  App.meetingIdInput_oninput (App.meetingIdInput_oninput v)
  = App.meetingIdInput_oninput v.
Proof.
  rewrite (oninput_on_digits (App.meetingIdInput_oninput v)). cbv zeta.
  rewrite oninput_keeps_digits, firstn_firstn. simpl (Nat.min 10 10).
  symmetry. apply oninput_on_digits.
Qed.

(** C1, as the listener has it. Whatever else the field holds, a value
    whose first ten digits are 1234567890 is rendered 123-456-7890 and one
    whose digits are 12 is rendered 12; digits 123 are rendered 123- at
    once (the separator is appended as soon as the third digit is there)
    and digits 1234 are rendered 123-4. *)
Theorem mask_renderings (v : str) :
  let d := firstn 10 (filter is_digit v) in
  (d = lit "1234567890" -> App.meetingIdInput_oninput v = lit "123-456-7890")
  /\ (d = lit "12" -> App.meetingIdInput_oninput v = lit "12")
  /\ (d = lit "123" -> App.meetingIdInput_oninput v = lit "123-")
  /\ (d = lit "1234" -> App.meetingIdInput_oninput v = lit "123-4").
Proof.
  intros d. pose proof (oninput_on_digits v) as E. cbv zeta in E.
  fold d in E.
  split; [|split; [|split]]; intros Hd; rewrite E, Hd; reflexivity.
Qed.

Lemma mask_renderings_witness :
  App.meetingIdInput_oninput (lit "(123) 456-7890 ext. 55")
    = lit "123-456-7890"
  /\ App.meetingIdInput_oninput (lit "1 2") = lit "12"
  /\ App.meetingIdInput_oninput (lit "123") = lit "123-"
  /\ App.meetingIdInput_oninput (lit "123-4") = lit "123-4".
Proof.
  split; [|split; [|split]].
  - apply (proj1 (mask_renderings (lit "(123) 456-7890 ext. 55"))).
    reflexivity.
  - apply (proj1 (proj2 (mask_renderings (lit "1 2")))). reflexivity.
  - apply (proj1 (proj2 (proj2 (mask_renderings (lit "123"))))).
    reflexivity.
  - apply (proj2 (proj2 (proj2 (mask_renderings (lit "123-4"))))).
    reflexivity.
Defined.

(** C1 as worded fails at the three-digit boundary: the value 123 does
    not stay 123. *)
Lemma mask_123_not_unchanged :
  App.meetingIdInput_oninput (lit "123") <> lit "123".
Proof. vm_compute. discriminate. Qed.

End InputMask.

(** ** Numbers: the arithmetic of [formatTime] below 2^53

    On integers below 2^53 every step of [formatTime] on Numbers is
    exact: the Number value for the integer is the integer, the rounded
    quotient by 3600 (or by 60) has the integer quotient for its floor,
    and [toString] prints the decimal numeral. *)
Section Numbers.
Import Binary64.
Local Unset Implicit Arguments.

Lemma digits2_size (p : positive) : SpecFloat.digits2_pos p = Pos.size p.
Proof. induction p; cbn; congruence. Qed.

Lemma size_bounds (p : positive) (k : positive) :
  (2 ^ (Zpos k - 1) <= Zpos p < 2 ^ Zpos k)%Z -> Pos.size p = k.
Proof.
  intros [H1 H2].
  pose proof (Pos.size_gt p) as G. pose proof (Pos.size_le p) as L.
  destruct (Pos.compare_spec (Pos.size p) k) as [E | E | E];
    [exact E | |]; exfalso.
  - assert (Zpos (Pos.size p) <= Zpos k - 1)%Z by lia.
    assert (2 ^ Zpos (Pos.size p) <= 2 ^ (Zpos k - 1))%Z
      by (apply Z.pow_le_mono_r; lia).
    assert (Zpos p < 2 ^ Zpos (Pos.size p))%Z.
    { rewrite <- Pos2Z.inj_pow. lia. }
    lia.
  - assert (Zpos k <= Zpos (Pos.size p) - 1)%Z by lia.
    assert (2 ^ Zpos k <= 2 ^ (Zpos (Pos.size p) - 1))%Z
      by (apply Z.pow_le_mono_r; lia).
    assert (2 ^ Zpos (Pos.size p) <= 2 * Zpos p)%Z.
    { rewrite <- Pos2Z.inj_pow. lia. }
    assert (2 ^ Zpos (Pos.size p) = 2 * 2 ^ (Zpos (Pos.size p) - 1))%Z.
    { rewrite <- Z.pow_succ_r by lia. f_equal. lia. }
    lia.
Qed.


Lemma finishing_spec (mr : positive) (e : Z) :
  (2 ^ 52 <= Zpos mr <= 2 ^ 53)%Z -> (-1074 <= e <= 960)%Z ->
  exists mz ez,
    finishing (Zpos mr) e = SpecFloat.S754_finite false mz ez
    /\ ((Zpos mr < 2 ^ 53 /\ ez = e /\ mz = mr)
        \/ (Zpos mr = 2 ^ 53 /\ ez = e + 1 /\ 2 * Zpos mz = Zpos mr))%Z.
Proof.
  intros Hm He. unfold finishing.
  destruct (Z.eq_dec (Zpos mr) (2 ^ 53)) as [E | E].
  - assert (mr = 9007199254740992%positive).
    { change (2 ^ 53)%Z with 9007199254740992%Z in E. congruence. }
    subst mr. cbn [SpecFloat.Zdigits2 SpecFloat.digits2_pos Pos.succ].
    replace (Z.max (54 + e - 53) (3 - 1024 - 53) - e)%Z with 1%Z by lia.
    cbn. destruct (Z.leb_spec (e + 1) 971); [|lia].
    eexists _, _. split; [reflexivity|]. right. repeat split.
  - assert (Hs : Pos.size mr = 53%positive) by (apply size_bounds; lia).
    cbn [SpecFloat.Zdigits2]. rewrite digits2_size, Hs.
    replace (Z.max (53 + e - 53) (3 - 1024 - 53) - e)%Z with 0%Z by lia.
    cbn. destruct (Z.leb_spec e 971); [|lia].
    eexists _, _. split; [reflexivity|]. left. repeat split. lia.
Qed.

Lemma round_aux (q : positive) (e : Z) (lx : SpecFloat.location) :
  (2 ^ 52 <= Zpos q < 2 ^ 54)%Z -> (-1074 <= e <= 900)%Z ->
  exists mz ez c,
    SpecFloat.binary_round_aux 53 1024 false (Zpos q) e lx
    = SpecFloat.S754_finite false mz ez
    /\ ((c = 1 /\ ez = e) \/ (c = 2 /\ ez = e + 1) \/ (c = 4 /\ ez = e + 2))%Z
    /\ (2 * (Zpos q / 2) <= c * Zpos mz <= Zpos q + 1)%Z.
Proof.
  intros Hq He.
  unfold SpecFloat.binary_round_aux, SpecFloat.shr_fexp.
  cbn [SpecFloat.Zdigits2]. rewrite digits2_size.
  unfold SpecFloat.fexp, SpecFloat.emin.
  destruct (Z.lt_ge_cases (Zpos q) (2 ^ 53)) as [Hlt | Hge].
  - assert (Hs : Pos.size q = 53%positive) by (apply size_bounds; lia).
    rewrite Hs. clear Hs.
    replace (Z.max (53 + e - 53) (3 - 1024 - 53) - e)%Z with 0%Z by lia.
    cbn [SpecFloat.shr].
    set (mr := SpecFloat.round_nearest_even _ _).
    match goal with
    | |- exists mz ez c, ?lhs = _ /\ _ => change lhs with (finishing mr e)
    end.
    assert (Hmr : exists mr', mr = Zpos mr'
                  /\ (Zpos mr' = Zpos q \/ Zpos mr' = Zpos q + 1)%Z).
    { subst mr. destruct lx as [|[| |]]; cbn.
      - exists q. auto.
      - destruct q; cbn; eexists; split; try reflexivity; lia.
      - exists q. auto.
      - eexists; split; [reflexivity|]. lia. }
    destruct Hmr as [mr' [-> Hmr]].
    destruct (@finishing_spec mr' e) as [mz [ez [E Hz]]]; [lia | lia |].
    exists mz, ez.
    destruct Hz as [[_ [-> ->]] | [_ [-> Hz]]].
    + exists 1%Z. split; [exact E|]. split; [auto|]. lia.
    + exists 2%Z. split; [exact E|]. split; [auto|]. lia.
  - assert (Hs : Pos.size q = 54%positive) by (apply size_bounds; lia).
    rewrite Hs. clear Hs.
    replace (Z.max (54 + e - 53) (3 - 1024 - 53) - e)%Z with 1%Z by lia.
    cbn [SpecFloat.shr SpecFloat.iter_pos].
    set (rec := SpecFloat.shr_1 _).
    set (mr := SpecFloat.round_nearest_even _ _).
    match goal with
    | |- exists mz ez c, ?lhs = _ /\ _ =>
        change lhs with (finishing mr (e + 1))
    end.
    assert (Hmr : exists mr', mr = Zpos mr'
                  /\ (2 * (Zpos q / 2) <= 2 * Zpos mr' <= Zpos q + 1)%Z).
    { subst mr rec.
      assert (Hhalf : forall q', (Zpos q'~1 / 2 = Zpos q')%Z
                                 /\ (Zpos q'~0 / 2 = Zpos q')%Z)
        by (intros; lia).
      destruct q as [q' | q' |]; [| |lia];
        destruct (Hhalf q') as [H1 H0]; try rewrite H1; try rewrite H0;
        destruct lx as [|[| |]];
        cbn [SpecFloat.shr_1 SpecFloat.shr_record_of_loc
             SpecFloat.loc_of_shr_record SpecFloat.round_nearest_even
             SpecFloat.shr_m orb];
        try (exists q'; split; [reflexivity | lia]);
        try (exists (q' + 1)%positive; split; [reflexivity | lia]).
      match goal with
      | |- context [if ?b then _ else _] => destruct b
      end; [exists q' | exists (q' + 1)%positive];
        (split; [reflexivity | clear; lia]). }
    destruct Hmr as [mr' [-> Hmr]].
    destruct (@finishing_spec mr' (e + 1)) as [mz [ez [E Hz]]]; [lia | lia |].
    exists mz, ez.
    destruct Hz as [[_ [-> ->]] | [_ [-> Hz]]].
    + exists 2%Z. split; [exact E|]. split; [auto|]. lia.
    + exists 4%Z. split; [exact E|].
      split; [right; right; split; [reflexivity | lia]|]. lia.
Qed.

Lemma iter_xO (p d : positive) :
  Zpos (Pos.iter xO p d) = (Zpos p * 2 ^ Zpos d)%Z.
Proof.
  induction d using Pos.peano_ind.
  - cbn. lia.
  - rewrite Pos.iter_succ, Pos2Z.inj_xO, IHd, Pos2Z.inj_succ.
    rewrite Z.pow_succ_r by lia.
    lia.
Qed.

Lemma size_pow (p : positive) :
  (2 ^ (Zpos (Pos.size p) - 1) <= Zpos p < 2 ^ Zpos (Pos.size p))%Z.
Proof.
  pose proof (Pos.size_gt p) as G. pose proof (Pos.size_le p) as L.
  split.
  - assert (2 ^ Zpos (Pos.size p) = 2 * 2 ^ (Zpos (Pos.size p) - 1))%Z.
    { rewrite <- Z.pow_succ_r by lia. f_equal. lia. }
    assert (2 ^ Zpos (Pos.size p) <= 2 * Zpos p)%Z.
    { rewrite <- Pos2Z.inj_pow. lia. }
    lia.
  - rewrite <- Pos2Z.inj_pow. lia.
Qed.

Lemma size_safe (p : positive) :
  (Zpos p < 2 ^ 53)%Z -> (Zpos (Pos.size p) <= 53)%Z.
Proof.
  intros Hp. pose proof (size_pow p) as Hsz.
  destruct (Z.le_gt_cases (Zpos (Pos.size p)) 53) as [H | H]; [exact H|].
  assert (2 ^ 53 <= 2 ^ (Zpos (Pos.size p) - 1))%Z
    by (apply Z.pow_le_mono_r; lia).
  lia.
Qed.

(** The Number value for a positive integer below 2^53: the integer,
    with its mantissa shifted to 53 digits. *)
Lemma of_N_pos (p : positive) :
  (Zpos p < 2 ^ 53)%Z ->
  exists m,
    of_N (Npos p) = SpecFloat.S754_finite false m (Zpos (Pos.size p) - 53)
    /\ (2 ^ 52 <= Zpos m < 2 ^ 53)%Z
    /\ (Zpos m = Zpos p * 2 ^ (53 - Zpos (Pos.size p)))%Z.
Proof.
  intros Hp.
  pose proof (size_pow p) as Hsz.
  pose proof (size_safe p Hp) as Hs.
  unfold of_N, SpecFloat.binary_normalize. cbn [Z.of_N].
  unfold SpecFloat.binary_round.
  rewrite digits2_size.
  unfold SpecFloat.fexp, SpecFloat.emin, prec, emax.
  replace (Z.max (Z.pos (Pos.size p) + 0 - 53) (3 - 1024 - 53))%Z
    with (Z.pos (Pos.size p) - 53)%Z by lia.
  unfold SpecFloat.shl_align.
  set (sz := Pos.size p) in *.
  assert (Hm : exists m,
            (match (Z.pos sz - 53 - 0)%Z with
             | Z.neg d => (Pos.iter xO p d, (Z.pos sz - 53)%Z)
             | _ => (p, 0%Z)
             end) = (m, (Z.pos sz - 53)%Z)
            /\ (Zpos m = Zpos p * 2 ^ (53 - Zpos sz))%Z).
  { destruct (Z.pos sz - 53 - 0)%Z as [|d|d] eqn:E.
    - exists p. replace (Z.pos sz - 53)%Z with 0%Z by lia.
      split; [reflexivity|]. replace (53 - Z.pos sz)%Z with 0%Z by lia. lia.
    - lia.
    - exists (Pos.iter xO p d). split; [reflexivity|].
      rewrite iter_xO. f_equal. f_equal. lia. }
  destruct Hm as [m [-> Hm]].
  assert (Hb : (2 ^ 52 <= Zpos m < 2 ^ 53)%Z).
  { rewrite Hm.
    assert (E52 : (2 ^ 52 = 2 ^ (Zpos sz - 1) * 2 ^ (53 - Zpos sz))%Z).
    { rewrite <- Z.pow_add_r by lia. f_equal. lia. }
    assert (E53 : (2 ^ 53 = 2 ^ (Zpos sz) * 2 ^ (53 - Zpos sz))%Z).
    { rewrite <- Z.pow_add_r by lia. f_equal. lia. }
    assert (0 < 2 ^ (53 - Zpos sz))%Z by (apply Z.pow_pos_nonneg; lia).
    rewrite E52, E53. split.
    - apply Z.mul_le_mono_nonneg_r; lia.
    - apply Z.mul_lt_mono_pos_r; lia. }
  exists m. split; [|split; [exact Hb | exact Hm]].
  unfold SpecFloat.binary_round_aux, SpecFloat.shr_fexp.
  cbn [SpecFloat.Zdigits2]. rewrite digits2_size.
  rewrite (@size_bounds m 53) by lia.
  unfold SpecFloat.fexp, SpecFloat.emin.
  replace (Z.max (53 + (Z.pos sz - 53) - 53) (3 - 1024 - 53)
           - (Z.pos sz - 53))%Z
    with 0%Z by lia.
  cbn [SpecFloat.shr SpecFloat.shr_record_of_loc SpecFloat.shr_m
       SpecFloat.loc_of_shr_record SpecFloat.round_nearest_even].
  match goal with
  | |- ?lhs = _ => change lhs with (finishing (Zpos m) (Z.pos sz - 53))
  end.
  destruct (@finishing_spec m (Z.pos sz - 53)) as [mz [ez [E Hz]]];
    [lia | lia |].
  rewrite E. destruct Hz as [[_ [-> ->]] | [Hz _]]; [reflexivity | lia].
Qed.

Lemma floor_finite (m : positive) (e : Z) :
  (e <= 0)%Z ->
  Z.of_N (floor (SpecFloat.S754_finite false m e)) = (Zpos m / 2 ^ (- e))%Z.
Proof.
  intros He. destruct e as [|pe|pe]; [| lia |]; cbn [floor].
  - cbn. rewrite Z.div_1_r. reflexivity.
  - rewrite N.shiftr_div_pow2, N2Z.inj_div, N2Z.inj_pow. reflexivity.
Qed.

Lemma of_N_3600 :
  of_N 3600 = SpecFloat.S754_finite false 7916483719987200 (-41).
Proof. reflexivity. Qed.

Lemma floor_div_3600 (p : positive) :
  (Zpos p < 2 ^ 53)%Z ->
  floor (div (of_N (Npos p)) (of_N 3600)) = (Npos p / 3600)%N.
Proof.
  intros Hp. destruct (of_N_pos p Hp) as [m [Em [Hb Hm]]].
  rewrite Em, of_N_3600. unfold div, SpecFloat.SFdiv.
  unfold SpecFloat.SFdiv_core_binary.
  cbn [SpecFloat.Zdigits2]. rewrite (digits2_size m).
  rewrite (@size_bounds m 53) by lia.
  change (Z.pos (SpecFloat.digits2_pos 7916483719987200)) with 53%Z.
  unfold SpecFloat.fexp, SpecFloat.emin, prec, emax.
  set (sz := Z.pos (Pos.size p)) in *.
  assert (Hsz : (1 <= sz <= 53)%Z)
    by (subst sz; pose proof (size_safe p Hp); lia).
  replace (Z.min (Z.max (53 + (sz - 53) - (53 + -41) - 53) (3 - 1024 - 53))
             (sz - 53 - -41))%Z with (sz - 65)%Z by lia.
  replace (sz - 53 - -41 - (sz - 65))%Z with 53%Z by lia.
  cbv iota beta.
  rewrite Z.shiftl_mul_pow2 by lia.
  set (K := (2 ^ (65 - sz))%Z).
  assert (HK : (4096 <= K)%Z).
  { subst K. change 4096%Z with (2 ^ 12)%Z. apply Z.pow_le_mono_r; lia. }
  assert (HK2 : exists K', K = (2 * K')%Z).
  { exists (2 ^ (64 - sz))%Z. subst K. rewrite <- Z.pow_succ_r by lia.
    f_equal. lia. }
  assert (Hnum : (Z.pos m * 2 ^ 53 = (Z.pos p * K) * 2 ^ 41)%Z).
  { rewrite Hm. subst K.
    replace (65 - sz)%Z with ((53 - sz) + 12)%Z by lia.
    rewrite Z.pow_add_r by lia. change (2 ^ 53)%Z with (2 ^ 12 * 2 ^ 41)%Z.
    ring. }
  assert (Hq : (Z.pos m * 2 ^ 53 / 7916483719987200 = Z.pos p * K / 3600)%Z).
  { rewrite Hnum. change 7916483719987200%Z with (3600 * 2 ^ 41)%Z.
    apply Z.div_mul_cancel_r; lia. }
  destruct (Z.div_eucl (Z.pos m * 2 ^ 53) 7916483719987200) as [q r] eqn:Ediv.
  assert (Eq' : q = (Z.pos m * 2 ^ 53 / 7916483719987200)%Z).
  { unfold Z.div. rewrite Ediv. reflexivity. }
  assert (Hqb : (2 ^ 52 <= q < 2 ^ 54)%Z).
  { rewrite Eq'. clear - Hb. lia. }
  destruct q as [|q|q]; [lia | | lia].
  rewrite Hq in Eq'.
  destruct (@round_aux q (sz - 65) (SpecFloat.new_location 7916483719987200 r))
    as [mz [ez [c [E [Hc HU]]]]]; [exact Hqb | lia |].
  cbn [xorb]. rewrite E.
  apply N2Z.inj. rewrite floor_finite by lia.
  rewrite N2Z.inj_div. cbn [Z.of_N].
  set (J := (2 ^ (- ez))%Z).
  assert (HJ : (0 < J)%Z) by (subst J; apply Z.pow_pos_nonneg; lia).
  assert (HKJ : (K = c * J)%Z).
  { subst K J. destruct Hc as [[-> ->] | [[-> ->] | [-> ->]]].
    - rewrite Z.mul_1_l. f_equal. lia.
    - change 2%Z with (2 ^ 1)%Z at 2. rewrite <- Z.pow_add_r by lia.
      f_equal. lia.
    - change 4%Z with (2 ^ 2)%Z. rewrite <- Z.pow_add_r by lia. f_equal. lia. }
  assert (Hc0 : (0 < c)%Z) by lia.
  rewrite <- (Z.div_mul_cancel_l (Z.pos mz) J c) by lia.
  rewrite <- HKJ.
  set (U := (c * Z.pos mz)%Z) in *.
  symmetry. apply Z.div_unique with (r := (U - (Z.pos p / 3600) * K)%Z);
    [|ring].
  left.
  destruct HK2 as [K' HK'].
  set (Q := (Z.pos p / 3600)%Z) in *.
  assert (HQ : (3600 * Q <= Z.pos p <= 3600 * Q + 3599)%Z) by (subst Q; lia).
  assert (HA : (3600 * (Q * K) <= Z.pos p * K)%Z) by nia.
  assert (HB : (Z.pos p * K <= 3600 * (Q * K) + 3599 * K)%Z) by nia.
  assert (Heven : (Q * K = 2 * (Q * K'))%Z) by (rewrite HK'; ring).
  generalize dependent (Q * K)%Z. intros A HA HB Heven.
  generalize dependent (Z.pos p * K)%Z. intros PK Eq' _ HA HB.
  clear - HK HU Eq' HA HB Heven. lia.
Qed.

Lemma floor_of_N (n : N) : (n < 2 ^ 53)%N -> floor (of_N n) = n.
Proof.
  intros Hn. destruct n as [|p]; [reflexivity|].
  assert (Hp : (Zpos p < 2 ^ 53)%Z).
  { change (2 ^ 53)%Z with (Z.of_N (2 ^ 53)). lia. }
  destruct (of_N_pos p Hp) as [m [Em [Hb Hm]]]. rewrite Em.
  pose proof (size_pow p) as Hsz.
  pose proof (size_safe p Hp) as Hs.
  apply N2Z.inj. rewrite floor_finite by lia.
  replace (- (Z.pos (Pos.size p) - 53))%Z
    with (53 - Z.pos (Pos.size p))%Z by lia.
  rewrite Hm. cbn [Z.of_N]. apply Z.div_mul.
  apply Z.pow_nonzero; lia.
Qed.

Lemma floor_div_60 (r : N) :
  (r < 3600)%N -> floor (div (of_N r) (of_N 60)) = (r / 60)%N.
Proof.
  intros Hr.
  assert (Hall : forallb
                   (fun k => (floor (div (of_N (N.of_nat k)) (of_N 60))
                              =? N.of_nat k / 60)%N)
                   (seq 0 3600) = true) by (vm_compute; reflexivity).
  rewrite forallb_forall in Hall.
  specialize (Hall (N.to_nat r)). rewrite N2Nat.id in Hall.
  apply N.eqb_eq, Hall, in_seq. lia.
Qed.


Lemma digits_fuel_stable (f1 : nat) :
  forall f2 n, (n < 2 ^ N.of_nat (S f1))%N -> (n < 2 ^ N.of_nat (S f2))%N ->
               digits_fuel (S f1) n = digits_fuel (S f2) n.
Proof.
  induction f1 as [|f1 IH]; intros f2 n H1 H2.
  - cbn in H1. cbn [digits_fuel].
    destruct (N.ltb_spec n 10); [reflexivity | lia].
  - cbn [digits_fuel]. destruct (N.ltb_spec n 10) as [|Hge]; [reflexivity|].
    rewrite Nat2N.inj_succ, N.pow_succ_r' in H1, H2.
    destruct f2 as [|f2]; [cbn in H2; lia|].
    change (digits_fuel (S f1) (n / 10) ++ [(48 + n mod 10)%N]
            = digits_fuel (S f2) (n / 10) ++ [(48 + n mod 10)%N]).
    rewrite (IH f2 (n / 10)%N); [reflexivity | |];
      apply N.Div0.div_lt_upper_bound; lia.
Qed.

Lemma toString_unfold (n : N) :
  Js.toString n
  = if (n <? 10)%N then [(48 + n)%N]
    else Js.toString (n / 10) ++ [(48 + n mod 10)%N].
Proof.
  destruct (N.ltb_spec n 10) as [Hlt | Hge].
  - apply toString_small. exact Hlt.
  - unfold Js.toString.
    destruct (N.to_nat (N.log2 n)) as [|f] eqn:Ef.
    + assert (N.log2 n = 0%N) by lia.
      assert (N.log2 8 <= N.log2 n)%N by (apply N.log2_le_mono; lia).
      change (N.log2 8) with 3%N in *. lia.
    + change (digits_fuel (S (S f)) n)
        with (if (n <? 10)%N then [(48 + n)%N]
              else digits_fuel (S f) (n / 10) ++ [(48 + n mod 10)%N]).
      destruct (N.ltb_spec n 10); [lia|]. f_equal.
      apply digits_fuel_stable.
      * pose proof (toString_fuel n) as H1. rewrite Ef in H1.
        rewrite Nat2N.inj_succ, N.pow_succ_r' in H1.
        apply N.Div0.div_lt_upper_bound. lia.
      * apply toString_fuel.
Qed.

Lemma toString_times_10 (m : N) :
  (0 < m)%N -> Js.toString (m * 10) = Js.toString m ++ [48%N].
Proof.
  intros Hm. rewrite toString_unfold.
  destruct (N.ltb_spec (m * 10) 10); [lia|].
  rewrite N.div_mul by lia. rewrite N.Div0.mod_mul. reflexivity.
Qed.

Lemma toString_zeros (m : N) (j : nat) :
  (0 < m)%N -> Js.toString (m * 10 ^ N.of_nat j) = Js.toString m ++ repeat 48%N j.
Proof.
  intros Hm. induction j as [|j IH].
  - cbn. rewrite N.mul_1_r, app_nil_r. reflexivity.
  - rewrite Nat2N.inj_succ, N.pow_succ_r', (N.mul_comm 10), N.mul_assoc.
    rewrite toString_times_10.
    + rewrite IH, <- app_assoc. f_equal.
      change [48%N] with (repeat 48%N 1). rewrite <- repeat_app.
      f_equal. lia.
    + assert (0 < 10 ^ N.of_nat j)%N
        by (apply N.neq_0_lt_0, N.pow_nonzero; lia).
      lia.
Qed.

Lemma toString_length (n : N) :
  (0 < n)%N ->
  (10 ^ N.of_nat (length (Js.toString n) - 1) <= n
   < 10 ^ N.of_nat (length (Js.toString n)))%N.
Proof.
  induction n as [n IH] using (well_founded_induction N.lt_wf_0).
  intros Hn. rewrite toString_unfold.
  destruct (N.ltb_spec n 10) as [Hlt | Hge].
  - cbn. lia.
  - assert (Hq : (0 < n / 10 < n)%N) by lia.
    destruct (IH (n / 10)%N (proj2 Hq) (proj1 Hq)) as [H1 H2].
    rewrite length_app. cbn [length].
    replace (length (Js.toString (n / 10)) + 1 - 1)%nat
      with (S (length (Js.toString (n / 10)) - 1))%nat.
    2:{ pose proof (@toString_nonempty (n / 10)%N).
        destruct (Js.toString (n / 10)); [congruence | cbn; lia]. }
    replace (length (Js.toString (n / 10)) + 1)%nat
      with (S (length (Js.toString (n / 10)))) by lia.
    rewrite !Nat2N.inj_succ, !N.pow_succ_r'. lia.
Qed.

Section Shortest.
Variables (x : N) (d : nat).
Hypothesis x_small : (x < 2 ^ 49)%N.
Hypothesis x_digits : (10 ^ N.of_nat (d - 1) <= x < 10 ^ N.of_nat d)%N.
Hypothesis d_pos : (1 <= d)%nat.

Lemma pow10_split (a b : nat) :
  (10 ^ N.of_nat (a + b) = 10 ^ N.of_nat a * 10 ^ N.of_nat b)%N.
Proof. rewrite Nat2N.inj_add, N.pow_add_r. reflexivity. Qed.

Lemma pow10_pos (a : nat) : (0 < 10 ^ N.of_nat a)%N.
Proof. apply N.neq_0_lt_0, N.pow_nonzero. lia. Qed.

Lemma candidates_next (k : nat) :
  (1 <= k)%nat -> candidates x k (S d) = [].
Proof.
  intros Hk. unfold candidates.
  destruct (Nat.ltb_spec (S d) k) as [|Hle]; [reflexivity|].
  set (P := (10 ^ N.of_nat (S d - k))%N).
  set (L := (10 ^ N.of_nat (k - 1))%N).
  assert (HLP : (L * P = 10 ^ N.of_nat d)%N).
  { subst L P. rewrite <- pow10_split. f_equal. f_equal. lia. }
  assert (HT : (10 ^ N.of_nat d = 10 * 10 ^ N.of_nat (d - 1))%N).
  { rewrite <- N.pow_succ_r'. f_equal. lia. }
  assert (HP : (0 < P)%N) by apply pow10_pos.
  assert (HL : (0 < L)%N) by apply pow10_pos.
  assert (Hfilter : forall s,
             (s * P <= x + P)%N ->
             (L <=? s)%N && (s <? 10 ^ N.of_nat k)%N
             && (floor (of_N (s * P)) =? x)%N = false).
  { intros s Hs.
    destruct (N.leb_spec L s) as [HLs|]; [|reflexivity].
    rewrite andb_comm. apply andb_false_intro1.
    apply N.eqb_neq.
    assert (L * P <= s * P)%N by (apply N.mul_le_mono_r; exact HLs).
    assert (P <= L * P)%N by nia.
    rewrite floor_of_N; lia. }
  cbn [filter fst].
  rewrite !Hfilter; [reflexivity | |].
  - pose proof (N.Div0.div_mod x P). nia.
  - pose proof (N.Div0.mul_div_le x P). lia.
Qed.

Lemma candidates_same (k : nat) :
  (1 <= k <= d)%nat ->
  candidates x k d
  = if (x mod 10 ^ N.of_nat (d - k) =? 0)%N
    then [((x / 10 ^ N.of_nat (d - k))%N, d)] else [].
Proof.
  intros Hk. unfold candidates.
  destruct (Nat.ltb_spec d k) as [|Hle]; [lia|].
  set (P := (10 ^ N.of_nat (d - k))%N).
  set (L := (10 ^ N.of_nat (k - 1))%N).
  assert (HLP : (L * P = 10 ^ N.of_nat (d - 1))%N).
  { subst L P. rewrite <- pow10_split. f_equal. f_equal. lia. }
  assert (HT : (10 ^ N.of_nat d = 10 * 10 ^ N.of_nat (d - 1))%N).
  { rewrite <- N.pow_succ_r'. f_equal. lia. }
  assert (HK : (10 ^ N.of_nat k = 10 * L)%N).
  { subst L. rewrite <- N.pow_succ_r'. f_equal. lia. }
  assert (HP : (0 < P)%N) by apply pow10_pos.
  assert (HL : (0 < L)%N) by apply pow10_pos.
  pose proof (N.Div0.div_mod x P) as Hdm.
  pose proof (N.mod_lt x P ltac:(lia)) as Hmod.
  assert (HPx : (P <= x)%N) by nia.
  cbn [filter fst].
  assert (H1 : (L <=? x / P)%N = true).
  { apply N.leb_le. apply N.div_le_lower_bound; lia. }
  assert (H2 : (x / P <? 10 ^ N.of_nat k)%N = true).
  { apply N.ltb_lt. apply N.Div0.div_lt_upper_bound. rewrite HK. nia. }
  rewrite H1, H2. cbn [andb].
  rewrite (floor_of_N (x / P * P)) by nia.
  rewrite (floor_of_N ((x / P + 1) * P)) by nia.
  assert (H3 : ((x / P + 1) * P =? x)%N = false) by (apply N.eqb_neq; nia).
  rewrite H3, andb_false_r.
  destruct (N.eqb_spec (x mod P) 0) as [E | E].
  - assert (E' : (x / P * P =? x)%N = true) by (apply N.eqb_eq; nia).
    rewrite E'. reflexivity.
  - assert (E' : (x / P * P =? x)%N = false) by (apply N.eqb_neq; nia).
    rewrite E'. reflexivity.
Qed.

Lemma shortest_spec (fuel : nat) :
  forall k, (1 <= k <= d)%nat -> fuel = (d + 1 - k)%nat ->
  exists s k', shortest fuel x d k = (s, d, k')
               /\ (k' <= d)%nat /\ (0 < s)%N
               /\ (s * 10 ^ N.of_nat (d - k') = x)%N.
Proof.
  induction fuel as [|fuel IH]; intros k Hk Hf; [lia|].
  cbn [shortest]. rewrite candidates_next, app_nil_r by lia.
  rewrite candidates_same by lia.
  set (P := (10 ^ N.of_nat (d - k))%N).
  assert (HP : (0 < P)%N) by apply pow10_pos.
  pose proof (N.Div0.div_mod x P) as Hdm.
  destruct (N.eqb_spec (x mod P) 0) as [E | E].
  - exists (x / P)%N, k. cbn. split; [reflexivity|]. split; [lia|].
    fold P. assert (0 < x)%N by (pose proof (pow10_pos (d - 1)); lia).
    split; nia.
  - assert (k <> d).
    { intros ->. subst P. rewrite Nat.sub_diag in E. cbn in E.
      rewrite N.mod_1_r in E. congruence. }
    apply IH; lia.
Qed.

End Shortest.

Lemma toString_Number (x : N) :
  (x < 2 ^ 49)%N -> Binary64.toString x = Js.toString x.
Proof.
  intros Hx. unfold Binary64.toString.
  destruct (N.eqb_spec x 0) as [-> | Hne]; [reflexivity|].
  assert (Hpos : (0 < x)%N) by lia.
  pose proof (toString_length x Hpos) as Hlen.
  set (d := length (Js.toString x)) in *.
  assert (Hd : (1 <= d)%nat).
  { subst d. pose proof (@toString_nonempty x).
    destruct (Js.toString x); [congruence | cbn; lia]. }
  destruct (@shortest_spec x d Hx Hlen Hd d 1%nat)
    as [s [k' [E [Hk [Hs Hx']]]]]; [lia | lia |].
  rewrite E.
  assert (Hd21 : (d <= 21)%nat).
  { destruct (Nat.le_gt_cases d 21) as [H | H]; [exact H|].
    assert (10 ^ 21 <= 10 ^ N.of_nat (d - 1))%N.
    { apply N.pow_le_mono_r; lia. }
    assert (2 ^ 49 < 10 ^ 21)%N by (vm_compute; reflexivity).
    lia. }
  destruct (Nat.leb_spec d 21); [|lia].
  rewrite <- toString_zeros by exact Hs. rewrite Hx'. reflexivity.
Qed.

Lemma formatTime_Number (s : N) :
  (s < 2 ^ 53)%N ->
  Binary64.formatTime (of_N s) = Meeting.formatTime s.
Proof.
  intros Hs. unfold Binary64.formatTime, Meeting.formatTime, rem.
  rewrite (floor_of_N s Hs).
  assert (Hh : floor (div (of_N s) (of_N 3600)) = (s / 3600)%N).
  { destruct s as [|p]; [reflexivity|]. apply floor_div_3600.
    change (2 ^ 53)%Z with (Z.of_N (2 ^ 53)). lia. }
  rewrite Hh, floor_div_60 by lia.
  assert (H49 : (2 ^ 53 = 16 * 2 ^ 49)%N) by reflexivity.
  rewrite !toString_Number; [reflexivity | | |]; lia.
Qed.

End Numbers.

(** ** The time formatter *)
Section FormatTime.

Lemma formatTime_same (s : N) : App.formatTime s = Meeting.formatTime s.
Proof. reflexivity. Qed.

(** C9, for the integers that Numbers count exactly. For every number of
    seconds [s] below 2^53, [formatTime] on the Number [s] returns
    [hh:mm:ss] where [hh] is the decimal numeral of [floor(s/3600)] (at
    least two digits), [mm] and [ss] are exactly two digits denoting
    [floor((s mod 3600)/60)] and [s mod 60], both below 60, and
    hours*3600 + minutes*60 + seconds = s. Both copies of the function
    are the same, and on these numbers the exact arithmetic of
    [Meeting.formatTime] and [App.formatTime] gives what the arithmetic
    on Numbers gives. *)
Theorem formatTime_hms (s : N) :
  (s < 2 ^ 53)%N ->
  let hours := (s / 3600)%N in
  let minutes := ((s mod 3600) / 60)%N in
  let secs := (s mod 60)%N in
  exists hh m1 m2 s1 s2,
    Binary64.formatTime (Binary64.of_N s)
    = hh ++ lit ":" ++ [m1; m2] ++ lit ":" ++ [s1; s2]
    /\ Binary64.isNumber s = true
    /\ Meeting.formatTime s = Binary64.formatTime (Binary64.of_N s)
    /\ App.formatTime s = Meeting.formatTime s
    /\ Forall (fun c => is_digit c = true) (hh ++ [m1; m2; s1; s2])
    /\ (2 <= length hh)%nat
    /\ parse_dec hh = hours
    /\ parse_dec [m1; m2] = minutes
    /\ parse_dec [s1; s2] = secs
    /\ (minutes < 60)%N /\ (secs < 60)%N
    /\ (hours * 3600 + minutes * 60 + secs = s)%N.
Proof.
  intros Hsafe hours minutes secs.
  assert (Hm : (minutes < 60)%N) by (subst minutes; lia).
  assert (Hs : (secs < 60)%N) by (subst secs; lia).
  destruct (pad2_parse hours) as [Hh1 [Hh2 Hh3]].
  destruct (pad2_parse minutes) as [Hm1 [Hm2 _]].
  destruct (pad2_parse secs) as [Hs1 [Hs2 _]].
  rewrite (pad2_below_100 (n := minutes)) in Hm1, Hm2 by lia.
  rewrite (pad2_below_100 (n := secs)) in Hs1, Hs2 by lia.
  exists (padStart 2 (lit "0") (toString hours)),
    (48 + minutes / 10)%N, (48 + minutes mod 10)%N,
    (48 + secs / 10)%N, (48 + secs mod 10)%N.
  rewrite (formatTime_Number s Hsafe).
  split; [|split; [|split; [reflexivity | split; [reflexivity|]]]].
  - unfold Meeting.formatTime. fold hours minutes secs.
    rewrite (pad2_below_100 (n := minutes)), (pad2_below_100 (n := secs))
      by lia.
    reflexivity.
  - unfold Binary64.isNumber. rewrite (floor_of_N s Hsafe).
    apply N.eqb_refl.
  - split.
    { apply Forall_app. split; [exact Hh2|].
      inversion Hm2 as [|? ? A1 A2]; subst.
      inversion A2 as [|? ? A3 _]; subst.
      inversion Hs2 as [|? ? B1 B2]; subst.
      inversion B2 as [|? ? B3 _]; subst.
      repeat constructor; assumption. }
    repeat split; try assumption.
    subst hours minutes secs. lia.
Qed.

Lemma formatTime_hms_witness :
  exists hh m1 m2 s1 s2,
    Binary64.formatTime (Binary64.of_N 9007199254740991)
    = hh ++ lit ":" ++ [m1; m2] ++ lit ":" ++ [s1; s2]
    /\ Binary64.isNumber 9007199254740991 = true
    /\ Meeting.formatTime 9007199254740991
       = Binary64.formatTime (Binary64.of_N 9007199254740991)
    /\ App.formatTime 9007199254740991 = Meeting.formatTime 9007199254740991
    /\ Forall (fun c => is_digit c = true) (hh ++ [m1; m2; s1; s2])
    /\ (2 <= length hh)%nat
    /\ parse_dec hh = (9007199254740991 / 3600)%N
    /\ parse_dec [m1; m2] = ((9007199254740991 mod 3600) / 60)%N
    /\ parse_dec [s1; s2] = (9007199254740991 mod 60)%N
    /\ ((9007199254740991 mod 3600) / 60 < 60)%N
    /\ (9007199254740991 mod 60 < 60)%N
    /\ (9007199254740991 / 3600 * 3600
        + (9007199254740991 mod 3600) / 60 * 60
        + 9007199254740991 mod 60 = 9007199254740991)%N.
Proof.
  apply (@formatTime_hms 9007199254740991). reflexivity.
Defined.

(** C9 as worded fails on large numbers of seconds. 10^21 is a Number;
    the quotient 10^21 / 3600 is rounded to the Number
    277777777777777792, which [toString] prints as 277777777777777800,
    while [floor(10^21 / 3600)] is 277777777777777777; minutes and
    seconds are exact, so the three fields do not add up to the
    argument. *)
Lemma formatTime_hms_fails_at_1e21 :
  Binary64.isNumber (10 ^ 21) = true
  /\ Binary64.formatTime (Binary64.of_N (10 ^ 21))
     = lit "277777777777777800:46:40"
  /\ Binary64.floor (Binary64.div (Binary64.of_N (10 ^ 21))
                       (Binary64.of_N 3600))
     = 277777777777777792%N
  /\ (10 ^ 21 / 3600 = 277777777777777777)%N
  /\ (277777777777777800 * 3600 + 46 * 60 + 40 <> 10 ^ 21)%N
  /\ (277777777777777792 * 3600 + 46 * 60 + 40 <> 10 ^ 21)%N.
Proof.
  split; [vm_compute; reflexivity|].
  split; [vm_compute; reflexivity|].
  split; [vm_compute; reflexivity|].
  split; [vm_compute; reflexivity|].
  split; vm_compute; discriminate.
Qed.

End FormatTime.

(** ** The busy state of a submit button *)
Section SubmitButton.
Import App ButtonRuns.

(** *** The button in the page *)

Lemma idle_loaded (label : str) : idle label (loaded label).
Proof. split; reflexivity. Qed.

Lemma userClick_idle (label : str) (w : ButtonWorld) :
  idle label w -> busyUntil label (now w + 3000) (userClick w).
Proof.
  intros [Hb Hq]. unfold userClick, click. rewrite Hb, Hq. cbn.
  unfold busyUntil. cbn. repeat split; lia.
Qed.

Lemma userClick_busy (label : str) (d : N) (w : ButtonWorld) :
  busyUntil label d w -> userClick w = w.
Proof. intros [Hb _]. unfold userClick. rewrite Hb. reflexivity. Qed.

Lemma advance_idle (label : str) (t : N) (w : ButtonWorld) :
  idle label w -> idle label (advance t w).
Proof.
  intros [Hb Hq]. unfold advance, idle. cbn. rewrite Hq. cbn. auto.
Qed.

Lemma advance_busy_before (label : str) (d t : N) (w : ButtonWorld) :
  busyUntil label d w -> (t < d)%N -> busyUntil label d (advance t w).
Proof.
  intros [Hb [Hq [H1 H2]]] Ht. unfold advance, busyUntil. cbn.
  rewrite Hq. cbn.
  destruct (N.leb_spec d t); [lia|].
  destruct (N.ltb_spec t d); [|lia].
  repeat split; try assumption; lia.
Qed.

Lemma advance_busy_after (label : str) (d t : N) (w : ButtonWorld) :
  busyUntil label d w -> (d <= t)%N -> idle label (advance t w).
Proof.
  intros [Hb [Hq _]] Ht. unfold advance, idle. cbn. rewrite Hq. cbn.
  destruct (N.leb_spec d t); [|lia].
  destruct (N.ltb_spec t d); [lia|].
  split; reflexivity.
Qed.

Lemma PageState_handlePage (label : str) (w : ButtonWorld)
    (e : ButtonEvent) :
  PageState label w -> PageState label (handlePage w e).
Proof.
  intros [Hi | [d Hb]]; destruct e as [|t]; cbn [handlePage].
  - right. exists (now w + 3000)%N. apply userClick_idle, Hi.
  - left. apply advance_idle, Hi.
  - right. exists d. rewrite (userClick_busy Hb). exact Hb.
  - destruct (N.lt_ge_cases t d) as [Ht | Ht].
    + right. exists d. apply advance_busy_before; assumption.
    + left. apply (advance_busy_after Hb Ht).
Qed.

Lemma PageState_runPage (label : str) (events : list ButtonEvent) :
  forall w, PageState label w -> PageState label (runPage events w).
Proof.
  induction events as [|e events IH]; intros w H; [exact H|].
  apply IH, PageState_handlePage, H.
Qed.




End SubmitButton.

(** ** [trim] *)
Section Trim.

Lemma trimStart_spec (s : str) :
  exists l, s = l ++ trimStart s
            /\ forallb is_ws l = true
            /\ match trimStart s with
               | [] => True
               | c :: _ => is_ws c = false
               end.
Proof.
  induction s as [|c s IH].
  - exists []. simpl. auto.
  - simpl. destruct (is_ws c) eqn:E.
    + destruct IH as [l [H1 [H2 H3]]]. exists (c :: l). simpl.
      rewrite E, H2. split; [f_equal; exact H1 | auto].
    + exists []. simpl. auto.
Qed.

Lemma trimStart_nil_iff (s : str) :
  trimStart s = [] <-> forallb is_ws s = true.
Proof.
  induction s as [|c s IH]; simpl.
  - tauto.
  - destruct (is_ws c); simpl.
    + exact IH.
    + split; discriminate.
Qed.

Lemma forallb_rev (f : char -> bool) (s : str) :
  forallb f (rev s) = forallb f s.
Proof.
  induction s as [|c s IH]; simpl; [reflexivity|].
  rewrite forallb_app, IH. simpl. rewrite andb_true_r. apply andb_comm.
Qed.

Lemma trimEnd_spec (s : str) :
  exists r, s = trimEnd s ++ r
            /\ forallb is_ws r = true
            /\ match rev (trimEnd s) with
               | [] => True
               | c :: _ => is_ws c = false
               end.
Proof.
  unfold trimEnd. destruct (trimStart_spec (rev s)) as [l [H1 [H2 H3]]].
  exists (rev l). rewrite rev_involutive. split; [|split].
  - rewrite <- rev_app_distr, <- H1, rev_involutive. reflexivity.
  - rewrite forallb_rev. exact H2.
  - exact H3.
Qed.

Lemma trimEnd_nil_iff (s : str) :
  trimEnd s = [] <-> forallb is_ws s = true.
Proof.
  unfold trimEnd. rewrite <- (forallb_rev is_ws s), <- trimStart_nil_iff.
  split; intros H.
  - apply (f_equal (@rev char)) in H. rewrite rev_involutive in H. exact H.
  - rewrite H. reflexivity.
Qed.

(** [trim] returns the empty string exactly on blank input. *)
Lemma trim_nil_iff (s : str) : trim s = [] <-> forallb is_ws s = true.
Proof.
  unfold trim. rewrite trimEnd_nil_iff. split; intros H.
  - destruct (trimStart_spec s) as [l [H1 [H2 _]]].
    rewrite H1, forallb_app, H2, H. reflexivity.
  - destruct (trimStart_spec s) as [l [H1 [H2 _]]].
    rewrite H1, forallb_app in H. apply andb_true_iff in H. tauto.
Qed.

(** [trim] cuts blanks off both ends and nothing else. *)
Lemma trim_spec (s : str) :
  exists l r, s = l ++ trim s ++ r
              /\ forallb is_ws l = true /\ forallb is_ws r = true
              /\ match trim s with
                 | [] => True
                 | c :: _ => is_ws c = false
                 end
              /\ match rev (trim s) with
                 | [] => True
                 | c :: _ => is_ws c = false
                 end.
Proof.
  unfold trim.
  destruct (trimStart_spec s) as [l [H1 [H2 H3]]].
  destruct (trimEnd_spec (trimStart s)) as [r [K1 [K2 K3]]].
  exists l, r. split; [|split; [|split; [|split]]]; auto.
  - rewrite <- K1. exact H1.
  - destruct (trimEnd (trimStart s)) as [|c t] eqn:E; [exact I|].
    rewrite K1 in H3. exact H3.
Qed.

End Trim.

(** ** Sending a chat message *)
Section SendMessage.
Import Meeting Vocabulary.

(** C8. On an input that is empty or all blanks [sendMessage] returns
    with the state as it was: nothing is emitted and the input box keeps
    its value. On any other input it returns, still within the call,
    having emitted exactly one [send_message] with the meeting id and the
    trimmed text, and with the input box empty; nothing else changed.
    The trimmed text is the input without the blanks at its two ends: the
    input is [l ++ message ++ r] with [l] and [r] all blanks and
    [message] starting and ending with a character that is not blank. *)
Theorem sendMessage_behaviour (st : State) (sk : Socket) :
  socket (this st) = Some sk ->
  let input := messageInput (document st) in
  (forallb is_ws input = true -> sendMessage st = Returned st)
  /\ (forallb is_ws input = false ->
      exists l message r,
        input = l ++ message ++ r
        /\ forallb is_ws l = true /\ forallb is_ws r = true
        /\ (exists c rest, message = c :: rest /\ is_ws c = false)
        /\ (exists rest c, message = rest ++ [c] /\ is_ws c = false)
        /\ sendMessage st =
           Returned
             {| this :=
                  set_socket
                    (Some (sk ++ [send_message (meetingId (config (this st)))
                                    message]))
                    (this st);
                document := set_messageInput [] (document st) |}).
Proof.
  intros Hsk input. split; intros Hin.
  - unfold sendMessage. fold input.
    apply trim_nil_iff in Hin. rewrite Hin. reflexivity.
  - assert (Hne : trim input <> []).
    { intros E. apply trim_nil_iff in E. congruence. }
    destruct (trim_spec input) as [l [r [Hsplit [Hl [Hr [Hfirst Hlast]]]]]].
    exists l, (trim input), r.
    split; [exact Hsplit|]. split; [exact Hl|]. split; [exact Hr|].
    split; [|split].
    + destruct (trim input) as [|c rest]; [congruence|].
      exists c, rest. split; [reflexivity | exact Hfirst].
    + destruct (rev (trim input)) as [|c rest] eqn:E.
      * apply (f_equal (@rev char)) in E. rewrite rev_involutive in E.
        cbn in E. congruence.
      * exists (rev rest), c. split; [|exact Hlast].
        apply (f_equal (@rev char)) in E. rewrite rev_involutive in E.
        exact E.
    + unfold sendMessage. fold input.
      destruct (trim input) as [|c t] eqn:E; [congruence|].
      unfold emit. rewrite Hsk. reflexivity.
Qed.

End SendMessage.

Section SendMessageWitness.
Import Meeting Vocabulary Scenario.

Lemma sendMessage_behaviour_witness :
  sendMessage (typed (lit "   ") live) = Returned (typed (lit "   ") live)
  /\ (exists l message r,
        lit "  hi there " = l ++ message ++ r
        /\ forallb is_ws l = true /\ forallb is_ws r = true
        /\ (exists c rest, message = c :: rest /\ is_ws c = false)
        /\ (exists rest c, message = rest ++ [c] /\ is_ws c = false)
        /\ sendMessage (typed (lit "  hi there ") live) =
           Returned
             {| this :=
                  set_socket
                    (Some ([join_meeting (VStr (lit "123-456-7890"))]
                             ++ [send_message (VStr (lit "123-456-7890"))
                                   message]))
                    (this live);
                document := set_messageInput [] (document live) |}).
Proof.
  split.
  - apply (proj1 (@sendMessage_behaviour (typed (lit "   ") live)
                    [join_meeting (VStr (lit "123-456-7890"))] eq_refl)).
    reflexivity.
  - apply (proj2 (@sendMessage_behaviour (typed (lit "  hi there ") live)
                    [join_meeting (VStr (lit "123-456-7890"))] eq_refl)).
    reflexivity.
Defined.

End SendMessageWitness.

(** ** Camera and microphone toggles *)
Section Toggles.
Import Meeting Vocabulary.

Lemma set_enabled_kind (v : bool) (t : MediaStreamTrack) :
  kind (set_enabled v t) = kind t.
Proof. reflexivity. Qed.

Lemma audio_not_video (t : MediaStreamTrack) : is_audio t = negb (is_video t).
Proof. unfold is_audio, is_video. destruct (kind t); reflexivity. Qed.

Section AssignFirst.
Variables (p other : MediaStreamTrack -> bool) (v : bool).
Hypothesis p_kind : forall t, p (set_enabled v t) = p t.
Hypothesis other_kind : forall t, other (set_enabled v t) = other t.
Hypothesis apart : forall t, p t = true -> other t = false.

(** Of the tracks of the kind, the first is assigned and the rest kept. *)
Lemma assign_first_same (s : MediaStream) :
  filter p (assign_first p (set_enabled v) s)
  = match filter p s with
    | [] => []
    | t :: r => set_enabled v t :: r
    end.
Proof.
  induction s as [|t s IH]; simpl; [reflexivity|].
  destruct (p t) eqn:E; simpl.
  - rewrite p_kind, E. reflexivity.
  - rewrite E. exact IH.
Qed.

(** The tracks of the other kind are untouched. *)
Lemma assign_first_other (s : MediaStream) :
  filter other (assign_first p (set_enabled v) s) = filter other s.
Proof.
  induction s as [|t s IH]; simpl; [reflexivity|].
  destruct (p t) eqn:E; simpl.
  - rewrite other_kind, (@apart t E). reflexivity.
  - rewrite IH. reflexivity.
Qed.

(** Position by position: kinds and stop counts stay, and a track that is
    not of the kind is the same track as before. *)
Lemma assign_first_frame (s : MediaStream) :
  Forall2 (fun t t' => kind t' = kind t /\ stopCalls t' = stopCalls t
                       /\ (p t = false -> t' = t))
          s (assign_first p (set_enabled v) s).
Proof.
  induction s as [|t s IH]; simpl; [constructor|].
  destruct (p t) eqn:E.
  - constructor.
    + repeat split. intros H. congruence.
    + clear IH. induction s; constructor; auto.
  - constructor; [auto | exact IH].
Qed.

Lemma assign_first_all (s : MediaStream) :
  (length (filter p s) <= 1)%nat ->
  Forall (fun t => enabled t = v) (filter p (assign_first p (set_enabled v) s)).
Proof.
  intros H. rewrite assign_first_same.
  destruct (filter p s) as [|t [|t' r]]; simpl in H.
  - constructor.
  - repeat constructor.
  - lia.
Qed.

(** With at most one track of the kind, every track of the kind is
    assigned. *)
Lemma assign_first_only (s : MediaStream) :
  (length (filter p s) <= 1)%nat ->
  Forall2 (fun t t' => kind t' = kind t /\ stopCalls t' = stopCalls t
                       /\ (p t = true -> enabled t' = v)
                       /\ (p t = false -> t' = t))
          s (assign_first p (set_enabled v) s).
Proof.
  induction s as [|t s IH]; simpl; [constructor|].
  destruct (p t) eqn:E; simpl; intros H.
  - constructor.
    + repeat split. intros H'. congruence.
    + assert (Hnone : filter p s = []).
      { destruct (filter p s); [reflexivity | simpl in H; lia]. }
      clear IH H. induction s as [|a s IHs]; [constructor|].
      simpl in Hnone. destruct (p a) eqn:Ea; [discriminate|].
      constructor; [|exact (IHs Hnone)].
      repeat split. intros H'. congruence.
  - constructor; [|exact (IH H)].
    repeat split. intros H'. congruence.
Qed.

End AssignFirst.

Lemma updateControlButtons_this (st : State) :
  this (updateControlButtons st) = this st.
Proof.
  unfold updateControlButtons.
  destruct (cameraBtn (document st)); cbn.
  - destruct (micBtn _); reflexivity.
  - destruct (micBtn (document st)); reflexivity.
Qed.

(** The end of both toggles: emit, then notify. Apart from the socket
    the controller is as it was before the [emit]. *)
Lemma emit_then_notify (e : Emitted) (msg : State -> str) (ty : str)
    (st : State) :
  let st' :=
    stateOf (andThen (emit e st)
               (fun st => Returned (showNotification (msg st) ty st))) in
  localStream (this st') = localStream (this st)
  /\ isCameraOn (this st') = isCameraOn (this st)
  /\ isMicrophoneOn (this st') = isMicrophoneOn (this st).
Proof.
  unfold emit. destruct (socket (this st)); cbn; auto.
Qed.

(** What the two toggles do to the local stream and to the flags,
    whichever way the call ends. *)
Lemma toggleCamera_stream (st : State) (stream : MediaStream) :
  localStream (this st) = Some stream ->
  localStream (this (stateOf (toggleCamera st)))
    = Some (assign_first is_video
              (set_enabled (negb (isCameraOn (this st)))) stream)
  /\ isCameraOn (this (stateOf (toggleCamera st)))
     = negb (isCameraOn (this st))
  /\ isMicrophoneOn (this (stateOf (toggleCamera st)))
     = isMicrophoneOn (this st).
Proof.
  intros Hs. unfold toggleCamera. rewrite Hs.
  match goal with
  | |- context [andThen (emit ?e ?st1) (fun st => Returned
                  (showNotification (@?m st) ?ty st))] =>
      destruct (emit_then_notify e m ty st1) as [H1 [H2 H3]]
  end.
  rewrite H1, H2, H3, !updateControlButtons_this. cbn. auto.
Qed.

Lemma toggleMicrophone_stream (st : State) (stream : MediaStream) :
  localStream (this st) = Some stream ->
  localStream (this (stateOf (toggleMicrophone st)))
    = Some (assign_first is_audio
              (set_enabled (negb (isMicrophoneOn (this st)))) stream)
  /\ isMicrophoneOn (this (stateOf (toggleMicrophone st)))
     = negb (isMicrophoneOn (this st))
  /\ isCameraOn (this (stateOf (toggleMicrophone st)))
     = isCameraOn (this st).
Proof.
  intros Hs. unfold toggleMicrophone. rewrite Hs.
  match goal with
  | |- context [andThen (emit ?e ?st1) (fun st => Returned
                  (showNotification (@?m st) ?ty st))] =>
      destruct (emit_then_notify e m ty st1) as [H1 [H2 H3]]
  end.
  rewrite H1, H2, H3, !updateControlButtons_this. cbn. auto.
Qed.

(** With a socket the toggles return. *)
Lemma toggleCamera_returns (st : State) (stream : MediaStream) (sk : Socket) :
  localStream (this st) = Some stream -> socket (this st) = Some sk ->
  exists st', toggleCamera st = Returned st'
              /\ socket (this st')
                 = Some (sk ++ [toggle_camera (meetingId (config (this st)))
                                  (negb (isCameraOn (this st)))]).
Proof.
  intros Hs Hk. unfold toggleCamera. rewrite Hs. unfold emit.
  rewrite !updateControlButtons_this. cbn. rewrite Hk. cbn.
  eexists. split; [reflexivity|]. reflexivity.
Qed.

Lemma toggleMicrophone_returns (st : State) (stream : MediaStream)
    (sk : Socket) :
  localStream (this st) = Some stream -> socket (this st) = Some sk ->
  exists st', toggleMicrophone st = Returned st'
              /\ socket (this st')
                 = Some (sk ++ [toggle_microphone
                                  (meetingId (config (this st)))
                                  (negb (isMicrophoneOn (this st)))]).
Proof.
  intros Hs Hk. unfold toggleMicrophone. rewrite Hs. unfold emit.
  rewrite !updateControlButtons_this. cbn. rewrite Hk. cbn.
  eexists. split; [reflexivity|]. reflexivity.
Qed.

(** C5. On a local stream as the camera request yields it (at most one
    track of a kind), [toggleCamera] with the camera on leaves the flag
    off, every video track of the stream disabled and every audio track
    as it was. Track by track: a video track ends with [enabled] false,
    any other track is the same track as before, and no track is added,
    removed or stopped. [toggleMicrophone] with the microphone on does
    the same with the kinds exchanged. *)
Theorem toggle_off_disables_kind (st : State) (stream : MediaStream) :
  localStream (this st) = Some stream ->
  captured stream ->
  (isCameraOn (this st) = true ->
   exists stream',
     localStream (this (stateOf (toggleCamera st))) = Some stream'
     /\ isCameraOn (this (stateOf (toggleCamera st))) = false
     /\ Forall (fun t => enabled t = false) (getVideoTracks stream')
     /\ getAudioTracks stream' = getAudioTracks stream
     /\ Forall2 (fun t t' => kind t' = kind t /\ stopCalls t' = stopCalls t
                             /\ (is_video t = true -> enabled t' = false)
                             /\ (is_video t = false -> t' = t))
                stream stream')
  /\ (isMicrophoneOn (this st) = true ->
      exists stream',
        localStream (this (stateOf (toggleMicrophone st))) = Some stream'
        /\ isMicrophoneOn (this (stateOf (toggleMicrophone st))) = false
        /\ Forall (fun t => enabled t = false) (getAudioTracks stream')
        /\ getVideoTracks stream' = getVideoTracks stream
        /\ Forall2 (fun t t' => kind t' = kind t /\ stopCalls t' = stopCalls t
                                /\ (is_audio t = true -> enabled t' = false)
                                /\ (is_audio t = false -> t' = t))
                   stream stream').
Proof.
  intros Hs [Hv Ha]. split; intros Hon.
  - destruct (toggleCamera_stream st Hs) as [H [Hflag _]].
    rewrite Hon in H, Hflag.
    eexists. split; [exact H|]. split; [exact Hflag|].
    unfold getVideoTracks, getAudioTracks.
    split; [|split].
    + apply assign_first_all; [reflexivity | exact Hv].
    + apply assign_first_other; [reflexivity|].
      intros t Ht. rewrite audio_not_video, Ht. reflexivity.
    + apply assign_first_only. exact Hv.
  - destruct (toggleMicrophone_stream st Hs) as [H [Hflag _]].
    rewrite Hon in H, Hflag.
    eexists. split; [exact H|]. split; [exact Hflag|].
    unfold getVideoTracks, getAudioTracks.
    split; [|split].
    + apply assign_first_all; [reflexivity | exact Ha].
    + apply assign_first_other; [reflexivity|].
      intros t Ht. rewrite audio_not_video in Ht.
      destruct (is_video t); [discriminate | reflexivity].
    + apply assign_first_only. exact Ha.
Qed.

(** C10. Without a local stream each toggle returns having shown its
    notice and nothing more: the controller, with both flags and the
    socket (so no event was emitted), is the one before the call. *)
Theorem toggle_without_stream (st : State) :
  localStream (this st) = None ->
  (exists st',
     toggleCamera st = Returned st'
     /\ this st' = this st
     /\ isCameraOn (this st') = isCameraOn (this st)
     /\ isMicrophoneOn (this st') = isMicrophoneOn (this st)
     /\ socket (this st') = socket (this st)
     /\ document st'
        = set_alerts
            (alerts (document st)
               ++ [{| alertMessage := lit "Camera not available";
                      alertType := lit "error" |}])
            (document st))
  /\ (exists st',
        toggleMicrophone st = Returned st'
        /\ this st' = this st
        /\ isCameraOn (this st') = isCameraOn (this st)
        /\ isMicrophoneOn (this st') = isMicrophoneOn (this st)
        /\ socket (this st') = socket (this st)
        /\ document st'
           = set_alerts
               (alerts (document st)
                  ++ [{| alertMessage := lit "Microphone not available";
                         alertType := lit "error" |}])
               (document st)).
Proof.
  intros Hs. unfold toggleCamera, toggleMicrophone. rewrite Hs.
  split; eexists; (split; [reflexivity|]); cbn; repeat split.
Qed.

End Toggles.

Section TogglesOnThePage.
Import Meeting Vocabulary Scenario.

Lemma toggle_off_disables_kind_witness :
  (exists stream',
     localStream (this (stateOf (toggleCamera live))) = Some stream'
     /\ isCameraOn (this (stateOf (toggleCamera live))) = false
     /\ Forall (fun t => enabled t = false) (getVideoTracks stream')
     /\ getAudioTracks stream' = getAudioTracks [track video; track audio]
     /\ Forall2 (fun t t' => kind t' = kind t /\ stopCalls t' = stopCalls t
                             /\ (is_video t = true -> enabled t' = false)
                             /\ (is_video t = false -> t' = t))
                [track video; track audio] stream')
  /\ (exists stream',
        localStream (this (stateOf (toggleMicrophone live))) = Some stream'
        /\ isMicrophoneOn (this (stateOf (toggleMicrophone live))) = false
        /\ Forall (fun t => enabled t = false) (getAudioTracks stream')
        /\ getVideoTracks stream' = getVideoTracks [track video; track audio]
        /\ Forall2 (fun t t' => kind t' = kind t /\ stopCalls t' = stopCalls t
                                /\ (is_audio t = true -> enabled t' = false)
                                /\ (is_audio t = false -> t' = t))
                   [track video; track audio] stream').
Proof.
  assert (Hc : captured [track video; track audio])
    by (split; cbn; lia).
  split.
  - apply (proj1 (@toggle_off_disables_kind live [track video; track audio]
                    eq_refl Hc)).
    reflexivity.
  - apply (proj2 (@toggle_off_disables_kind live [track video; track audio]
                    eq_refl Hc)).
    reflexivity.
Defined.

Lemma toggle_without_stream_witness :
  (exists st',
     toggleCamera denied = Returned st'
     /\ this st' = this denied
     /\ isCameraOn (this st') = isCameraOn (this denied)
     /\ isMicrophoneOn (this st') = isMicrophoneOn (this denied)
     /\ socket (this st') = socket (this denied)
     /\ document st'
        = set_alerts
            (alerts (document denied)
               ++ [{| alertMessage := lit "Camera not available";
                      alertType := lit "error" |}])
            (document denied))
  /\ (exists st',
        toggleMicrophone denied = Returned st'
        /\ this st' = this denied
        /\ isCameraOn (this st') = isCameraOn (this denied)
        /\ isMicrophoneOn (this st') = isMicrophoneOn (this denied)
        /\ socket (this st') = socket (this denied)
        /\ document st'
           = set_alerts
               (alerts (document denied)
                  ++ [{| alertMessage := lit "Microphone not available";
                         alertType := lit "error" |}])
               (document denied)).
Proof.
  apply (@toggle_without_stream denied). reflexivity.
Defined.

End TogglesOnThePage.

(** ** Leaving the meeting *)
Section Leave.
Import Meeting Vocabulary.

Lemma map_stop_once (s : MediaStream) : Forall2 stoppedOnce s (map stop s).
Proof.
  induction s as [|t s IH]; simpl; constructor; [|exact IH].
  unfold stoppedOnce. simpl. auto.
Qed.

Lemma leaveMeeting_streams (st : State) :
  localStream (this (leaveMeeting st))
    = option_map (map stop) (localStream (this st))
  /\ screenStream (this (leaveMeeting st))
     = option_map (map stop) (screenStream (this st)).
Proof.
  unfold leaveMeeting. destruct st as [r d]. cbn.
  destruct (socket r) eqn:Ek; cbn; destruct (timerInterval r) eqn:Et; cbn;
    destruct (localStream r) eqn:El; cbn;
    destruct (screenStream r) eqn:Es; cbn;
    rewrite ?Ek, ?Et, ?El, ?Es; auto.
Qed.

Lemma leaveMeeting_intervals (st : State) :
  intervals (document (leaveMeeting st))
  = match timerInterval (this st) with
    | Some h => filter (fun h' => negb (Pos.eqb h' h))
                  (intervals (document st))
    | None => intervals (document st)
    end.
Proof.
  unfold leaveMeeting. destruct st as [r d]. cbn.
  destruct (socket r) eqn:Ek; cbn; destruct (timerInterval r) eqn:Et; cbn;
    destruct (localStream r) eqn:El; cbn;
    destruct (screenStream r) eqn:Es; cbn;
    rewrite ?Ek, ?Et, ?El, ?Es; auto.
Qed.

Lemma nothing_scheduled_nothing_fires (st : State) :
  intervals (document st) = [] ->
  forall turns, fireAll turns st = st.
Proof.
  intros H turns. induction turns as [|[h t] turns IH]; [reflexivity|].
  unfold fireAll in *. cbn [fold_left fst snd].
  unfold intervalFires at 2. unfold scheduled. rewrite H. cbn. exact IH.
Qed.

(** C6. [leaveMeeting] calls [stop()] exactly once on every track of the
    local stream and of the screen-share stream, for each stream that
    exists, and touches the tracks in no other way; and it clears the
    timer's interval, so that no interval is scheduled any more and
    whatever turns of the event loop follow, none renders a tick: the
    state, timer text included, stays as [leaveMeeting] left it. *)
Theorem leaveMeeting_stops_and_clears (st : State) :
  timerRecorded st ->
  streamStoppedOnce (localStream (this st))
    (localStream (this (leaveMeeting st)))
  /\ streamStoppedOnce (screenStream (this st))
       (screenStream (this (leaveMeeting st)))
  /\ intervals (document (leaveMeeting st)) = []
  /\ timer (document (leaveMeeting st)) = timer (document st)
  /\ forall turns,
       fireAll turns (leaveMeeting st) = leaveMeeting st.
Proof.
  intros Hrec.
  destruct (leaveMeeting_streams st) as [Hl Hs].
  assert (Hint : intervals (document (leaveMeeting st)) = []).
  { rewrite leaveMeeting_intervals. unfold timerRecorded in Hrec.
    destruct (timerInterval (this st)) as [h|].
    - induction (intervals (document st)) as [|h' l IH]; [reflexivity|].
      simpl. assert (E : Some h = Some h') by (apply Hrec; left; reflexivity).
      inversion E; subst. rewrite Pos.eqb_refl. simpl.
      apply IH. intros x Hx. apply Hrec. right. exact Hx.
    - destruct (intervals (document st)) as [|h' l]; [reflexivity|].
      specialize (Hrec h' (or_introl eq_refl)). discriminate. }
  split; [|split; [|split; [|split]]].
  - rewrite Hl. destruct (localStream (this st)); simpl; [|exact I].
    apply map_stop_once.
  - rewrite Hs. destruct (screenStream (this st)); simpl; [|exact I].
    apply map_stop_once.
  - exact Hint.
  - unfold leaveMeeting. destruct st as [r d]. cbn.
    destruct (socket r); cbn; destruct (timerInterval r); cbn;
      destruct (localStream r); cbn; destruct (screenStream r);
      reflexivity.
  - apply nothing_scheduled_nothing_fires. exact Hint.
Qed.

(** The constructor establishes what the theorem asks of the state, and
    the asynchronous continuations keep it. *)
Lemma construct_timerRecorded cfg dateNow h d :
  intervals d = [] -> timerRecorded (construct cfg dateNow h d).
Proof.
  intros H x Hx. cbn in Hx. rewrite H in Hx. cbn in Hx.
  destruct Hx as [<- | []]. reflexivity.
Qed.

(** Before leaving the timer does tick: on the page just constructed the
    interval's turn renders the elapsed time. *)
Lemma timer_ticks_until_left cfg dateNow h d (later : N) :
  timer (document (intervalFires h later (construct cfg dateNow h d)))
  = formatTime ((later - dateNow) / 1000).
Proof.
  unfold intervalFires, scheduled. cbn.
  rewrite existsb_app. cbn. rewrite Pos.eqb_refl, orb_true_r. reflexivity.
Qed.

End Leave.

Section LeaveOnThePage.
Import Meeting Vocabulary Scenario.

Lemma leaveMeeting_stops_and_clears_witness :
  streamStoppedOnce (localStream (this sharing))
    (localStream (this (leaveMeeting sharing)))
  /\ streamStoppedOnce (screenStream (this sharing))
       (screenStream (this (leaveMeeting sharing)))
  /\ intervals (document (leaveMeeting sharing)) = []
  /\ timer (document (leaveMeeting sharing)) = timer (document sharing)
  /\ forall turns,
       fireAll turns (leaveMeeting sharing) = leaveMeeting sharing.
Proof.
  apply (@leaveMeeting_stops_and_clears sharing).
  intros x Hx. cbn in Hx. destruct Hx as [<- | []]. reflexivity.
Defined.

End LeaveOnThePage.

(** ** The roster rebuild *)
Section Roster.
Import Meeting Vocabulary.

(** The loop of [updateParticipantsList]: it appends one list entry and
    one video tile per participant other than the local user, and touches
    nothing else. *)
Lemma roster_loop (participants : list Participant) (st : State) :
  fold_left
    (fun st participant =>
       if negb (strict_eqb (id participant) (userId (config (this st))))
       then addParticipantVideo participant
              (addParticipantToList participant st)
       else st)
    participants st
  = {| this := this st;
       document :=
         set_participantVideos
           (participantVideos (document st)
              ++ map videoDiv (others (config (this st)) participants))
           (set_participantsList
              (participantsList (document st)
                 ++ map participantDiv
                      (others (config (this st)) participants))
              (document st)) |}.
Proof.
  revert st. induction participants as [|p ps IH]; intros [r d].
  - destruct d. unfold others. cbn. rewrite !app_nil_r. reflexivity.
  - cbn [fold_left]. rewrite IH. clear IH. destruct d. unfold others.
    cbn -[videoDiv participantDiv strict_eqb].
    destruct (strict_eqb (id p) (userId (config r)));
      cbn -[videoDiv participantDiv strict_eqb].
    + reflexivity.
    + rewrite <- !app_assoc. reflexivity.
Qed.

(** The video container after a rebuild: every tile it held, followed by
    a new tile per participant other than the local user. Nothing is
    removed from it. *)
Lemma updateParticipantsList_videos (participants : list Participant)
    (st : State) :
  participantVideos (document (updateParticipantsList participants st))
  = participantVideos (document st)
      ++ map videoDiv (others (config (this st)) participants).
Proof.
  unfold updateParticipantsList. rewrite roster_loop.
  destruct st as [r d]. cbn.
  destruct (querySelector _ _); reflexivity.
Qed.

(** The participant list after a rebuild: the first [.participant-item]
    it held, if any, followed by a new entry per participant other than
    the local user. *)
Lemma updateParticipantsList_list (participants : list Participant)
    (st : State) :
  participantsList (document (updateParticipantsList participants st))
  = match querySelector (lit "participant-item")
            (participantsList (document st)) with
    | Some e => [e]
    | None => []
    end
    ++ map participantDiv (others (config (this st)) participants).
Proof.
  unfold updateParticipantsList. rewrite roster_loop.
  destruct st as [r d]. cbn.
  destruct (querySelector _ _); reflexivity.
Qed.

Lemma updateParticipantsList_this (participants : list Participant)
    (st : State) :
  this (updateParticipantsList participants st) = this st.
Proof.
  unfold updateParticipantsList. rewrite roster_loop.
  destruct st as [r d]. cbn.
  destruct (querySelector _ _); reflexivity.
Qed.

(** The list half of the rebuild is as the roster push says: on a page
    whose list starts with the local user's own entry, the list after the
    rebuild is that entry followed by exactly one entry per participant
    other than the local user. *)
Lemma updateParticipantsList_list_rebuilt (participants : list Participant)
    (st : State) (self : Element) (rest : list Element) :
  participantsList (document st) = self :: rest ->
  has_class (lit "participant-item") self = true ->
  participantsList (document (updateParticipantsList participants st))
  = self :: map participantDiv (others (config (this st)) participants).
Proof.
  intros Hl Hc. rewrite updateParticipantsList_list, Hl.
  unfold querySelector. cbn [find]. rewrite Hc. reflexivity.
Qed.

(** The video half is not: the count of tiles grows by the number of
    remote participants at every push. *)
Lemma updateParticipantsList_videos_grow (participants : list Participant)
    (st : State) :
  length (participantVideos
            (document (updateParticipantsList participants st)))
  = (length (participantVideos (document st))
     + length (others (config (this st)) participants))%nat.
Proof.
  rewrite updateParticipantsList_videos, length_app, length_map.
  reflexivity.
Qed.

End Roster.

Section RosterOnThePage.
Import Meeting Vocabulary Scenario.

(** C3 at two pushes of the same roster (Ann, who is the local user, and
    Bob). One participant is remote. After the second push the list holds
    Ann's own entry and one entry for Bob, but the video container holds
    two tiles for Bob: the tile of the first push is still there in front
    of the new one. *)
Theorem roster_second_push_keeps_stale_tile :
  let st1 := updateParticipantsList [ann; bob] joined in
  let st2 := updateParticipantsList [ann; bob] st1 in
  length (others cfg [ann; bob]) = 1%nat
  /\ participantsList (document st2) = [selfEntry; participantDiv bob]
  /\ participantVideos (document st1) = [videoDiv bob]
  /\ participantVideos (document st2) = [videoDiv bob; videoDiv bob]
  /\ length (participantVideos (document st2)) = 2%nat.
Proof.
  cbv zeta. rewrite !updateParticipantsList_videos,
    !updateParticipantsList_list, !updateParticipantsList_this.
  repeat split.
Qed.

End RosterOnThePage.

(** ** The emoticon passes *)
Section EmoticonPasses.
Import Meeting Emoticons.

(** Induction two characters at a time. *)
Lemma str_ind2 (P : str -> Prop) :
  P [] -> (forall x, P [x]) ->
  (forall x y r, P r -> P (y :: r) -> P (x :: y :: r)) ->
  forall s, P s.
Proof.
  intros H0 H1 H2 s.
  assert (H : P s /\ forall x, P (x :: s)).
  { induction s as [|y r [IH1 IH2]].
    - split; [exact H0 | exact H1].
    - split; [apply IH2 | intros x; apply H2; [exact IH1 | apply IH2]]. }
  apply H.
Qed.

Lemma replace_g_unfold (pat rep : str) (s : str) :
  replace_g pat rep 0 s
  = match s with
    | [] => []
    | c :: s' =>
        if is_prefix pat s
        then rep ++ replace_g pat rep (length pat - 1) s'
        else c :: replace_g pat rep 0 s'
    end.
Proof. destruct s; reflexivity. Qed.

(** The pass of the script on a two-character pattern is [replace2]. *)
Lemma replaceAll_pair (a b : char) (g : str) (s : str) :
  replaceAll [a; b] g s = replace2 a b g s.
Proof.
  unfold replaceAll. induction s as [| x | x y r IHr IHyr] using str_ind2.
  - reflexivity.
  - cbn. rewrite andb_false_r. reflexivity.
  - rewrite replace_g_unfold. cbn [is_prefix replace2].
    rewrite andb_true_r.
    destruct (char_eqb a x && char_eqb b y).
    + change (replace_g [a; b] g (length [a; b] - 1) (y :: r))
        with (replace_g [a; b] g 0 r).
      rewrite IHr. reflexivity.
    + rewrite IHyr. reflexivity.
Qed.

Lemma runPasses_snoc (L : list Entry) (e : Entry) (s : str) :
  runPasses (map pass (L ++ [e])) s
  = replaceAll (fst (pass e)) (snd (pass e)) (runPasses (map pass L) s).
Proof.
  unfold runPasses. rewrite map_app, fold_left_app. reflexivity.
Qed.

(** *** Elementary facts about one pass *)

Lemma replace2_cons_other (a b : char) (g : str) (x : char) (t : str) :
  x <> a -> replace2 a b g (x :: t) = x :: replace2 a b g t.
Proof.
  intros Hx. destruct t as [|y r]; [reflexivity|].
  cbn [replace2]. destruct (char_eqb a x) eqn:E.
  - apply char_eqb_eq in E. congruence.
  - reflexivity.
Qed.

Lemma replace2_cons_next (a b : char) (g : str) (x : char) (t : str) :
  (forall r, t <> b :: r) -> replace2 a b g (x :: t) = x :: replace2 a b g t.
Proof.
  intros Ht. destruct t as [|y r]; [reflexivity|].
  cbn [replace2]. destruct (char_eqb b y) eqn:E.
  - apply char_eqb_eq in E. subst. exfalso. apply (Ht r). reflexivity.
  - rewrite andb_false_r. reflexivity.
Qed.

Lemma replace2_skip (a b : char) (g : str) (g0 t : str) :
  ~ In a g0 -> replace2 a b g (g0 ++ t) = g0 ++ replace2 a b g t.
Proof.
  induction g0 as [|c g0 IH]; intros Hn; [reflexivity|].
  cbn [app]. rewrite replace2_cons_other.
  - rewrite IH; [reflexivity|]. intros H. apply Hn. right. exact H.
  - intros E. apply Hn. left. exact E.
Qed.

(** *** Elementary facts about the table *)

Lemma lookup_In (T : list Entry) (x y : char) (g : str) :
  lookup T x y = Some g -> In (x, y, g) T.
Proof.
  induction T as [|[[a b] g0] T IH]; cbn; [discriminate|].
  destruct (char_eqb a x && char_eqb b y) eqn:E.
  - intros H. inversion H; subst. apply andb_true_iff in E.
    destruct E as [E1 E2]. apply char_eqb_eq in E1, E2. subst.
    left. reflexivity.
  - intros H. right. apply IH. exact H.
Qed.


Lemma lookup_not_head (T : list Entry) (x y : char) :
  ~ IsHead T x -> lookup T x y = None.
Proof.
  intros H. destruct (lookup T x y) as [g|] eqn:E; [|reflexivity].
  exfalso. apply H. exists y, g. apply lookup_In. exact E.
Qed.

Lemma lookup_not_tail (T : list Entry) (x y : char) :
  ~ IsTail T y -> lookup T x y = None.
Proof.
  intros H. destruct (lookup T x y) as [g|] eqn:E; [|reflexivity].
  exfalso. apply H. exists x, g. apply lookup_In. exact E.
Qed.

Lemma lookup_snoc (T : list Entry) (a b : char) (g : str) (x y : char) :
  lookup (T ++ [(a, b, g)]) x y
  = match lookup T x y with
    | Some g0 => Some g0
    | None => if char_eqb a x && char_eqb b y then Some g else None
    end.
Proof.
  induction T as [|[[a' b'] g'] T IH]; cbn; [reflexivity|].
  destruct (char_eqb a' x && char_eqb b' y); [reflexivity | exact IH].
Qed.

Lemma TableOk_incl (T T' : list Entry) :
  (forall e, In e T' -> In e T) -> TableOk T -> TableOk T'.
Proof.
  intros Hi Hok a b g Hin. destruct (Hok a b g (Hi _ Hin)) as [H1 [H2 H3]].
  assert (Hh : forall c, IsHead T' c -> IsHead T c).
  { intros c [b' [g' H]]. exists b', g'. apply Hi. exact H. }
  assert (Ht : forall c, IsTail T' c -> IsTail T c).
  { intros c [a' [g' H]]. exists a', g'. apply Hi. exact H. }
  split; [exact H1 | split].
  - intros c Hc. destruct (H2 c Hc). split; auto.
  - auto.
Qed.

Lemma replaceEach_cons_other (T : list Entry) (x : char) (t : str) :
  ~ IsHead T x -> replaceEach T (x :: t) = x :: replaceEach T t.
Proof.
  intros H. destruct t as [|y r]; [reflexivity|].
  cbn [replaceEach]. rewrite (lookup_not_head _ H). reflexivity.
Qed.

(** The first character a rendering starts with is the first character
    of the text or the first character of a replacement. *)
Lemma replaceEach_head (T : list Entry) (y : char) (r : str) :
  TableOk T ->
  exists c t, replaceEach T (y :: r) = c :: t
              /\ (c = y \/ exists a b g, In (a, b, g) T /\ In c g).
Proof.
  intros Hok. destruct r as [|z r]; [exists y, []; auto|].
  cbn [replaceEach]. destruct (lookup T y z) as [g|] eqn:E.
  - apply lookup_In in E. destruct (Hok _ _ _ E) as [Hne _].
    destruct g as [|c g]; [congruence|].
    exists c, (g ++ replaceEach T r). split; [reflexivity|].
    right. exists y, z, (c :: g). split; [exact E | left; reflexivity].
  - eexists _, _. split; [reflexivity | left; reflexivity].
Qed.

Lemma replaceEach_cons2 (T : list Entry) (x y : char) (r : str) :
  replaceEach T (x :: y :: r)
  = match lookup T x y with
    | Some g => g ++ replaceEach T r
    | None => x :: replaceEach T (y :: r)
    end.
Proof. reflexivity. Qed.

Lemma replace2_cons2 (a b : char) (g : str) (x y : char) (r : str) :
  replace2 a b g (x :: y :: r)
  = if char_eqb a x && char_eqb b y then g ++ replace2 a b g r
    else x :: replace2 a b g (y :: r).
Proof. reflexivity. Qed.

(** *** One more pass after the passes of a table *)

Lemma replace2_after (T : list Entry) (a b : char) (g : str) :
  TableOk (T ++ [(a, b, g)]) ->
  forall s,
    replace2 a b g (replaceEach T s) = replaceEach (T ++ [(a, b, g)]) s.
Proof.
  intros Hok.
  assert (HokT : TableOk T).
  { apply (TableOk_incl (T := T ++ [(a, b, g)])); [|exact Hok].
    intros e He. apply in_or_app. left. exact He. }
  assert (Hlast : In (a, b, g) (T ++ [(a, b, g)])).
  { apply in_or_app. right. left. reflexivity. }
  assert (Ha : IsHead (T ++ [(a, b, g)]) a) by (exists b, g; exact Hlast).
  assert (Hb : IsTail (T ++ [(a, b, g)]) b) by (exists a, g; exact Hlast).
  assert (HbT : ~ IsHead T b).
  { intros [b' [g' H]]. destruct (Hok _ _ _ Hlast) as [_ [_ Hn]].
    apply Hn. exists b', g'. apply in_or_app. left. exact H. }
  (* a replacement of [T] holds neither [a] nor [b] *)
  assert (Hg : forall x y g0 c, In (x, y, g0) T -> In c g0 ->
                                c <> a /\ c <> b).
  { intros x y g0 c Hin Hc.
    assert (Hin' : In (x, y, g0) (T ++ [(a, b, g)]))
      by (apply in_or_app; left; exact Hin).
    destruct (Hok _ _ _ Hin') as [_ [H _]]. destruct (H c Hc) as [H1 H2].
    split; intros ->; tauto. }
  induction s as [| x | x y r IHr IHyr] using str_ind2.
  - reflexivity.
  - reflexivity.
  - rewrite !replaceEach_cons2, lookup_snoc.
    destruct (lookup T x y) as [g0|] eqn:El.
    + (* a sequence of [T]: its replacement is passed over *)
      apply lookup_In in El. rewrite replace2_skip, IHr; [reflexivity|].
      intros Hin. destruct (Hg _ _ _ _ El Hin) as [H _]. congruence.
    + destruct (char_eqb a x && char_eqb b y) eqn:E.
      * (* the new sequence: [T] left both characters in place *)
        apply andb_true_iff in E. destruct E as [E1 E2].
        apply char_eqb_eq in E1, E2. subst x y.
        rewrite (replaceEach_cons_other r HbT).
        rewrite replace2_cons2, !char_eqb_refl. cbn [andb].
        rewrite IHr. reflexivity.
      * (* neither: the character is kept by both *)
        rewrite <- IHyr.
        destruct (replaceEach_head y r HokT) as [c [t [Eh Hc]]].
        rewrite Eh, replace2_cons2.
        destruct (char_eqb a x && char_eqb b c) eqn:E'; [|reflexivity].
        exfalso. apply andb_true_iff in E'. destruct E' as [E1 E2].
        apply char_eqb_eq in E1, E2. subst x c.
        destruct Hc as [-> | [x' [y' [g' [Hin Hc]]]]].
        -- rewrite !char_eqb_refl in E. discriminate.
        -- destruct (Hg _ _ _ _ Hin Hc) as [_ H]. congruence.
Qed.

(** Running the passes of a table one after the other renders the text
    as one reading of it does. *)
Lemma runPasses_replaceEach (L : list Entry) :
  TableOk L -> forall s, runPasses (map pass L) s = replaceEach L s.
Proof.
  induction L as [|e L IH] using rev_ind; intros Hok s.
  - cbn. induction s as [| x | x y r IHr IHyr] using str_ind2;
      try reflexivity.
    rewrite replaceEach_cons2. cbn [lookup]. rewrite <- IHyr. reflexivity.
  - rewrite runPasses_snoc. destruct e as [[a b] g]. cbn [pass fst snd].
    rewrite replaceAll_pair, IH.
    + apply replace2_after. exact Hok.
    + apply (TableOk_incl (T := L ++ [(a, b, g)])); [|exact Hok].
      intros e He. apply in_or_app. left. exact He.
Qed.



(** *** No sequence is left *)

Lemma hasEmoticon_cons2 (T : list Entry) (x y : char) (r : str) :
  hasEmoticon T (x :: y :: r)
  = match lookup T x y with
    | Some _ => true
    | None => hasEmoticon T (y :: r)
    end.
Proof. reflexivity. Qed.





(** *** The table of the script *)

Lemma isHeadb_spec (T : list Entry) (c : char) :
  IsHead T c -> isHeadb T c = true.
Proof.
  intros [b [g H]]. apply existsb_exists. exists (c, b, g).
  split; [exact H | apply char_eqb_refl].
Qed.

Lemma isTailb_spec (T : list Entry) (c : char) :
  IsTail T c -> isTailb T c = true.
Proof.
  intros [a [g H]]. apply existsb_exists. exists (a, c, g).
  split; [exact H | apply char_eqb_refl].
Qed.

Lemma tableOkb_sound (T : list Entry) : tableOkb T = true -> TableOk T.
Proof.
  intros H a b g Hin. unfold tableOkb in H.
  rewrite forallb_forall in H. specialize (H _ Hin). cbn [fst snd] in H.
  apply andb_true_iff in H. destruct H as [H H3].
  apply andb_true_iff in H. destruct H as [H1 H2].
  split; [|split].
  - destruct g; [discriminate | discriminate].
  - intros c Hc. rewrite forallb_forall in H2. specialize (H2 _ Hc).
    apply andb_true_iff in H2. destruct H2 as [Hh Ht].
    split; intros X.
    + apply isHeadb_spec in X. rewrite X in Hh. discriminate.
    + apply isTailb_spec in X. rewrite X in Ht. discriminate.
  - intros X. apply isHeadb_spec in X. rewrite X in H3. discriminate.
Qed.

Lemma emoticonTable_ok : TableOk emoticonTable.
Proof. apply tableOkb_sound. vm_compute. reflexivity. Qed.


Lemma emoticonPasses_table : emoticonPasses = map pass emoticonTable.
Proof. reflexivity. Qed.

Lemma formatMessageContent_passes (content : str) :
  formatMessageContent content = linkify (runPasses emoticonPasses content).
Proof. reflexivity. Qed.

End EmoticonPasses.

(** ** Link detection *)
Section Linkify.
Import Meeting Emoticons Links.

Lemma strip_prefix_spec (p s r : str) :
  strip_prefix p s = Some r <-> s = p ++ r.
Proof.
  revert s; induction p as [|x p IH]; intros s; cbn.
  - split; [intros E; inversion E; reflexivity | intros ->; reflexivity].
  - destruct s as [|y s]; [split; discriminate|].
    destruct (char_eqb x y) eqn:E.
    + apply char_eqb_eq in E. subst y. rewrite IH.
      split; [intros ->; reflexivity | intros H; inversion H; reflexivity].
    + split; [discriminate|]. intros H. inversion H; subst.
      rewrite char_eqb_refl in E. discriminate.
Qed.

Lemma take_non_ws_spec (s : str) :
  exists rest, s = take_non_ws s ++ rest
               /\ Forall (fun c => is_ws c = false) (take_non_ws s)
               /\ StartsBlank rest.
Proof.
  induction s as [|c s [rest [H1 [H2 H3]]]].
  - exists []. cbn. auto.
  - cbn. destruct (is_ws c) eqn:E.
    + exists (c :: s). cbn. auto.
    + exists rest. cbn. split; [f_equal; exact H1 | split; auto].
Qed.

Lemma take_non_ws_app (b rest : str) :
  Forall (fun c => is_ws c = false) b -> StartsBlank rest ->
  take_non_ws (b ++ rest) = b.
Proof.
  intros Hb Hr. induction Hb as [|c b Hc Hb IH].
  - destruct rest as [|c r]; [reflexivity|]. cbn in Hr |- *. rewrite Hr.
    reflexivity.
  - cbn. rewrite Hc, IH. reflexivity.
Qed.

Lemma url_rest_sound (scheme r m : str) :
  url_rest scheme r = Some m ->
  exists body rest,
    r = lit "://" ++ body ++ rest /\ m = scheme ++ lit "://" ++ body
    /\ body <> [] /\ Forall (fun c => is_ws c = false) body
    /\ StartsBlank rest.
Proof.
  unfold url_rest. destruct (strip_prefix (lit "://") r) as [r'|] eqn:E;
    [|discriminate].
  apply strip_prefix_spec in E. subst r.
  destruct (take_non_ws_spec r') as [rest [H1 [H2 H3]]].
  destruct (take_non_ws r') as [|c body] eqn:Eb; [discriminate|].
  intros H. inversion H; subst. exists (c :: body), rest.
  split; [reflexivity|].
  split; [reflexivity|]. split; [discriminate | auto].
Qed.

Lemma url_rest_complete (scheme body rest : str) :
  body <> [] -> Forall (fun c => is_ws c = false) body -> StartsBlank rest ->
  url_rest scheme (lit "://" ++ body ++ rest)
  = Some (scheme ++ lit "://" ++ body).
Proof.
  intros Hne Hb Hr. unfold url_rest.
  assert (E : strip_prefix (lit "://") (lit "://" ++ body ++ rest)
              = Some (body ++ rest)) by (apply strip_prefix_spec; reflexivity).
  rewrite E, take_non_ws_app by assumption.
  destruct body; [congruence | reflexivity].
Qed.

(** What a successful match looks like. *)
Lemma url_at_sound (s m : str) :
  url_at s = Some m ->
  exists rest, s = m ++ rest /\ IsUrl m /\ StartsBlank rest.
Proof.
  unfold url_at. destruct (strip_prefix (lit "http") s) as [r|] eqn:E;
    [|discriminate].
  apply strip_prefix_spec in E. subst s.
  assert (Hplain : url_rest (lit "http") r = Some m ->
                   exists rest, lit "http" ++ r = m ++ rest
                                /\ IsUrl m /\ StartsBlank rest).
  { intros H. apply url_rest_sound in H.
    destruct H as [body [rest [-> [-> [H1 [H2 H3]]]]]].
    exists rest. split; [|split; [|exact H3]].
    - rewrite <- !app_assoc. reflexivity.
    - exists body. split; [left; reflexivity | auto]. }
  destruct r as [|c r']; [exact Hplain|].
  destruct (char_eqb c 115%N) eqn:Ec; [|exact Hplain].
  apply char_eqb_eq in Ec. subst c.
  destruct (url_rest (lit "https") r') as [m'|] eqn:Es; [|exact Hplain].
  intros H. inversion H; subst m'. apply url_rest_sound in Es.
  destruct Es as [body [rest [-> [-> [H1 [H2 H3]]]]]].
  exists rest. split; [|split; [|exact H3]].
  - rewrite <- !app_assoc. reflexivity.
  - exists body. split; [right; reflexivity | auto].
Qed.

Lemma url_at_http (r : str) :
  url_at (lit "http" ++ r)
  = match match r with
          | c :: r' =>
              if char_eqb c 115%N then url_rest (lit "https") r' else None
          | [] => None
          end with
    | Some m => Some m
    | None => url_rest (lit "http") r
    end.
Proof.
  unfold url_at.
  assert (E : strip_prefix (lit "http") (lit "http" ++ r) = Some r)
    by (apply strip_prefix_spec; reflexivity).
  rewrite E. reflexivity.
Qed.

(** The pattern matches a URL followed by a blank or by nothing, and
    matches all of it. *)
Lemma url_at_complete (u rest : str) :
  IsUrl u -> StartsBlank rest -> url_at (u ++ rest) = Some u.
Proof.
  intros [body [[-> | ->] [Hne Hb]]] Hr.
  - assert (E : (lit "http://" ++ body) ++ rest
                = lit "http" ++ (lit "://" ++ body ++ rest))
      by (rewrite <- app_assoc; reflexivity).
    rewrite E, url_at_http. cbn [lit list_ascii_of_string map app].
    change (char_eqb (N_of_ascii ":") 115%N) with false. cbv iota.
    apply (@url_rest_complete (lit "http") body rest Hne Hb Hr).
  - assert (E : (lit "https://" ++ body) ++ rest
                = lit "http" ++ (115%N :: lit "://" ++ body ++ rest))
      by (rewrite <- app_assoc; reflexivity).
    rewrite E, url_at_http, char_eqb_refl.
    rewrite (@url_rest_complete (lit "https") body rest Hne Hb Hr).
    reflexivity.
Qed.

Lemma IsUrl_nonblank (m : str) :
  IsUrl m -> Forall (fun c => is_ws c = false) m.
Proof.
  intros [body [[-> | ->] [_ Hb]]]; apply Forall_app; split; try exact Hb;
    apply Forall_forall; intros c Hc; cbn in Hc;
    repeat (destruct Hc as [<- | Hc]; [reflexivity|]); destruct Hc.
Qed.

Lemma IsUrl_length (m : str) : IsUrl m -> (1 <= length m)%nat.
Proof.
  intros [body [[-> | ->] _]]; rewrite length_app; cbn; lia.
Qed.

Lemma IsUrl_extend (m t : str) :
  IsUrl m -> Forall (fun c => is_ws c = false) t -> IsUrl (m ++ t).
Proof.
  intros [body [Hm [Hne Hb]]] Ht. exists (body ++ t). split; [|split].
  - destruct Hm as [-> | ->]; [left | right]; rewrite app_assoc; reflexivity.
  - destruct body; [congruence | discriminate].
  - apply Forall_app. auto.
Qed.

(** *** The global scan, one step at a time *)

Lemma linkify_from_skipn (k : nat) (s : str) :
  linkify_from k s = linkify (skipn k s).
Proof.
  revert k. induction s as [|c s IH]; intros [|k]; try reflexivity.
  cbn [linkify_from skipn]. apply IH.
Qed.

Lemma linkify_match (s m : str) :
  url_at s = Some m -> linkify s = anchor m ++ linkify (skipn (length m) s).
Proof.
  intros H. pose proof (url_at_sound _ H) as [rest [Hs [Hu _]]].
  pose proof (IsUrl_length Hu) as Hl.
  destruct s as [|c s'].
  - destruct m; [cbn in Hl; lia | discriminate].
  - unfold linkify at 1. cbn [linkify_from]. rewrite H, linkify_from_skipn.
    destruct (length m) as [|k]; [lia|]. cbn [skipn Nat.sub].
    rewrite Nat.sub_0_r. reflexivity.
Qed.

Lemma linkify_copy (c : char) (s' : str) :
  url_at (c :: s') = None -> linkify (c :: s') = c :: linkify s'.
Proof.
  intros H. unfold linkify at 1. cbn [linkify_from]. rewrite H. reflexivity.
Qed.

(** *** A match and what follows the text *)

Lemma url_at_within (pre x m : str) :
  url_at (pre ++ x) = Some m -> (length m <= length pre)%nat ->
  url_at pre = Some m /\ exists pre', pre = m ++ pre'.
Proof.
  intros H Hl. destruct (url_at_sound _ H) as [rest [Hs [Hu Hr]]].
  apply app_eq_app in Hs. destruct Hs as [l [[E1 E2] | [E1 E2]]].
  - subst pre. split; [|exists l; reflexivity].
    apply url_at_complete; [exact Hu|].
    destruct l as [|c l]; [exact I|]. subst rest. exact Hr.
  - subst m. rewrite length_app in Hl.
    destruct l as [|c l]; [|cbn in Hl; lia].
    rewrite app_nil_r in *. split; [|exists []; rewrite app_nil_r; reflexivity].
    rewrite <- (app_nil_r pre) at 1. apply url_at_complete; [exact Hu | exact I].
Qed.

Lemma url_at_none_prefix (pre x : str) :
  url_at (pre ++ x) = None -> url_at pre = None.
Proof.
  intros H. destruct (url_at pre) as [m|] eqn:E; [|reflexivity].
  exfalso. destruct (url_at_sound _ E) as [rest [Hs [Hu Hr]]]. subst pre.
  destruct rest as [|c rest].
  - rewrite app_nil_r in H.
    destruct (take_non_ws_spec x) as [x' [Hx [Ht Hx']]].
    rewrite Hx, app_assoc in H.
    rewrite (@url_at_complete _ _ (IsUrl_extend Hu Ht) Hx') in H.
    discriminate.
  - rewrite <- app_assoc in H.
    rewrite (@url_at_complete m ((c :: rest) ++ x) Hu Hr) in H. discriminate.
Qed.

(** *** The anchor around a matched URL *)

Lemma MatchedAt_suffix (p q u post : str) :
  MatchedAt (p ++ q) u post -> MatchedAt q u post.
Proof.
  intros [H1 H2]. split; [exact H1|].
  intros p1 p2 m E. apply (H2 (p ++ p1) p2 m).
  rewrite E, app_assoc. reflexivity.
Qed.

Lemma linkify_matched_len (n : nat) :
  forall pre u post, (length pre <= n)%nat -> MatchedAt pre u post ->
    linkify (pre ++ u ++ post) = linkify pre ++ anchor u ++ linkify post.
Proof.
  induction n as [|n IH]; intros pre u post Hn Hm.
  - destruct pre; [|cbn in Hn; lia]. cbn [app].
    destruct Hm as [Hu _]. rewrite (linkify_match _ Hu).
    rewrite skipn_app, skipn_all, Nat.sub_diag. reflexivity.
  - destruct pre as [|c pre'].
    + apply (IH [] u post); [cbn; lia | exact Hm].
    + destruct (url_at ((c :: pre') ++ u ++ post)) as [m|] eqn:E.
      * assert (Hl : (length m <= length (c :: pre'))%nat).
        { destruct Hm as [_ H]. apply (H [] (c :: pre') m);
            [reflexivity | discriminate | exact E]. }
        destruct (url_at_within _ _ E Hl) as [Epre [pre'' Hsplit]].
        pose proof (url_at_sound _ Epre) as [_ [_ [Hu _]]].
        pose proof (IsUrl_length Hu) as Hlm.
        rewrite (linkify_match _ E), (linkify_match _ Epre), Hsplit.
        rewrite <- !app_assoc, !skipn_app, !skipn_all, !Nat.sub_diag.
        cbn [skipn app]. f_equal. apply IH.
        -- apply (f_equal (@length char)) in Hsplit.
           rewrite length_app in Hsplit. cbn in Hn, Hsplit. lia.
        -- apply (MatchedAt_suffix m). rewrite <- Hsplit. exact Hm.
      * pose proof (url_at_none_prefix _ _ E) as Epre.
        cbn [app] in E |- *.
        rewrite (linkify_copy _ _ E), (linkify_copy _ _ Epre).
        cbn [app]. f_equal. apply IH; [cbn in Hn; lia|].
        apply (MatchedAt_suffix [c]). exact Hm.
Qed.

(** Every match of the pattern is replaced by the anchor built around
    it: the text before and the text after are rendered on their own,
    and between them stands [anchor u], whose [href] is [u]. *)
Lemma linkify_matched (pre u post : str) :
  MatchedAt pre u post ->
  linkify (pre ++ u ++ post) = linkify pre ++ anchor u ++ linkify post.
Proof.
  intros H.
  apply (@linkify_matched_len (length pre) pre u post (Nat.le_refl _) H).
Qed.

(** A URL between blanks (or the ends of the text) is such a match. *)
Lemma matched_delimited (pre u post : str) :
  IsUrl u -> EndsBlank pre -> StartsBlank post -> MatchedAt pre u post.
Proof.
  intros Hu Hpre Hpost. split; [apply url_at_complete; assumption|].
  intros p1 p2 m E Hne Hm.
  destruct Hpre as [-> | [p [w [-> Hw]]]].
  { destruct p1; [|discriminate]. cbn in E. congruence. }
  destruct (exists_last Hne) as [p2' [x Ep2]]. subst p2.
  rewrite app_assoc in E. apply app_inj_tail in E. destruct E as [_ <-].
  destruct (url_at_sound _ Hm) as [rest [Hs [Hum _]]].
  pose proof (IsUrl_nonblank Hum) as Hnb.
  rewrite <- app_assoc in Hs. apply app_eq_app in Hs.
  destruct Hs as [l [[E1 E2] | [E1 E2]]].
  - subst p2'. rewrite !length_app. lia.
  - subst m. destruct l as [|c l].
    + rewrite app_nil_r, length_app. lia.
    + cbn in E2. inversion E2; subst. apply Forall_app in Hnb.
      destruct Hnb as [_ Hnb]. apply Forall_inv in Hnb. congruence.
Qed.

End Linkify.

(** ** Rendering a chat message *)
Section FormatMessage.
Import Meeting Emoticons Links.

(** *** Emoticon rendering on either side of a character *)

Lemma replaceEach_split_after (T : list Entry) (w : char) (y : str) :
  ~ IsHead T w ->
  forall p : str, replaceEach T (p ++ w :: y)
                  = replaceEach T (p ++ [w]) ++ replaceEach T y.
Proof.
  intros Hw p. induction p as [| x | x z r IHr IHzr] using str_ind2.
  - cbn [app]. rewrite (replaceEach_cons_other y Hw). reflexivity.
  - cbn [app]. rewrite !replaceEach_cons2.
    destruct (lookup T x w).
    + cbn [replaceEach]. rewrite app_nil_r. reflexivity.
    + rewrite (replaceEach_cons_other y Hw). reflexivity.
  - cbn [app]. rewrite !replaceEach_cons2.
    destruct (lookup T x z).
    + rewrite IHr, app_assoc. reflexivity.
    + cbn [app] in IHzr. rewrite IHzr. reflexivity.
Qed.

Lemma replaceEach_split_before (T : list Entry) (w : char) (y : str) :
  ~ IsTail T w ->
  forall p : str, replaceEach T (p ++ w :: y)
                  = replaceEach T p ++ replaceEach T (w :: y).
Proof.
  intros Hw p. induction p as [| x | x z r IHr IHzr] using str_ind2.
  - reflexivity.
  - cbn [app]. rewrite replaceEach_cons2, (@lookup_not_tail T x w Hw).
    reflexivity.
  - cbn [app]. rewrite !replaceEach_cons2.
    destruct (lookup T x z).
    + rewrite IHr, app_assoc. reflexivity.
    + cbn [app] in IHzr. rewrite IHzr. reflexivity.
Qed.

Lemma replaceEach_none (T : list Entry) (s : str) :
  hasEmoticon T s = false -> replaceEach T s = s.
Proof.
  induction s as [| x | x y r IHr IHyr] using str_ind2; try reflexivity.
  rewrite hasEmoticon_cons2, replaceEach_cons2.
  destruct (lookup T x y); [discriminate|].
  intros H. rewrite (IHyr H). reflexivity.
Qed.

(** *** Blanks and the five sequences *)

Lemma emoticon_heads (c : char) :
  IsHead emoticonTable c -> c = 58%N \/ c = 60%N.
Proof.
  intros [b [g H]]. cbn in H.
  repeat (destruct H as [H | H]; [inversion H; auto|]). destruct H.
Qed.

Lemma emoticon_tails (c : char) :
  IsTail emoticonTable c ->
  c = 41%N \/ c = 40%N \/ c = 68%N \/ c = 124%N \/ c = 51%N.
Proof.
  intros [a [g H]]. cbn in H.
  repeat (destruct H as [H | H]; [inversion H; auto 6|]). destruct H.
Qed.

Lemma blank_not_head (w : char) :
  is_ws w = true -> ~ IsHead emoticonTable w.
Proof.
  intros Hw H. apply emoticon_heads in H. destruct H; subst; discriminate.
Qed.

Lemma blank_not_tail (w : char) :
  is_ws w = true -> ~ IsTail emoticonTable w.
Proof.
  intros Hw H. apply emoticon_tails in H.
  repeat (destruct H as [H | H]; [subst; discriminate|]).
  subst; discriminate.
Qed.

Lemma runPasses_emoticons (s : str) :
  runPasses emoticonPasses s = replaceEach emoticonTable s.
Proof.
  rewrite emoticonPasses_table.
  apply (runPasses_replaceEach emoticonTable_ok).
Qed.

(** The passes leave a URL without emoticon sequences alone and render
    what stands on either side of it on its own. *)
Lemma emoticons_around_url (pre u post : str) :
  EndsBlank pre -> StartsBlank post ->
  hasEmoticon emoticonTable u = false ->
  replaceEach emoticonTable (pre ++ u ++ post)
  = replaceEach emoticonTable pre ++ u ++ replaceEach emoticonTable post
  /\ EndsBlank (replaceEach emoticonTable pre)
  /\ StartsBlank (replaceEach emoticonTable post).
Proof.
  intros Hpre Hpost Hu.
  assert (Hright : replaceEach emoticonTable (u ++ post)
                   = u ++ replaceEach emoticonTable post
                   /\ StartsBlank (replaceEach emoticonTable post)).
  { destruct post as [|w post'].
    - rewrite app_nil_r. rewrite (@replaceEach_none _ _ Hu). cbn.
      rewrite app_nil_r. auto.
    - cbn in Hpost.
      rewrite (@replaceEach_split_before _ w post'
                 (@blank_not_tail w Hpost) u).
      rewrite (@replaceEach_none _ _ Hu).
      rewrite (@replaceEach_cons_other _ w post' (@blank_not_head w Hpost)).
      split; [reflexivity | exact Hpost]. }
  destruct Hright as [Hright Hstart].
  destruct Hpre as [-> | [p [w [-> Hw]]]].
  - cbn [app]. split; [exact Hright | split; [left; reflexivity | exact Hstart]].
  - rewrite <- app_assoc. cbn [app].
    rewrite (@replaceEach_split_after _ w (u ++ post)
               (@blank_not_head w Hw) p), Hright.
    split; [reflexivity | split; [|exact Hstart]].
    right. exists (replaceEach emoticonTable p), w. split; [|exact Hw].
    rewrite (@replaceEach_split_before _ w [] (@blank_not_tail w Hw) p).
    reflexivity.
Qed.

(** C2, as the method has it. URLs are looked for in the text the five
    emoticon passes leave: whatever the pattern matches there is replaced
    by an anchor whose [href] (and label) is the matched text exactly,
    with the text before and after rendered on its own. So a URL of the
    message that stands between blanks or the ends of the text and
    contains none of the five sequences is wrapped under its own name. *)
Theorem url_wrapped_after_emoticons :
  (forall content pre u post : str,
     runPasses emoticonPasses content = pre ++ u ++ post ->
     MatchedAt pre u post ->
     formatMessageContent content = linkify pre ++ anchor u ++ linkify post)
  /\ (forall pre u post : str,
        IsUrl u -> EndsBlank pre -> StartsBlank post ->
        hasEmoticon emoticonTable u = false ->
        formatMessageContent (pre ++ u ++ post)
        = formatMessageContent pre ++ anchor u ++ formatMessageContent post)
  /\ (forall u : str,
        anchor u
        = lit "<a href=" ++ [dq] ++ u ++ [dq]
            ++ lit " target=" ++ q (lit "_blank")
            ++ lit " class=" ++ q (lit "text-primary") ++ lit ">"
            ++ u ++ lit "</a>").
Proof.
  split; [|split].
  - intros content pre u post E Hm.
    rewrite formatMessageContent_passes, E. apply linkify_matched. exact Hm.
  - intros pre u post Hu Hpre Hpost Hfree.
    rewrite !formatMessageContent_passes, !runPasses_emoticons.
    destruct (@emoticons_around_url pre u post Hpre Hpost Hfree)
      as [E [Hpre' Hpost']].
    rewrite E. apply linkify_matched.
    apply matched_delimited; assumption.
  - intros u. unfold anchor, q. cbn [app]. rewrite <- !app_assoc.
    reflexivity.
Qed.

Lemma example_url_is_url : IsUrl (lit "https://example.com/a?b=1").
Proof.
  exists (lit "example.com/a?b=1").
  split; [right; reflexivity | split; [discriminate|]].
  repeat constructor.
Qed.

Lemma url_wrapped_after_emoticons_witness :
  formatMessageContent (lit "<3 https://example.com/a?b=1")
    = linkify (glyph_heart ++ lit " ")
        ++ anchor (lit "https://example.com/a?b=1") ++ linkify []
  /\ formatMessageContent
       (lit "see " ++ lit "https://example.com/a?b=1" ++ lit " :)")
     = formatMessageContent (lit "see ")
         ++ anchor (lit "https://example.com/a?b=1")
         ++ formatMessageContent (lit " :)").
Proof.
  split.
  - apply (proj1 url_wrapped_after_emoticons
             (lit "<3 https://example.com/a?b=1")
             (glyph_heart ++ lit " ") (lit "https://example.com/a?b=1") []).
    + reflexivity.
    + apply matched_delimited.
      * exact example_url_is_url.
      * right. exists glyph_heart, 32%N. split; reflexivity.
      * exact I.
  - apply (proj1 (proj2 url_wrapped_after_emoticons)
             (lit "see ") (lit "https://example.com/a?b=1") (lit " :)")).
    + exact example_url_is_url.
    + right. exists (lit "see"), 32%N. split; reflexivity.
    + reflexivity.
    + reflexivity.
Defined.

(** C2 as worded fails for a URL that contains one of the sequences.
    The message is the URL https://example.com/wiki/Talk:Design, which
    holds [:D]. The anchor returned is built around the text with [:D]
    replaced; neither the anchor of the URL nor an [href] equal to the
    URL occurs in what is returned. *)
Lemma url_with_emoticon_not_wrapped :
  IsUrl (lit "https://example.com/wiki/Talk:Design")
  /\ formatMessageContent (lit "https://example.com/wiki/Talk:Design")
     = anchor (lit "https://example.com/wiki/Talk" ++ glyph_grin
                 ++ lit "esign")
  /\ is_infix (anchor (lit "https://example.com/wiki/Talk:Design"))
       (formatMessageContent (lit "https://example.com/wiki/Talk:Design"))
     = false
  /\ is_infix
       (lit "href=" ++ q (lit "https://example.com/wiki/Talk:Design"))
       (formatMessageContent (lit "https://example.com/wiki/Talk:Design"))
     = false.
Proof.
  split; [|split; [|split]].
  - exists (lit "example.com/wiki/Talk:Design").
    split; [right; reflexivity | split; [discriminate|]].
    repeat constructor.
  - vm_compute. reflexivity.
  - vm_compute. reflexivity.
  - vm_compute. reflexivity.
Qed.

(** *** Link detection brings no sequence back *)











Lemma linkify_plain (s : str) :
  is_infix (lit "http") s = false -> linkify s = s.
Proof.
  induction s as [|c s IH]; intros H; [reflexivity|].
  cbn [is_infix] in H. apply orb_false_iff in H. destruct H as [Hp Hi].
  assert (E : url_at (c :: s) = None).
  { unfold url_at.
    destruct (strip_prefix (lit "http") (c :: s)) as [r|] eqn:Er;
      [|reflexivity].
    apply strip_prefix_spec in Er.
    assert (X : is_prefix (lit "http") (c :: s) = true)
      by (apply is_prefix_spec; eauto).
    congruence. }
  rewrite (linkify_copy _ _ E), (IH Hi). reflexivity.
Qed.

(** *** Plain letters pass through the emoticon rendering

    A character that starts no sequence and occurs in no replacement is
    copied; so a word of such characters occurs in the rendering only
    where it occurs in the text. *)






End FormatMessage.

(* ===================================================================== *)
(** * Part III. Further properties of the scripts                         *)
(* ===================================================================== *)

(** ** More on the meeting-id input mask *)
Section InputMaskMore.

(** X1. The rendered value depends on the first ten digits of the field
    only: two values with the same first ten digits are rendered alike,
    whatever else they hold. *)
Theorem mask_depends_on_digits (v1 v2 : str) :
  firstn 10 (filter is_digit v1) = firstn 10 (filter is_digit v2) ->
  App.meetingIdInput_oninput v1 = App.meetingIdInput_oninput v2.
Proof.
  intros H. rewrite (oninput_on_digits v1), (oninput_on_digits v2).
  cbv zeta. rewrite H. reflexivity.
Qed.

Lemma mask_depends_on_digits_witness :
  App.meetingIdInput_oninput (lit "12/34 56")
  = App.meetingIdInput_oninput (lit "123456").
Proof.
  apply (@mask_depends_on_digits (lit "12/34 56") (lit "123456")).
  reflexivity.
Defined.

Lemma filter_remove_other (pre post : str) (c : char) :
  is_digit c = false ->
  filter is_digit (pre ++ post) = filter is_digit (pre ++ c :: post).
Proof.
  intros Hc. rewrite !filter_app. cbn [filter]. rewrite Hc. reflexivity.
Qed.

(** X2. A separator cannot be deleted: take any value the listener
    rendered, remove one character of it that is not a digit (a dash),
    and let the listener run on what is left, as it does on the input
    event of that deletion; the value is rendered as before. *)
Theorem mask_separator_comes_back (v pre post : str) (c : char) :
  App.meetingIdInput_oninput v = pre ++ c :: post ->
  is_digit c = false ->
  App.meetingIdInput_oninput (pre ++ post) = App.meetingIdInput_oninput v.
Proof.
  intros Hv Hc.
  rewrite <- (oninput_idempotent v). rewrite Hv.
  rewrite (oninput_on_digits (pre ++ post)),
    (oninput_on_digits (pre ++ c :: post)).
  cbv zeta. rewrite (@filter_remove_other pre post c Hc). reflexivity.
Qed.

Lemma mask_separator_comes_back_witness :
  App.meetingIdInput_oninput (lit "123" ++ lit "456-")
  = App.meetingIdInput_oninput (lit "123456").
Proof.
  apply (@mask_separator_comes_back (lit "123456") (lit "123")
           (lit "456-") 45%N).
  - reflexivity.
  - reflexivity.
Defined.

(** X3. What the listener leaves in the field: nothing but digits and
    dashes, at most twelve characters; its digits are the first ten
    digits of what the field held, in order; and running the listener
    again on it changes nothing. *)
Theorem mask_output (v : str) :
  Forall (fun c => is_digit c = true \/ c = 45%N)
    (App.meetingIdInput_oninput v)
  /\ (length (App.meetingIdInput_oninput v) <= 12)%nat
  /\ filter is_digit (App.meetingIdInput_oninput v)
     = firstn 10 (filter is_digit v)
  /\ App.meetingIdInput_oninput (App.meetingIdInput_oninput v)
     = App.meetingIdInput_oninput v.
Proof.
  split; [|split; [|split]].
  - rewrite oninput_on_digits. cbv zeta.
    set (d := firstn 10 (filter is_digit v)).
    assert (Hd : Forall (fun c => is_digit c = true \/ c = 45%N) d).
    { apply Forall_forall. intros x Hx. left.
      assert (Hin : In x (filter is_digit v)).
      { rewrite <- (firstn_skipn 10 (filter is_digit v)).
        apply in_or_app. left. exact Hx. }
      apply filter_In in Hin. tauto. }
    assert (Hf : forall n, Forall (fun c => is_digit c = true \/ c = 45%N)
                             (firstn n d)).
    { intros n. apply Forall_forall. intros x Hx.
      rewrite Forall_forall in Hd. apply Hd.
      rewrite <- (firstn_skipn n d). apply in_or_app. left. exact Hx. }
    assert (Hs : forall n, Forall (fun c => is_digit c = true \/ c = 45%N)
                             (skipn n d)).
    { intros n. apply Forall_forall. intros x Hx.
      rewrite Forall_forall in Hd. apply Hd.
      rewrite <- (firstn_skipn n d). apply in_or_app. right. exact Hx. }
    assert (Hdash : Forall (fun c => is_digit c = true \/ c = 45%N)
                      (lit "-")) by (repeat constructor; right; reflexivity).
    destruct (6 <=? length d)%nat; [|destruct (3 <=? length d)%nat].
    + repeat (apply Forall_app; split); auto.
      apply Forall_forall. intros x Hx.
      pose proof (Hs 3%nat) as H3. rewrite Forall_forall in H3. apply H3.
      rewrite <- (firstn_skipn 3 (skipn 3 d)). apply in_or_app. left.
      exact Hx.
    + repeat (apply Forall_app; split); auto.
    + exact Hd.
  - rewrite oninput_on_digits. cbv zeta.
    set (d := firstn 10 (filter is_digit v)).
    assert (Hl : (length d <= 10)%nat) by (subst d; apply firstn_le_length).
    destruct (Nat.leb_spec 6 (length d)); [|destruct (Nat.leb_spec 3 (length d))].
    + rewrite !length_app, !length_firstn, !length_skipn.
      change (length (lit "-")) with 1%nat. lia.
    + rewrite !length_app, !length_firstn, !length_skipn.
      change (length (lit "-")) with 1%nat. lia.
    + lia.
  - apply oninput_keeps_digits.
  - apply oninput_idempotent.
Qed.

End InputMaskMore.

(** ** More on the time formatter *)
Section FormatTimeMore.

Lemma formatTime_fields (s : N) :
  Meeting.formatTime s
  = padStart 2 (lit "0") (toString (s / 3600))
      ++ [58; 48 + (s mod 3600) / 60 / 10; 48 + ((s mod 3600) / 60) mod 10;
          58; 48 + (s mod 60) / 10; 48 + (s mod 60) mod 10]%N.
Proof.
  unfold Meeting.formatTime. cbv zeta.
  rewrite (pad2_below_100 (n := (s mod 3600) / 60)),
    (pad2_below_100 (n := s mod 60)) by lia.
  reflexivity.
Qed.

Lemma app_tail_same_length (A : Type) (l1 l2 t1 t2 : list A) :
  l1 ++ t1 = l2 ++ t2 -> length t1 = length t2 -> l1 = l2 /\ t1 = t2.
Proof.
  revert l2. induction l1 as [|a l1 IH]; intros [|b l2] E Hl; cbn in E.
  - auto.
  - subst t1. rewrite length_cons, length_app in Hl. lia.
  - subst t2. rewrite length_cons, length_app in Hl. lia.
  - inversion E; subst. destruct (IH _ H1 Hl) as [-> ->]. auto.
Qed.

Lemma two_digits_same (m n : N) :
  (m < 60)%N -> (n < 60)%N ->
  (48 + m / 10 = 48 + n / 10)%N -> (48 + m mod 10 = 48 + n mod 10)%N ->
  m = n.
Proof. lia. Qed.

Lemma seconds_of_fields (s1 s2 : N) :
  (s1 / 3600 = s2 / 3600)%N ->
  ((s1 mod 3600) / 60 = (s2 mod 3600) / 60)%N ->
  (s1 mod 60 = s2 mod 60)%N -> s1 = s2.
Proof. lia. Qed.

Lemma minutes_below_60 (s : N) : ((s mod 3600) / 60 < 60)%N.
Proof. lia. Qed.

Lemma seconds_below_60 (s : N) : (s mod 60 < 60)%N.
Proof. lia. Qed.

(** X4. [formatTime] tells any two numbers of seconds apart: equal
    displays come from equal numbers, so the display can be read back. *)
Theorem formatTime_injective (s1 s2 : N) :
  Meeting.formatTime s1 = Meeting.formatTime s2 -> s1 = s2.
Proof.
  intros E. rewrite !formatTime_fields in E.
  apply app_tail_same_length in E; [|reflexivity].
  destruct E as [Eh Et].
  assert (Hh : (s1 / 3600 = s2 / 3600)%N).
  { destruct (pad2_parse (s1 / 3600)) as [<- _].
    destruct (pad2_parse (s2 / 3600)) as [<- _].
    rewrite Eh. reflexivity. }
  pose proof (f_equal (fun l => nth 1 l 0%N) Et) as Em1.
  pose proof (f_equal (fun l => nth 2 l 0%N) Et) as Em2.
  pose proof (f_equal (fun l => nth 4 l 0%N) Et) as Es1.
  pose proof (f_equal (fun l => nth 5 l 0%N) Et) as Es2.
  cbn [nth] in Em1, Em2, Es1, Es2.
  apply seconds_of_fields; [exact Hh| |].
  - exact (two_digits_same (minutes_below_60 s1) (minutes_below_60 s2)
             Em1 Em2).
  - exact (two_digits_same (seconds_below_60 s1) (seconds_below_60 s2)
             Es1 Es2).
Qed.

Lemma formatTime_injective_witness : 3725%N = 3725%N.
Proof.
  apply (@formatTime_injective 3725 3725). reflexivity.
Defined.

Lemma toString_three (n : N) : (100 <= n)%N -> (3 <= length (toString n))%nat.
Proof.
  intros Hn. pose proof (parse_toString n) as Hp.
  pose proof (toString_digits n) as Hd.
  destruct (toString n) as [|a [|b [|c t]]]; cbn [length]; try lia;
    exfalso.
  - unfold parse_dec in Hp. cbn [fold_left] in Hp. lia.
  - apply Forall_inv in Hd. unfold is_digit in Hd.
    apply andb_true_iff in Hd. destruct Hd as [H1 H2].
    apply N.leb_le in H1, H2.
    unfold parse_dec, digit_val in Hp. cbn [fold_left] in Hp. lia.
  - pose proof (Forall_inv Hd) as Ha.
    pose proof (Forall_inv (Forall_inv_tail Hd)) as Hb.
    unfold is_digit in Ha, Hb.
    apply andb_true_iff in Ha, Hb. destruct Ha as [A1 A2], Hb as [B1 B2].
    apply N.leb_le in A1, A2, B1, B2.
    unfold parse_dec, digit_val in Hp. cbn [fold_left] in Hp. lia.
Qed.

(** X5. The display is the eight characters [hh:mm:ss] exactly as long
    as the hours fit two digits, that is below 360000 seconds; from a
    hundred hours on the hours field is wider and the display longer. *)
Theorem formatTime_width (s : N) :
  ((s < 360000)%N -> length (Meeting.formatTime s) = 8%nat)
  /\ ((360000 <= s)%N -> (9 <= length (Meeting.formatTime s))%nat).
Proof.
  rewrite formatTime_fields, length_app. cbn [length]. split; intros H.
  - rewrite pad2_below_100 by lia. reflexivity.
  - assert (Hh : (100 <= s / 3600)%N) by lia.
    pose proof (toString_three Hh) as Hl.
    unfold padStart.
    destruct (Nat.leb_spec 2 (length (toString (s / 3600)))); lia.
Qed.

End FormatTimeMore.

(** ** More on the busy state of a submit button *)
Section SubmitButtonMore.
Import App ButtonRuns.

Lemma restores_enable (t : N) (q : list Timeout) :
  forall b,
    (exists cb, In cb q /\ (due cb <= t)%N) ->
    disabled
      (fold_left (fun b cb => if (due cb <=? t)%N then restore cb b else b)
                 q b) = false.
Proof.
  induction q as [|cb q IH] using rev_ind; intros b [x [Hin Hx]].
  - destruct Hin.
  - rewrite fold_left_app. cbn [fold_left].
    destruct (N.leb_spec (due cb) t) as [Hd | Hd]; [reflexivity|].
    apply IH. apply in_app_or in Hin. destruct Hin as [Hin | [<- | []]].
    + exists x. auto.
    + lia.
Qed.

Lemma no_restore_due (t : N) (q : list Timeout) :
  forall b,
    (forall cb, In cb q -> (t < due cb)%N) ->
    fold_left (fun b cb => if (due cb <=? t)%N then restore cb b else b) q b
    = b
    /\ filter (fun cb => (t <? due cb)%N) q = q.
Proof.
  induction q as [|cb q IH]; intros b H; [auto|].
  cbn [fold_left filter].
  pose proof (H cb (or_introl eq_refl)) as Hcb.
  destruct (N.leb_spec (due cb) t); [lia|].
  destruct (N.ltb_spec t (due cb)); [|lia].
  destruct (IH b (fun x Hx => H x (or_intror Hx))) as [-> ->]. auto.
Qed.

(** A disabled button has a restore pending: kept by the listener and by
    the clock. *)
Lemma pending_kept (w : ButtonWorld) (e : ButtonEvent) :
  (disabled (button w) = true -> timeouts w <> []) ->
  disabled (button (handleButton w e)) = true ->
  timeouts (handleButton w e) <> [].
Proof.
  intros Hinv. destruct e as [|t]; cbn [handleButton].
  - intros _. cbn. destruct (timeouts w); discriminate.
  - unfold advance. cbn [button timeouts].
    destruct (existsb (fun cb => (due cb <=? t)%N) (timeouts w)) eqn:E.
    + apply existsb_exists in E. destruct E as [cb [Hin Hcb]].
      apply N.leb_le in Hcb.
      rewrite (@restores_enable t (timeouts w) (button w)); [discriminate|].
      exists cb. auto.
    + assert (Hall : forall cb, In cb (timeouts w) -> (t < due cb)%N).
      { intros cb Hin. destruct (N.ltb_spec t (due cb)); [assumption|].
        exfalso. assert (X : existsb (fun cb => (due cb <=? t)%N)
                               (timeouts w) = true).
        { apply existsb_exists. exists cb. split; [exact Hin|].
          apply N.leb_le. assumption. }
        congruence. }
      destruct (@no_restore_due t (timeouts w) (button w) Hall) as [-> ->].
      exact Hinv.
Qed.

(** X6. The button is never left disabled for good. After any run of
    clicks and clock moves on a freshly loaded page, a disabled button
    has a restore pending; and once the clock is past every pending due
    time the button is enabled and nothing is pending. *)
Theorem button_never_stuck_disabled (label : str)
    (events : list ButtonEvent) :
  let w := runButton events (loaded label) in
  (disabled (button w) = true -> timeouts w <> [])
  /\ forall t, (forall cb, In cb (timeouts w) -> (due cb <= t)%N) ->
               disabled (button (advance t w)) = false
               /\ timeouts (advance t w) = [].
Proof.
  cbv zeta.
  assert (Hinv : disabled (button (runButton events (loaded label))) = true ->
                 timeouts (runButton events (loaded label)) <> []).
  { unfold runButton. induction events as [|e events IH] using rev_ind.
    - cbn. discriminate.
    - rewrite fold_left_app. cbn [fold_left]. apply pending_kept. exact IH. }
  split; [exact Hinv|].
  intros t Hdue. set (w := runButton events (loaded label)) in *.
  unfold advance. cbn [button timeouts]. split.
  - destruct (timeouts w) as [|cb q] eqn:E.
    + cbn. destruct (disabled (button w)) eqn:Ed; [|reflexivity].
      exfalso. apply (Hinv eq_refl). reflexivity.
    + apply restores_enable. exists cb. split; [left; reflexivity|].
      apply Hdue. left. reflexivity.
  - clear Hinv. induction (timeouts w) as [|cb q IH]; [reflexivity|].
    cbn [filter]. pose proof (Hdue cb (or_introl eq_refl)).
    destruct (N.ltb_spec t (due cb)); [lia|].
    apply IH. intros x Hx. apply Hdue. right. exact Hx.
Qed.

(** X7. In the page the busy windows of a button never overlap, so its
    label is never lost. After any run of clicks and clock moves on a
    freshly loaded page: at most one restore is pending, and it holds the
    label of the page and is due within 3000 ms; an enabled button shows
    the label of the page and nothing is pending; a disabled button
    shows the busy label, and a click on it changes nothing. *)
Theorem page_clicks_keep_label (label : str) (events : list ButtonEvent) :
  let w := runPage events (loaded label) in
  (length (timeouts w) <= 1)%nat
  /\ (forall cb, In cb (timeouts w) ->
                 originalText cb = label
                 /\ (now w < due cb)%N /\ (due cb <= now w + 3000)%N)
  /\ (disabled (button w) = false ->
      button w = {| innerHTML := label; disabled := false |}
      /\ timeouts w = [])
  /\ (disabled (button w) = true ->
      innerHTML (button w) = loadingLabel
      /\ timeouts w <> []
      /\ handlePage w Click = w).
Proof.
  intros w.
  assert (Hw : PageState label w)
    by (apply PageState_runPage; left; apply idle_loaded).
  destruct Hw as [[Hb Hq] | [d Hbusy]].
  - rewrite Hb, Hq. cbn. split; [lia|]. split; [intros cb []|].
    split; [auto | discriminate].
  - pose proof (userClick_busy Hbusy) as Hclick.
    destruct Hbusy as [Hb [Hq [H1 H2]]]. rewrite Hb, Hq. cbn.
    split; [lia|]. split; [|split; [discriminate|]].
    + intros cb [<- | []]. cbn. auto.
    + intros _. split; [reflexivity|]. split; [discriminate | exact Hclick].
Qed.

End SubmitButtonMore.

(** ** Runs of the meeting tab *)
Section TabRuns.
Import Meeting Vocabulary Handlers Invariants.

Lemma Steady_refl (st : State) : Steady st st.
Proof.
  repeat split; try reflexivity; [apply incl_refl|].
  intros sk H. exists []. rewrite app_nil_r. exact H.
Qed.

Lemma Steady_trans (a b c : State) : Steady a b -> Steady b c -> Steady a c.
Proof.
  intros [A1 [A2 [A3 [A4 A5]]]] [B1 [B2 [B3 [B4 B5]]]].
  repeat split; try congruence.
  - intros x Hx. apply A4, B4, Hx.
  - intros sk H. destruct (A5 sk H) as [m1 H1].
    destruct (B5 _ H1) as [m2 H2]. exists (m1 ++ m2).
    rewrite app_assoc. exact H2.
Qed.

(** A change of the page that leaves the intervals alone. *)
Lemma Steady_page (f : Page -> Page) (st : State) :
  intervals (f (document st)) = intervals (document st) ->
  Steady st (on_document f st).
Proof.
  intros H. repeat split; try reflexivity.
  - cbn. rewrite H. apply incl_refl.
  - intros sk Hk. exists []. rewrite app_nil_r. exact Hk.
Qed.

Lemma Steady_showNotification (m ty : str) (st : State) :
  Steady st (showNotification m ty st).
Proof. apply Steady_page. reflexivity. Qed.

Lemma Steady_emit (e : Emitted) (st : State) :
  Steady st (stateOf (emit e st)).
Proof.
  unfold emit. destruct (socket (this st)) as [sk|] eqn:E; cbn.
  - repeat split; try reflexivity; [apply incl_refl|].
    intros sk' H. rewrite E in H. inversion H; subst. eexists. reflexivity.
  - apply Steady_refl.
Qed.

Lemma Steady_updateControlButtons (st : State) :
  Steady st (updateControlButtons st).
Proof.
  unfold updateControlButtons.
  destruct (cameraBtn (document st)) as [b|]; cbn.
  - destruct (micBtn (document st)) as [b'|];
      repeat split; try reflexivity; try apply incl_refl;
      intros sk H; exists []; rewrite app_nil_r; exact H.
  - destruct (micBtn (document st)) as [b'|];
      repeat split; try reflexivity; try apply incl_refl;
      intros sk H; exists []; rewrite app_nil_r; exact H.
Qed.

(** A change of controller fields other than those [Steady] watches. *)
Lemma Steady_fields (f : MeetingRoom -> MeetingRoom) (st : State) :
  config (f (this st)) = config (this st) ->
  startTime (f (this st)) = startTime (this st) ->
  timerInterval (f (this st)) = timerInterval (this st) ->
  socket (f (this st)) = socket (this st) ->
  Steady st (on_this f st).
Proof.
  intros H1 H2 H3 H4. repeat split; try assumption; [apply incl_refl|].
  intros sk H. exists []. rewrite app_nil_r. cbn. rewrite H4. exact H.
Qed.

Lemma stateOf_andThen_notify (e : Emitted) (msg : State -> str) (ty : str)
    (st : State) :
  Steady st
    (stateOf (andThen (emit e st)
                (fun st => Returned (showNotification (msg st) ty st)))).
Proof.
  pose proof (Steady_emit e st) as H. unfold emit in *.
  destruct (socket (this st)); cbn in *; [|exact H].
  eapply Steady_trans; [exact H | apply Steady_showNotification].
Qed.

Lemma Steady_toggleCamera (st : State) : Steady st (stateOf (toggleCamera st)).
Proof.
  unfold toggleCamera. destruct (localStream (this st)) as [stream|].
  - eapply Steady_trans; [|apply stateOf_andThen_notify].
    eapply Steady_trans; [|apply Steady_updateControlButtons].
    eapply Steady_trans; apply Steady_fields; reflexivity.
  - apply Steady_showNotification.
Qed.

Lemma Steady_toggleMicrophone (st : State) :
  Steady st (stateOf (toggleMicrophone st)).
Proof.
  unfold toggleMicrophone. destruct (localStream (this st)) as [stream|].
  - eapply Steady_trans; [|apply stateOf_andThen_notify].
    eapply Steady_trans; [|apply Steady_updateControlButtons].
    eapply Steady_trans; apply Steady_fields; reflexivity.
  - apply Steady_showNotification.
Qed.

Lemma Steady_sendMessage (st : State) : Steady st (stateOf (sendMessage st)).
Proof.
  unfold sendMessage. destruct (trim (messageInput (document st))) as [|c t].
  - apply Steady_refl.
  - pose proof (Steady_emit
                  (send_message (meetingId (config (this st))) (c :: t)) st)
      as H.
    unfold emit in *. destruct (socket (this st)); cbn in *; [|exact H].
    eapply Steady_trans; [exact H|]. apply Steady_page. reflexivity.
Qed.

Lemma updateParticipantsList_intervals (participants : list Participant)
    (st : State) :
  intervals (document (updateParticipantsList participants st))
  = intervals (document st).
Proof.
  unfold updateParticipantsList. rewrite roster_loop.
  destruct st as [r d]. cbn.
  destruct (querySelector _ _); reflexivity.
Qed.

Lemma Steady_updateParticipantsList (participants : list Participant)
    (st : State) :
  Steady st (updateParticipantsList participants st).
Proof.
  unfold Steady. rewrite updateParticipantsList_this,
    updateParticipantsList_intervals.
  repeat split; [apply incl_refl|].
  intros sk H. exists []. rewrite app_nil_r. exact H.
Qed.

Lemma Steady_leaveMeeting (st : State) : Steady st (leaveMeeting st).
Proof.
  unfold Steady. rewrite leaveMeeting_intervals.
  unfold leaveMeeting. destruct st as [r d]. cbn.
  destruct (socket r) eqn:Ek; cbn; destruct (timerInterval r) eqn:Et; cbn;
    destruct (localStream r) eqn:El; cbn;
    destruct (screenStream r) eqn:Es; cbn;
    rewrite ?Ek, ?Et, ?El, ?Es;
    (repeat split;
     [ try apply incl_refl; try (intros x Hx; apply filter_In in Hx; tauto)
     | intros sk H; inversion H; subst;
       try (eexists; reflexivity) ]).
Qed.

Lemma Steady_initCamera_denied (st : State) :
  Steady st (initCamera_denied st).
Proof.
  unfold initCamera_denied.
  eapply Steady_trans; [|apply Steady_updateControlButtons].
  eapply Steady_trans; [apply Steady_showNotification|].
  eapply Steady_trans; apply Steady_fields; reflexivity.
Qed.

Lemma Steady_shareScreen_stop (st : State) : Steady st (shareScreen_stop st).
Proof.
  unfold shareScreen_stop.
  eapply Steady_trans; [|apply Steady_showNotification].
  destruct (screenStream (this st)).
  - eapply Steady_trans; apply Steady_fields; reflexivity.
  - apply Steady_fields; reflexivity.
Qed.

Lemma Steady_shareScreen_started (stream : MediaStream) (st : State) :
  Steady st (shareScreen_started stream st).
Proof.
  unfold shareScreen_started. destruct (getVideoTracks stream).
  - eapply Steady_trans; [|apply Steady_showNotification].
    apply Steady_fields; reflexivity.
  - eapply Steady_trans; [|apply Steady_showNotification].
    eapply Steady_trans; apply Steady_fields; reflexivity.
Qed.

Lemma Steady_intervalFires (h : positive) (dateNow : N) (st : State) :
  Steady st (intervalFires h dateNow st).
Proof.
  unfold intervalFires. destruct (scheduled h (document st)).
  - apply Steady_page. reflexivity.
  - apply Steady_refl.
Qed.

(** Every handler leaves the controller [Steady]. *)
Lemma Steady_handle (localTime : str -> str) (tab : Tab) (e : Event) :
  Steady (room tab) (room (handle localTime tab e)).
Proof.
  destruct e; cbn [handle on_room on_chat room handleUserJoined
                   handleUserLeft].
  - eapply Steady_trans; [|apply Steady_showNotification].
    apply Steady_fields; reflexivity.
  - apply Steady_initCamera_denied.
  - apply Steady_showNotification.
  - apply Steady_showNotification.
  - eapply Steady_trans; [|apply Steady_showNotification].
    apply Steady_updateParticipantsList.
  - eapply Steady_trans; [|apply Steady_showNotification].
    apply Steady_updateParticipantsList.
  - apply Steady_refl.
  - destruct (str_eqb status (lit "success"));
      [apply Steady_showNotification | apply Steady_refl].
  - apply Steady_refl.
  - apply Steady_page. reflexivity.
  - unfold messageInput_onkeypress.
    destruct (str_eqb key (lit "Enter") && negb shiftKey);
      [apply Steady_sendMessage | apply Steady_refl].
  - apply Steady_sendMessage.
  - apply Steady_emit.
  - apply Steady_toggleCamera.
  - apply Steady_toggleMicrophone.
  - unfold shareScreen_called. destruct (isScreenSharing (this (room tab)));
      [apply Steady_shareScreen_stop | apply Steady_refl].
  - apply Steady_shareScreen_started.
  - apply Steady_showNotification.
  - apply Steady_intervalFires.
  - apply Steady_leaveMeeting.
  - apply Steady_leaveMeeting.
Qed.

Lemma Steady_run (localTime : str -> str) (events : list Event) (tab : Tab) :
  Steady (room tab) (room (run localTime events tab)).
Proof.
  unfold run. induction events as [|e events IH] using rev_ind.
  - apply Steady_refl.
  - rewrite fold_left_app. cbn [fold_left].
    eapply Steady_trans; [exact IH | apply Steady_handle].
Qed.

Lemma run_app (localTime : str -> str) (ev1 ev2 : list Event) (tab : Tab) :
  run localTime (ev1 ++ ev2) tab = run localTime ev2 (run localTime ev1 tab).
Proof. apply fold_left_app. Qed.

Lemma returns_with_socket (st : State) (sk : Socket) :
  socket (this st) = Some sk ->
  (exists st', toggleCamera st = Returned st')
  /\ (exists st', toggleMicrophone st = Returned st')
  /\ (exists st', sendMessage st = Returned st')
  /\ (forall draw, exists st', showReactionPicker draw st = Returned st').
Proof.
  intros Hk. split; [|split; [|split]].
  - destruct (localStream (this st)) as [stream|] eqn:E.
    + destruct (toggleCamera_returns st E Hk) as [st' [H _]]. eauto.
    + unfold toggleCamera. rewrite E. eauto.
  - destruct (localStream (this st)) as [stream|] eqn:E.
    + destruct (toggleMicrophone_returns st E Hk) as [st' [H _]]. eauto.
    + unfold toggleMicrophone. rewrite E. eauto.
  - unfold sendMessage. destruct (trim (messageInput (document st)));
      [eauto|]. unfold emit. rewrite Hk. cbn. eauto.
  - intros draw. unfold showReactionPicker, sendReaction, emit.
    rewrite Hk. eauto.
Qed.

(** X8. No handler ever runs into a closed socket. After any run of
    events on a tab just opened, the socket is open and its log still
    starts with the [join_meeting] of the constructor followed by
    everything emitted since, in order; so [toggleCamera],
    [toggleMicrophone], [sendMessage] and [showReactionPicker] return
    rather than throw, and events still to come only add to the log. *)
Theorem socket_stays_open (localTime : str -> str) (cfg : Config)
    (dateNow : N) (h : positive) (d : Page) (events later : list Event) :
  let st := room (run localTime events (opened cfg dateNow h d)) in
  exists log,
    socket (this st) = Some (join_meeting (meetingId cfg) :: log)
    /\ (exists st', toggleCamera st = Returned st')
    /\ (exists st', toggleMicrophone st = Returned st')
    /\ (exists st', sendMessage st = Returned st')
    /\ (forall draw, exists st', showReactionPicker draw st = Returned st')
    /\ exists more,
         socket (this (room (run localTime (events ++ later)
                               (opened cfg dateNow h d))))
         = Some (join_meeting (meetingId cfg) :: log ++ more).
Proof.
  cbv zeta.
  destruct (Steady_run localTime events (opened cfg dateNow h d))
    as [_ [_ [_ [_ Hk]]]].
  destruct (Hk [join_meeting (meetingId cfg)] eq_refl) as [log Hlog].
  cbn [app] in Hlog. exists log. split; [exact Hlog|].
  destruct (returns_with_socket _ Hlog) as [H1 [H2 [H3 H4]]].
  repeat (split; [assumption|]).
  rewrite run_app.
  destruct (Steady_run localTime later
              (run localTime events (opened cfg dateNow h d)))
    as [_ [_ [_ [_ Hk']]]].
  destruct (Hk' _ Hlog) as [more Hmore]. exists more. exact Hmore.
Qed.

(** X9. At most one interval is ever scheduled, and it is the one the
    controller recorded. After any run of events on a tab opened on a
    page without intervals of its own, the recorded handle, the start
    time and the configuration are those of the constructor, the
    scheduled intervals are that one handle or none, and [leaveMeeting]
    leaves no interval scheduled. *)
Theorem timer_stays_recorded (localTime : str -> str) (cfg : Config)
    (dateNow : N) (h : positive) (d : Page) (events : list Event) :
  intervals d = [] ->
  let st := room (run localTime events (opened cfg dateNow h d)) in
  timerInterval (this st) = Some h
  /\ startTime (this st) = dateNow
  /\ config (this st) = cfg
  /\ timerRecorded st
  /\ (forall x, In x (intervals (document st)) -> x = h)
  /\ intervals (document (leaveMeeting st)) = [].
Proof.
  intros Hd. cbv zeta.
  destruct (Steady_run localTime events (opened cfg dateNow h d))
    as [H1 [H2 [H3 [H4 _]]]].
  set (st := room (run localTime events (opened cfg dateNow h d))) in *.
  cbn in H1, H2, H3.
  assert (Hin : forall x, In x (intervals (document st)) -> x = h).
  { intros x Hx. apply H4 in Hx. cbn in Hx. rewrite Hd in Hx.
    cbn in Hx. destruct Hx as [<- | []]. reflexivity. }
  split; [exact H3 | split; [exact H2 | split; [exact H1 | split; [|split]]]].
  - intros x Hx. rewrite (Hin x Hx). exact H3.
  - exact Hin.
  - rewrite leaveMeeting_intervals, H3. clear H4.
    induction (intervals (document st)) as [|x l IH]; [reflexivity|].
    cbn [filter]. rewrite (Hin x (or_introl eq_refl)), Pos.eqb_refl.
    cbn [negb]. apply IH. intros y Hy. apply Hin. right. exact Hy.
Qed.

(** *** The screen share *)

Ltac split_state st :=
  destruct st as [[? ? ? ? ? ? ? ? ? ?] [? ? ? ? ? ? ? ? ?]];
  cbn in *;
  repeat match goal with
         | |- context [match ?x with _ => _ end] => destruct x; cbn in *
         end.

Lemma screen_fields_toggleCamera (st : State) :
  isScreenSharing (this (stateOf (toggleCamera st)))
    = isScreenSharing (this st)
  /\ screenStream (this (stateOf (toggleCamera st))) = screenStream (this st).
Proof. unfold toggleCamera, emit, updateControlButtons. split_state st; auto. Qed.

Lemma screen_fields_toggleMicrophone (st : State) :
  isScreenSharing (this (stateOf (toggleMicrophone st)))
    = isScreenSharing (this st)
  /\ screenStream (this (stateOf (toggleMicrophone st)))
     = screenStream (this st).
Proof.
  unfold toggleMicrophone, emit, updateControlButtons. split_state st; auto.
Qed.

Lemma screen_fields_sendMessage (st : State) :
  isScreenSharing (this (stateOf (sendMessage st)))
    = isScreenSharing (this st)
  /\ screenStream (this (stateOf (sendMessage st))) = screenStream (this st).
Proof. unfold sendMessage, emit. split_state st; auto. Qed.

Lemma ScreenHeld_same (st st' : State) :
  isScreenSharing (this st') = isScreenSharing (this st) ->
  screenStream (this st') = screenStream (this st) ->
  ScreenHeld st -> ScreenHeld st'.
Proof. unfold ScreenHeld. intros -> ->. auto. Qed.

Lemma ScreenHeld_leaveMeeting (st : State) :
  ScreenHeld st -> ScreenHeld (leaveMeeting st).
Proof.
  unfold ScreenHeld. destruct (leaveMeeting_streams st) as [_ Hs].
  rewrite Hs. intros [H | [s H]].
  - left. rewrite <- H. unfold leaveMeeting. split_state st; reflexivity.
  - right. rewrite H. cbn. eauto.
Qed.

Lemma ScreenHeld_handle (localTime : str -> str) (tab : Tab) (e : Event) :
  ScreenHeld (room tab) -> ScreenHeld (room (handle localTime tab e)).
Proof.
  intros H.
  destruct e; cbn [handle on_room on_chat room handleUserJoined
                   handleUserLeft].
  - (* CameraGranted *) exact H.
  - (* CameraDenied *)
    revert H. apply ScreenHeld_same;
      unfold initCamera_denied; rewrite updateControlButtons_this;
      reflexivity.
  - (* Connected *) exact H.
  - (* Disconnected *) exact H.
  - (* UserJoined *)
    revert H. apply ScreenHeld_same; cbn [showNotification on_document this];
      rewrite updateParticipantsList_this; reflexivity.
  - (* UserLeft *)
    revert H. apply ScreenHeld_same; cbn [showNotification on_document this];
      rewrite updateParticipantsList_this; reflexivity.
  - (* NewMessage *) exact H.
  - (* MessageSent *) destruct (str_eqb status (lit "success")); exact H.
  - (* ChatHistory *) exact H.
  - (* Typed *) exact H.
  - (* KeyPress *)
    unfold messageInput_onkeypress.
    destruct (str_eqb key (lit "Enter") && negb shiftKey); [|exact H].
    revert H. apply ScreenHeld_same; apply screen_fields_sendMessage.
  - (* ClickSend *)
    revert H. apply ScreenHeld_same; apply screen_fields_sendMessage.
  - (* ClickReaction *)
    revert H. apply ScreenHeld_same;
      unfold showReactionPicker, sendReaction, emit;
      destruct (socket (this (room tab))); reflexivity.
  - (* ClickCamera *)
    revert H. apply ScreenHeld_same; apply screen_fields_toggleCamera.
  - (* ClickMicrophone *)
    revert H. apply ScreenHeld_same; apply screen_fields_toggleMicrophone.
  - (* ClickShareScreen *)
    unfold shareScreen_called.
    destruct (isScreenSharing (this (room tab))); [|exact H].
    left. unfold shareScreen_stop.
    destruct (screenStream (this (room tab))); reflexivity.
  - (* ShareGranted *)
    unfold shareScreen_started. destruct (getVideoTracks stream).
    + right. cbn. eauto.
    + right. cbn. eauto.
  - (* ShareDenied *) exact H.
  - (* IntervalTurn *)
    unfold intervalFires. destruct (scheduled h (document (room tab)));
      exact H.
  - (* BeforeUnload *) apply ScreenHeld_leaveMeeting. exact H.
  - (* ConfirmLeave *) apply ScreenHeld_leaveMeeting. exact H.
Qed.

(** X10. While the controller says the screen is shared it holds the
    shared stream. After any run of events on a tab just opened, either
    [isScreenSharing] is false or [screenStream] is a stream, so the
    stopping branch of [shareScreen] always finds the tracks it is to
    stop; and calling [shareScreen] while sharing ends the share and
    lets go of the stream. *)
Theorem screen_share_holds_stream (localTime : str -> str) (cfg : Config)
    (dateNow : N) (h : positive) (d : Page) (events : list Event) :
  let st := room (run localTime events (opened cfg dateNow h d)) in
  (isScreenSharing (this st) = false
   \/ exists s, screenStream (this st) = Some s)
  /\ (isScreenSharing (this st) = false
      \/ (isScreenSharing (this (shareScreen_called st)) = false
          /\ screenStream (this (shareScreen_called st)) = None)).
Proof.
  cbv zeta.
  assert (H : ScreenHeld (room (run localTime events
                                  (opened cfg dateNow h d)))).
  { unfold run. induction events as [|e events IH] using rev_ind.
    - left. reflexivity.
    - rewrite fold_left_app. cbn [fold_left]. apply ScreenHeld_handle.
      exact IH. }
  split; [exact H|].
  set (st := room (run localTime events (opened cfg dateNow h d))) in *.
  destruct (isScreenSharing (this st)) eqn:E; [right | left; reflexivity].
  unfold shareScreen_called. rewrite E. unfold shareScreen_stop.
  destruct H as [H | [s H]]; [congruence|].
  rewrite H. split; reflexivity.
Qed.

End TabRuns.

(** ** More on rendering a chat message *)
Section FormatMessageMore.
Import Meeting Emoticons Links.

Lemma url_at_blank_head (w : char) (s : str) :
  is_ws w = true -> url_at (w :: s) = None.
Proof.
  intros Hw. unfold url_at.
  destruct (strip_prefix (lit "http") (w :: s)) as [r|] eqn:E;
    [|reflexivity].
  apply strip_prefix_spec in E. cbn in E. inversion E; subst.
  discriminate.
Qed.

(** A match never runs over a blank. *)
Lemma url_at_before_blank (p : str) (w : char) (s : str) :
  is_ws w = true -> p <> [] -> url_at (p ++ w :: s) = url_at p.
Proof.
  intros Hw Hp. destruct (url_at (p ++ w :: s)) as [m|] eqn:E.
  - destruct (url_at_sound _ E) as [rest [Hs [Hu _]]].
    pose proof (IsUrl_nonblank Hu) as Hnb.
    assert (Hl : (length m <= length p)%nat).
    { apply app_eq_app in Hs. destruct Hs as [l [[E1 E2] | [E1 E2]]].
      - subst p. rewrite length_app. lia.
      - subst m. destruct l as [|c l].
        + rewrite app_nil_r. lia.
        + cbn in E2. inversion E2; subst. apply Forall_app in Hnb.
          destruct Hnb as [_ Hnb]. apply Forall_inv in Hnb. congruence. }
    destruct (url_at_within _ _ E Hl) as [-> _]. reflexivity.
  - symmetry. apply (url_at_none_prefix _ _ E).
Qed.

Lemma linkify_before_blank_len (n : nat) :
  forall (p : str) (w : char) (s : str),
    (length p <= n)%nat -> is_ws w = true ->
    linkify (p ++ w :: s) = linkify p ++ w :: linkify s.
Proof.
  induction n as [|n IH]; intros p w s Hn Hw.
  - destruct p; [|cbn in Hn; lia]. cbn [app].
    apply linkify_copy, url_at_blank_head, Hw.
  - destruct p as [|c p'].
    + cbn [app]. apply linkify_copy, url_at_blank_head, Hw.
    + assert (E : url_at ((c :: p') ++ w :: s) = url_at (c :: p'))
        by (apply url_at_before_blank; [exact Hw | discriminate]).
      destruct (url_at (c :: p')) as [m|] eqn:Em.
      * destruct (url_at_sound _ Em) as [p'' [Hsplit [Hu _]]].
        pose proof (IsUrl_length Hu) as Hl.
        rewrite (linkify_match _ E), (linkify_match _ Em), Hsplit.
        rewrite <- !app_assoc, !skipn_app, !skipn_all, !Nat.sub_diag.
        cbn [skipn app]. f_equal. apply IH; [|exact Hw].
        apply (f_equal (@length char)) in Hsplit.
        rewrite length_app in Hsplit. cbn in Hn, Hsplit. lia.
      * cbn [app] in E |- *.
        rewrite (linkify_copy _ _ E), (linkify_copy _ _ Em).
        cbn [app]. f_equal. apply IH; [cbn in Hn; lia | exact Hw].
Qed.

(** X11. A message is rendered blank by blank: for any text before and
    after a blank character, [formatMessageContent] keeps the blank and
    renders the two sides as it would on their own. No emoticon and no
    link reaches across a blank. *)
Theorem formatMessageContent_at_blank (x : str) (w : char) (y : str) :
  is_ws w = true ->
  formatMessageContent (x ++ w :: y)
  = formatMessageContent x ++ w :: formatMessageContent y.
Proof.
  intros Hw. rewrite !formatMessageContent_passes, !runPasses_emoticons.
  rewrite (@replaceEach_split_after _ w y (@blank_not_head w Hw) x).
  rewrite (@replaceEach_split_before _ w [] (@blank_not_tail w Hw) x).
  cbn [replaceEach]. rewrite <- app_assoc. cbn [app].
  apply (@linkify_before_blank_len
           (length (replaceEach emoticonTable x)) _ w _ (Nat.le_refl _) Hw).
Qed.

Lemma formatMessageContent_at_blank_witness :
  formatMessageContent (lit "ok :)" ++ 32%N :: lit "http://a.io/x <3")
  = formatMessageContent (lit "ok :)")
      ++ 32%N :: formatMessageContent (lit "http://a.io/x <3").
Proof.
  apply (@formatMessageContent_at_blank (lit "ok :)") 32%N
           (lit "http://a.io/x <3")).
  reflexivity.
Defined.

Lemma hasEmoticon_some_infix (T : list Entry) (s : str) :
  hasEmoticon T s = true ->
  exists a b g, In (a, b, g) T /\ is_infix [a; b] s = true.
Proof.
  induction s as [| x | x y r IHr IHyr] using str_ind2; try discriminate.
  rewrite hasEmoticon_cons2. destruct (lookup T x y) as [g|] eqn:E.
  - intros _. apply lookup_In in E. exists x, y, g. split; [exact E|].
    apply is_infix_spec. exists [], r. reflexivity.
  - intros H. destruct (IHyr H) as [a [b [g [Hin Hi]]]].
    exists a, b, g. split; [exact Hin|].
    apply is_infix_spec in Hi. destruct Hi as [pre [post Hs]].
    apply is_infix_spec. exists (x :: pre), post. cbn [app]. rewrite Hs.
    reflexivity.
Qed.

(** X12. Text without any of the five sequences and without [http] is
    returned as it is, character for character; markup in it included:
    the method escapes nothing. *)
Theorem formatMessageContent_plain (s : str) :
  (forall pat g, In (pat, g) emoticonPasses -> is_infix pat s = false) ->
  is_infix (lit "http") s = false ->
  formatMessageContent s = s.
Proof.
  intros He Hh. rewrite formatMessageContent_passes, runPasses_emoticons.
  rewrite replaceEach_none; [apply linkify_plain, Hh|].
  destruct (hasEmoticon emoticonTable s) eqn:E; [|reflexivity].
  exfalso. apply hasEmoticon_some_infix in E.
  destruct E as [a [b [g [Hin Hi]]]].
  rewrite (He [a; b] g) in Hi; [discriminate|].
  rewrite emoticonPasses_table. apply in_map_iff.
  exists (a, b, g). split; [reflexivity | exact Hin].
Qed.

Lemma formatMessageContent_plain_witness :
  formatMessageContent (lit "<img src=x onerror=alert(1)> hi")
  = lit "<img src=x onerror=alert(1)> hi".
Proof.
  apply (@formatMessageContent_plain (lit "<img src=x onerror=alert(1)> hi")).
  - intros pat g Hin. cbn in Hin.
    repeat (destruct Hin as [Hin | Hin];
            [inversion Hin; subst; vm_compute; reflexivity|]).
    destruct Hin.
  - vm_compute. reflexivity.
Defined.

End FormatMessageMore.

(** ** More on sending and on the toggles *)
Section MethodsMore.
Import Meeting Vocabulary Handlers.

(** X13. Nothing is sent twice. With the socket open, [sendMessage]
    returns, and called again right away, on the input box it left, it
    returns without emitting or changing anything. *)
Theorem sendMessage_not_twice (st : State) (sk : Socket) :
  socket (this st) = Some sk ->
  exists st1,
    sendMessage st = Returned st1 /\ sendMessage st1 = Returned st1.
Proof.
  intros Hk. unfold sendMessage at 1.
  destruct (trim (messageInput (document st))) as [|c t] eqn:E.
  - exists st. split; [reflexivity|]. unfold sendMessage. rewrite E.
    reflexivity.
  - unfold emit. rewrite Hk. cbn [andThen]. eexists. split; [reflexivity|].
    reflexivity.
Qed.



Lemma sendMessage_not_twice_witness :
  exists st1,
    sendMessage (Scenario.typed (lit " hi ") Scenario.live) = Returned st1
    /\ sendMessage st1 = Returned st1.
Proof.
  apply (@sendMessage_not_twice (Scenario.typed (lit " hi ") Scenario.live)
           [join_meeting (VStr (lit "123-456-7890"))]).
  reflexivity.
Defined.

(** *** The class list of a control button *)

Lemma str_eqb_neq (a b : str) : a <> b -> str_eqb a b = false.
Proof.
  intros H. destruct (str_eqb a b) eqn:E; [|reflexivity].
  apply str_eqb_eq in E. contradiction.
Qed.

Lemma classList_remove_In (m c : str) (l : list str) :
  In c (classList_remove m l) <-> In c l /\ c <> m.
Proof.
  unfold classList_remove. rewrite filter_In. split; intros [H1 H2].
  - split; [exact H1|]. intros ->. rewrite str_eqb_refl in H2. discriminate.
  - split; [exact H1|]. rewrite (str_eqb_neq H2). reflexivity.
Qed.

Lemma classList_add_In (a c : str) (l : list str) :
  In c (classList_add a l) <-> In c l \/ c = a.
Proof.
  unfold classList_add.
  destruct (existsb (fun x => str_eqb x a) l) eqn:E.
  - split; [auto|]. intros [H | ->]; [exact H|].
    apply existsb_exists in E. destruct E as [x [Hx Ex]].
    apply str_eqb_eq in Ex. subst. exact Hx.
  - rewrite in_app_iff. cbn. split; intros [H | H]; auto.
    + destruct H as [<- | []]. auto.
Qed.

Lemma classList_add_present (a : str) (l : list str) :
  In a l -> classList_add a l = l.
Proof.
  intros H. unfold classList_add.
  assert (E : existsb (fun x => str_eqb x a) l = true).
  { apply existsb_exists. exists a. split; [exact H | apply str_eqb_refl]. }
  rewrite E. reflexivity.
Qed.

Lemma classList_remove_absent (m : str) (l : list str) :
  ~ In m l -> classList_remove m l = l.
Proof.
  intros H. unfold classList_remove. apply forallb_filter_id.
  apply forallb_forall. intros x Hx.
  rewrite str_eqb_neq; [reflexivity|]. intros ->. contradiction.
Qed.

(** One class in, the other out. *)
Lemma classList_swap (a m : str) (l : list str) :
  a <> m ->
  In a (classList_add a (classList_remove m l))
  /\ ~ In m (classList_add a (classList_remove m l))
  /\ (forall c, c <> a -> c <> m ->
        (In c (classList_add a (classList_remove m l)) <-> In c l))
  /\ classList_add a
       (classList_remove m (classList_add a (classList_remove m l)))
     = classList_add a (classList_remove m l).
Proof.
  intros Ham.
  assert (Ha : In a (classList_add a (classList_remove m l)))
    by (apply classList_add_In; right; reflexivity).
  assert (Hm : ~ In m (classList_add a (classList_remove m l))).
  { intros H. apply classList_add_In in H. destruct H as [H | H].
    - apply classList_remove_In in H. tauto.
    - congruence. }
  split; [exact Ha | split; [exact Hm | split]].
  - intros c Hca Hcm. rewrite classList_add_In, classList_remove_In. tauto.
  - rewrite (classList_remove_absent _ _ Hm).
    apply classList_add_present. exact Ha.
Qed.

(** What [updateControlButtons] makes of one button. *)
Lemma updateControlButtons_cameraBtn (st : State) :
  cameraBtn (document (updateControlButtons st))
  = option_map
      (fun b =>
         if isCameraOn (this st) then
           {| classList :=
                classList_add (lit "active")
                  (classList_remove (lit "muted") (classList b));
              buttonHTML :=
                lit "<i class=" ++ q (lit "fas fa-video") ++ lit "></i>" |}
         else
           {| classList :=
                classList_add (lit "muted")
                  (classList_remove (lit "active") (classList b));
              buttonHTML :=
                lit "<i class=" ++ q (lit "fas fa-video-slash")
                  ++ lit "></i>" |})
      (cameraBtn (document st)).
Proof.
  unfold updateControlButtons.
  destruct (cameraBtn (document st)) as [b|] eqn:Ec; cbn.
  - destruct (micBtn (document st)); cbn; rewrite ?Ec; reflexivity.
  - destruct (micBtn (document st)); cbn; rewrite ?Ec; reflexivity.
Qed.

Lemma updateControlButtons_micBtn (st : State) :
  micBtn (document (updateControlButtons st))
  = option_map
      (fun b =>
         if isMicrophoneOn (this st) then
           {| classList :=
                classList_add (lit "active")
                  (classList_remove (lit "muted") (classList b));
              buttonHTML :=
                lit "<i class=" ++ q (lit "fas fa-microphone")
                  ++ lit "></i>" |}
         else
           {| classList :=
                classList_add (lit "muted")
                  (classList_remove (lit "active") (classList b));
              buttonHTML :=
                lit "<i class=" ++ q (lit "fas fa-microphone-slash")
                  ++ lit "></i>" |})
      (micBtn (document st)).
Proof.
  unfold updateControlButtons.
  destruct (cameraBtn (document st)) as [b|] eqn:Ec; cbn.
  - destruct (micBtn (document st)) eqn:Em; cbn; rewrite ?Em; reflexivity.
  - destruct (micBtn (document st)) eqn:Em; cbn; rewrite ?Em; reflexivity.
Qed.

Lemma active_not_muted : lit "active" <> lit "muted".
Proof. discriminate. Qed.

Lemma muted_not_active : lit "muted" <> lit "active".
Proof. discriminate. Qed.

Lemma updateControlButtons_restyle (st : State) :
  updateControlButtons st
  = {| this := this st;
       document :=
         set_micBtn
           (option_map
              (Invariants.restyle (isMicrophoneOn (this st))
                 (lit "microphone"))
              (micBtn (document st)))
           (set_cameraBtn
              (option_map
                 (Invariants.restyle (isCameraOn (this st)) (lit "video"))
                 (cameraBtn (document st)))
              (document st)) |}.
Proof.
  destruct st as [r [mi pl pv pc ti cb mb al iv]].
  unfold updateControlButtons. cbn [this document cameraBtn].
  destruct cb as [bc|]; cbn [on_document this document micBtn set_cameraBtn];
    destruct mb as [bm|]; cbn; unfold Invariants.restyle;
    destruct (isCameraOn r), (isMicrophoneOn r); reflexivity.
Qed.

Lemma restyle_twice (on : bool) (icon : str) (b : ControlButton) :
  Invariants.restyle on icon (Invariants.restyle on icon b)
  = Invariants.restyle on icon b.
Proof.
  unfold Invariants.restyle. destruct on; cbn [classList]; f_equal.
  - apply (classList_swap (classList b) active_not_muted).
  - apply (classList_swap (classList b) muted_not_active).
Qed.

Lemma option_map_restyle (on : bool) (icon : str) (o : option ControlButton) :
  option_map (Invariants.restyle on icon)
    (option_map (Invariants.restyle on icon) o)
  = option_map (Invariants.restyle on icon) o.
Proof. destruct o; cbn; [rewrite restyle_twice|]; reflexivity. Qed.

(** X15. After [updateControlButtons] each control button that exists
    carries exactly one of the classes [active] and [muted], [active]
    precisely when the flag of its device is on, whatever classes it
    carried before; its other classes are untouched; the controller is
    untouched; and a second call changes nothing. *)
Theorem control_buttons_follow_flags (st : State) :
  (forall b, cameraBtn (document st) = Some b ->
     exists b',
       cameraBtn (document (updateControlButtons st)) = Some b'
       /\ (In (lit "active") (classList b') <-> isCameraOn (this st) = true)
       /\ (In (lit "muted") (classList b') <-> isCameraOn (this st) = false)
       /\ forall c, c <> lit "active" -> c <> lit "muted" ->
                    (In c (classList b') <-> In c (classList b)))
  /\ (forall b, micBtn (document st) = Some b ->
        exists b',
          micBtn (document (updateControlButtons st)) = Some b'
          /\ (In (lit "active") (classList b')
              <-> isMicrophoneOn (this st) = true)
          /\ (In (lit "muted") (classList b')
              <-> isMicrophoneOn (this st) = false)
          /\ forall c, c <> lit "active" -> c <> lit "muted" ->
                       (In c (classList b') <-> In c (classList b)))
  /\ this (updateControlButtons st) = this st
  /\ updateControlButtons (updateControlButtons st) = updateControlButtons st.
Proof.
  split; [|split; [|split]].
  - intros b Hb. rewrite updateControlButtons_cameraBtn, Hb. cbn [option_map].
    eexists. split; [reflexivity|].
    destruct (isCameraOn (this st)); cbn [classList].
    + destruct (classList_swap (classList b) active_not_muted)
        as [H1 [H2 [H3 _]]].
      split; [tauto | split; [split; [tauto | discriminate]|]].
      intros c Ha Hm. apply H3; assumption.
    + destruct (classList_swap (classList b) muted_not_active)
        as [H1 [H2 [H3 _]]].
      split; [split; [tauto | discriminate] | split; [tauto|]].
      intros c Ha Hm. apply H3; assumption.
  - intros b Hb. rewrite updateControlButtons_micBtn, Hb. cbn [option_map].
    eexists. split; [reflexivity|].
    destruct (isMicrophoneOn (this st)); cbn [classList].
    + destruct (classList_swap (classList b) active_not_muted)
        as [H1 [H2 [H3 _]]].
      split; [tauto | split; [split; [tauto | discriminate]|]].
      intros c Ha Hm. apply H3; assumption.
    + destruct (classList_swap (classList b) muted_not_active)
        as [H1 [H2 [H3 _]]].
      split; [split; [tauto | discriminate] | split; [tauto|]].
      intros c Ha Hm. apply H3; assumption.
  - apply updateControlButtons_this.
  - rewrite (updateControlButtons_restyle (updateControlButtons st)).
    rewrite updateControlButtons_this.
    rewrite (updateControlButtons_restyle st).
    destruct st as [r d]. destruct d.
    cbn [this document set_micBtn set_cameraBtn cameraBtn micBtn
         messageInput participantsList participantVideos participantCount
         timer alerts intervals].
    rewrite !option_map_restyle. reflexivity.
Qed.

Lemma toggleCamera_cameraBtn (st : State) (stream : MediaStream) :
  localStream (this st) = Some stream ->
  cameraBtn (document (stateOf (toggleCamera st)))
  = option_map
      (Invariants.restyle (negb (isCameraOn (this st))) (lit "video"))
      (cameraBtn (document st)).
Proof.
  intros Hs. unfold toggleCamera. rewrite Hs.
  rewrite updateControlButtons_restyle. unfold emit.
  destruct st as [r d]. destruct d. cbn in Hs |- *.
  destruct (socket r); reflexivity.
Qed.

Lemma toggleMicrophone_micBtn (st : State) (stream : MediaStream) :
  localStream (this st) = Some stream ->
  micBtn (document (stateOf (toggleMicrophone st)))
  = option_map
      (Invariants.restyle (negb (isMicrophoneOn (this st)))
         (lit "microphone"))
      (micBtn (document st)).
Proof.
  intros Hs. unfold toggleMicrophone. rewrite Hs.
  rewrite updateControlButtons_restyle. unfold emit.
  destruct st as [r d]. destruct d. cbn in Hs |- *.
  destruct (socket r); reflexivity.
Qed.

Lemma restyle_active (on : bool) (icon : str) (b : ControlButton) :
  In (lit "active") (classList (Invariants.restyle on icon b)) <-> on = true.
Proof.
  unfold Invariants.restyle. destruct on; cbn [classList].
  - destruct (classList_swap (classList b) active_not_muted) as [H _]. tauto.
  - destruct (classList_swap (classList b) muted_not_active) as [_ [H _]].
    split; [tauto | discriminate].
Qed.

Lemma first_assigned (p : MediaStreamTrack -> bool) (v : bool)
    (s : MediaStream) (t : MediaStreamTrack) :
  (forall t, p (set_enabled v t) = p t) ->
  hd_error (filter p (assign_first p (set_enabled v) s)) = Some t ->
  enabled t = v.
Proof.
  intros Hp. rewrite (assign_first_same p v Hp).
  destruct (filter p s); cbn; [discriminate|].
  intros H. inversion H. reflexivity.
Qed.

(** X16. A toggle announces what it applies. With a local stream and the
    socket open, [toggleCamera] returns with the camera flag flipped, the
    first video track of the stream (if any) enabled exactly when the
    flag is on, exactly one [toggle_camera] event added to the socket log
    carrying that flag, and the camera button (if any) [active] exactly
    when the flag is on. [toggleMicrophone] does the same for the
    microphone flag, the first audio track and the microphone button. *)
Theorem toggle_announces_what_it_applies (st : State) (stream : MediaStream)
    (sk : Socket) :
  localStream (this st) = Some stream ->
  socket (this st) = Some sk ->
  (exists st' stream',
     toggleCamera st = Returned st'
     /\ localStream (this st') = Some stream'
     /\ isCameraOn (this st') = negb (isCameraOn (this st))
     /\ (forall t, hd_error (getVideoTracks stream') = Some t ->
                   enabled t = isCameraOn (this st'))
     /\ socket (this st')
        = Some (sk ++ [toggle_camera (meetingId (config (this st)))
                         (isCameraOn (this st'))])
     /\ (forall b, cameraBtn (document st') = Some b ->
                   (In (lit "active") (classList b)
                    <-> isCameraOn (this st') = true)))
  /\ (exists st' stream',
        toggleMicrophone st = Returned st'
        /\ localStream (this st') = Some stream'
        /\ isMicrophoneOn (this st') = negb (isMicrophoneOn (this st))
        /\ (forall t, hd_error (getAudioTracks stream') = Some t ->
                      enabled t = isMicrophoneOn (this st'))
        /\ socket (this st')
           = Some (sk ++ [toggle_microphone (meetingId (config (this st)))
                            (isMicrophoneOn (this st'))])
        /\ (forall b, micBtn (document st') = Some b ->
                      (In (lit "active") (classList b)
                       <-> isMicrophoneOn (this st') = true))).
Proof.
  intros Hs Hk. split.
  - destruct (toggleCamera_returns st Hs Hk) as [st' [Hr Hlog]].
    destruct (toggleCamera_stream st Hs) as [H1 [H2 _]].
    pose proof (toggleCamera_cameraBtn st Hs) as Hb.
    rewrite Hr in H1, H2, Hb. cbn [stateOf] in H1, H2, Hb.
    exists st'. eexists. split; [exact Hr|]. split; [exact H1|].
    split; [exact H2|]. rewrite H2. split; [|split; [exact Hlog|]].
    + intros t Ht. unfold getVideoTracks in Ht.
      apply (@first_assigned is_video _ stream t (fun _ => eq_refl) Ht).
    + intros b Eb. rewrite Hb in Eb.
      destruct (cameraBtn (document st)) as [b0|]; [|discriminate].
      cbn in Eb. inversion Eb. apply restyle_active.
  - destruct (toggleMicrophone_returns st Hs Hk) as [st' [Hr Hlog]].
    destruct (toggleMicrophone_stream st Hs) as [H1 [H2 _]].
    pose proof (toggleMicrophone_micBtn st Hs) as Hb.
    rewrite Hr in H1, H2, Hb. cbn [stateOf] in H1, H2, Hb.
    exists st'. eexists. split; [exact Hr|]. split; [exact H1|].
    split; [exact H2|]. rewrite H2. split; [|split; [exact Hlog|]].
    + intros t Ht. unfold getAudioTracks in Ht.
      apply (@first_assigned is_audio _ stream t (fun _ => eq_refl) Ht).
    + intros b Eb. rewrite Hb in Eb.
      destruct (micBtn (document st)) as [b0|]; [|discriminate].
      cbn in Eb. inversion Eb. apply restyle_active.
Qed.

End MethodsMore.

(** ** More runs of the meeting tab *)
Section TabRunsMore.
Import Meeting Vocabulary Handlers Invariants Scenario.

Lemma toggle_click_without_stream (localTime : str -> str) (tab : Tab)
    (e : Event) :
  localStream (this (room tab)) = None -> isToggleClick e = true ->
  this (room (handle localTime tab e)) = this (room tab)
  /\ chatMessages (handle localTime tab e) = chatMessages tab
  /\ length (alerts (document (room (handle localTime tab e))))
     = S (length (alerts (document (room tab)))).
Proof.
  intros Hs He. destruct e; try discriminate; cbn [handle on_room room].
  - unfold toggleCamera. rewrite Hs. cbn. rewrite length_app. cbn.
    repeat split. lia.
  - unfold toggleMicrophone. rewrite Hs. cbn. rewrite length_app. cbn.
    repeat split. lia.
Qed.

(** X17. Without a local stream the toggles can be clicked any number
    of times and in any order: the controller, with both flags and the
    socket log, and the chat pane stay as they were, and each click shows
    one alert. After a denied camera request neither device can be
    switched on and the server is told nothing. *)
Theorem toggles_dead_without_stream (localTime : str -> str) (tab : Tab)
    (clicks : list Event) :
  localStream (this (room tab)) = None ->
  forallb isToggleClick clicks = true ->
  this (room (run localTime clicks tab)) = this (room tab)
  /\ chatMessages (run localTime clicks tab) = chatMessages tab
  /\ length (alerts (document (room (run localTime clicks tab))))
     = (length (alerts (document (room tab))) + length clicks)%nat.
Proof.
  intros Hs Hc. unfold run.
  induction clicks as [|e clicks IH] using rev_ind.
  - cbn. repeat split. lia.
  - rewrite forallb_app in Hc. apply andb_true_iff in Hc.
    destruct Hc as [Hc He]. cbn in He. rewrite andb_true_r in He.
    destruct (IH Hc) as [I1 [I2 I3]].
    rewrite fold_left_app. cbn [fold_left].
    assert (Hs' : localStream
                    (this (room (fold_left (handle localTime) clicks tab)))
                  = None) by (rewrite I1; exact Hs).
    destruct (toggle_click_without_stream localTime _ e Hs' He)
      as [J1 [J2 J3]].
    rewrite J1, J2, J3, I1, I2, I3, length_app. cbn. repeat split. lia.
Qed.

Lemma toggles_dead_without_stream_witness :
  this (room (run (fun t => t) [ClickCamera; ClickMicrophone; ClickCamera]
                {| room := denied; chatMessages := [] |}))
    = this denied
  /\ chatMessages
       (run (fun t => t) [ClickCamera; ClickMicrophone; ClickCamera]
          {| room := denied; chatMessages := [] |}) = []
  /\ length
       (alerts
          (document
             (room (run (fun t => t)
                      [ClickCamera; ClickMicrophone; ClickCamera]
                      {| room := denied; chatMessages := [] |}))))
     = (length (alerts (document denied)) + 3)%nat.
Proof.
  apply (@toggles_dead_without_stream (fun t => t)
           {| room := denied; chatMessages := [] |}
           [ClickCamera; ClickMicrophone; ClickCamera]).
  - reflexivity.
  - reflexivity.
Defined.

Lemma leaveMeeting_socket (st : State) :
  socket (this (leaveMeeting st))
  = option_map
      (fun sk => sk ++ [leave_meeting (meetingId (config (this st)))])
      (socket (this st)).
Proof.
  unfold leaveMeeting. destruct st as [r d]. cbn.
  destruct (socket r) eqn:Ek; cbn; destruct (timerInterval r) eqn:Et; cbn;
    destruct (localStream r) eqn:El; cbn;
    destruct (screenStream r) eqn:Es; cbn;
    rewrite ?Ek, ?Et, ?El, ?Es; reflexivity.
Qed.

(** X18. [leaveMeeting] is not guarded against a second call, and the
    page makes one. [confirmLeaveMeeting] calls it once: with the socket
    open one [leave_meeting] is emitted. The navigation it then starts
    brings about [beforeunload], whose listener calls it again: over the
    two events two [leave_meeting] events are added to the log, [stop()]
    is called twice on every track of the local and of the screen-share
    stream, and the intervals are as one call leaves them. *)
Theorem confirmLeave_leaves_twice (localTime : str -> str) (tab : Tab) :
  let st := room tab in
  let gone := room (run localTime [ConfirmLeave; BeforeUnload] tab) in
  (forall sk, socket (this st) = Some sk ->
     socket (this (confirmLeaveMeeting st))
     = Some (sk ++ [leave_meeting (meetingId (config (this st)))])
     /\ socket (this gone)
        = Some (sk ++ [leave_meeting (meetingId (config (this st)));
                       leave_meeting (meetingId (config (this st)))]))
  /\ localStream (this gone)
     = option_map (map (fun t => stop (stop t))) (localStream (this st))
  /\ screenStream (this gone)
     = option_map (map (fun t => stop (stop t))) (screenStream (this st))
  /\ intervals (document gone) = intervals (document (leaveMeeting st)).
Proof.
  intros st gone.
  change gone with (leaveMeeting (leaveMeeting st)).
  unfold confirmLeaveMeeting.
  destruct (leaveMeeting_streams (leaveMeeting st)) as [L2 S2].
  destruct (leaveMeeting_streams st) as [L1 S1].
  split; [|split; [|split]].
  - intros sk Hk. rewrite (leaveMeeting_socket (leaveMeeting st)).
    rewrite (leaveMeeting_socket st), Hk.
    destruct (Steady_leaveMeeting st) as [Hc _]. rewrite Hc.
    cbn [option_map]. rewrite <- app_assoc. split; reflexivity.
  - rewrite L2, L1. destruct (localStream (this st)); cbn; [|reflexivity].
    rewrite map_map. reflexivity.
  - rewrite S2, S1. destruct (screenStream (this st)); cbn; [|reflexivity].
    rewrite map_map. reflexivity.
  - rewrite (leaveMeeting_intervals (leaveMeeting st)).
    destruct (Steady_leaveMeeting st) as [_ [_ [Ht _]]]. rewrite Ht.
    rewrite (leaveMeeting_intervals st).
    destruct (timerInterval (this st)) as [h|]; [|reflexivity].
    induction (intervals (document st)) as [|x l IH]; [reflexivity|].
    cbn [filter]. destruct (Pos.eqb x h) eqn:E; cbn [negb].
    + exact IH.
    + cbn [filter]. rewrite E. cbn [negb]. rewrite IH. reflexivity.
Qed.

(** *** The participant list over several pushes *)

Lemma participantDiv_class (p : Participant) :
  has_class (lit "participant-item") (participantDiv p) = true.
Proof. reflexivity. Qed.

Lemma updateParticipantsList_count (participants : list Participant)
    (st : State) :
  participantCount (document (updateParticipantsList participants st))
  = toString (N.of_nat (length participants)).
Proof. reflexivity. Qed.

(** X19. On a page whose participant list starts with the local user's
    own entry, every roster push replaces the remote entries wholesale.
    After one push and then another, the list is the own entry followed
    by one entry per participant of the later push other than the local
    user, in roster order; nothing of the earlier push is left, and the
    count shown is the size of the later roster. *)
Theorem roster_list_replaced (st : State) (self : Element)
    (rest : list Element) (earlier later : list Participant) :
  participantsList (document st) = self :: rest ->
  has_class (lit "participant-item") self = true ->
  participantsList
    (document (updateParticipantsList later
                 (updateParticipantsList earlier st)))
  = self :: map participantDiv (others (config (this st)) later)
  /\ participantCount
       (document (updateParticipantsList later
                    (updateParticipantsList earlier st)))
     = toString (N.of_nat (length later)).
Proof.
  intros Hl Hc. split; [|apply updateParticipantsList_count].
  rewrite updateParticipantsList_list, updateParticipantsList_this.
  rewrite (updateParticipantsList_list earlier st), Hl.
  unfold querySelector. cbn [find]. rewrite Hc. cbn [app find].
  rewrite Hc. reflexivity.
Qed.

Lemma roster_list_replaced_witness :
  participantsList
    (document (updateParticipantsList [bob]
                 (updateParticipantsList [ann; bob; bob] joined)))
  = selfEntry :: map participantDiv (others (config (this joined)) [bob])
  /\ participantCount
       (document (updateParticipantsList [bob]
                    (updateParticipantsList [ann; bob; bob] joined)))
     = toString (N.of_nat (length [bob])).
Proof.
  apply (@roster_list_replaced joined selfEntry [] [ann; bob; bob] [bob]).
  - reflexivity.
  - reflexivity.
Defined.

(** X20. On a page whose participant list is empty (no entry of its own
    for the local user), the first remote entry of a push is taken for
    the local user's and is never removed again: after that push and any
    later one, the list still starts with the entry of the first remote
    participant of the earlier push, also when the later roster no
    longer names that participant. *)
Theorem roster_first_remote_sticks (st : State) (p : Participant)
    (more : list Participant) (earlier later : list Participant) :
  participantsList (document st) = [] ->
  others (config (this st)) earlier = p :: more ->
  participantsList
    (document (updateParticipantsList later
                 (updateParticipantsList earlier st)))
  = participantDiv p
      :: map participantDiv (others (config (this st)) later).
Proof.
  intros Hl Ho.
  rewrite updateParticipantsList_list, updateParticipantsList_this.
  rewrite (updateParticipantsList_list earlier st), Hl, Ho.
  unfold querySelector. cbn [find app map].
  rewrite participantDiv_class. reflexivity.
Qed.

Lemma roster_first_remote_sticks_witness :
  participantsList
    (document
       (updateParticipantsList [ann]
          (updateParticipantsList [ann; bob]
             (on_document (set_participantsList []) joined))))
  = participantDiv bob
      :: map participantDiv
           (others (config (this (on_document (set_participantsList [])
                                     joined))) [ann]).
Proof.
  apply (@roster_first_remote_sticks
           (on_document (set_participantsList []) joined) bob []
           [ann; bob] [ann]).
  - reflexivity.
  - reflexivity.
Defined.

(** *** The chat pane *)

Lemma history_fold (localTime : str -> str) (cfg : Config)
    (messages : list StoredMessage) :
  forall chat,
    fold_left
      (fun chat m =>
         displayMessage cfg (stored_user_name m) (stored_message m)
           (localTime (stored_timestamp m)) chat)
      messages chat
    = chat
        ++ map (fun m =>
                  chatMessage
                    (messageHTML cfg (stored_user_name m) (stored_message m)
                       (localTime (stored_timestamp m))))
             messages.
Proof.
  induction messages as [|m messages IH]; intros chat; cbn [fold_left map].
  - rewrite app_nil_r. reflexivity.
  - rewrite IH. unfold displayMessage. rewrite <- app_assoc. reflexivity.
Qed.

(** X21. A [chat_history] event replaces the chat pane. Whatever the
    pane showed (messages that arrived live, join and leave notices), it
    afterwards holds exactly one message element per stored message, in
    the stored order, and no notice; a message arriving after that is
    appended behind them. *)
Theorem chat_history_replaces_pane (localTime : str -> str) (tab : Tab)
    (messages : list StoredMessage) (user_name message timestamp : str) :
  let shown :=
    map (fun m =>
           chatMessage
             (messageHTML (config (this (room tab))) (stored_user_name m)
                (stored_message m) (localTime (stored_timestamp m))))
      messages in
  chatMessages (handle localTime tab (ChatHistory messages)) = shown
  /\ length (chatMessages (handle localTime tab (ChatHistory messages)))
     = length messages
  /\ room (handle localTime tab (ChatHistory messages)) = room tab
  /\ chatMessages
       (run localTime
          [ChatHistory messages; NewMessage user_name message timestamp]
          tab)
     = shown
         ++ [chatMessage
               (messageHTML (config (this (room tab))) user_name message
                  timestamp)].
Proof.
  cbv zeta. cbn [run fold_left handle on_chat chatMessages room].
  unfold loadChatHistory. rewrite history_fold. cbn [app].
  rewrite length_map. repeat split.
Qed.

(** *** The timer display *)

Lemma elapsed_seconds (dateNow k r : N) :
  (r < 1000)%N -> ((dateNow + 1000 * k + r - dateNow) / 1000 = k)%N.
Proof. intros H. lia. Qed.

(** X22. The timer shows whole seconds since the page was opened,
    rounded down. After any run of events on a tab just opened, a turn
    of the timer's interval while it is still scheduled, [1000 * k + r]
    milliseconds after the start with [r] below 1000, sets the display
    to [formatTime k]. *)
Theorem timer_shows_elapsed (localTime : str -> str) (cfg : Config)
    (dateNow : N) (h : positive) (d : Page) (events : list Event) (k r : N) :
  (r < 1000)%N ->
  In h (intervals
          (document (room (run localTime events (opened cfg dateNow h d))))) ->
  timer
    (document
       (intervalFires h (dateNow + 1000 * k + r)
          (room (run localTime events (opened cfg dateNow h d)))))
  = formatTime k.
Proof.
  intros Hr Hin.
  destruct (Steady_run localTime events (opened cfg dateNow h d))
    as [_ [Hstart _]].
  set (st := room (run localTime events (opened cfg dateNow h d))) in *.
  cbn in Hstart.
  unfold intervalFires, scheduled.
  assert (E : existsb (Pos.eqb h) (intervals (document st)) = true).
  { apply existsb_exists. exists h. split; [exact Hin | apply Pos.eqb_refl]. }
  rewrite E. unfold timerTick. cbn [on_document document timer set_timer].
  rewrite Hstart, (elapsed_seconds dateNow k Hr). reflexivity.
Qed.

Lemma timer_shows_elapsed_witness :
  timer
    (document
       (intervalFires 1%positive (1000 + 1000 * 3725 + 999)
          (room (run (fun t => t) [ClickCamera; Typed (lit "hi"); ClickSend]
                   (opened cfg 1000 1%positive page)))))
  = formatTime 3725.
Proof.
  apply (@timer_shows_elapsed (fun t => t) cfg 1000 1%positive page
           [ClickCamera; Typed (lit "hi"); ClickSend] 3725 999).
  - reflexivity.
  - left. reflexivity.
Defined.

Lemma timer_stays_recorded_witness :
  timerInterval
    (this (room (run (fun t => t)
                   [CameraGranted [track video; track audio]; ClickCamera;
                    BeforeUnload; IntervalTurn 1%positive 5000]
                   (opened cfg 1000 1%positive page)))) = Some 1%positive
  /\ startTime
       (this (room (run (fun t => t)
                      [CameraGranted [track video; track audio]; ClickCamera;
                       BeforeUnload; IntervalTurn 1%positive 5000]
                      (opened cfg 1000 1%positive page)))) = 1000%N
  /\ config
       (this (room (run (fun t => t)
                      [CameraGranted [track video; track audio]; ClickCamera;
                       BeforeUnload; IntervalTurn 1%positive 5000]
                      (opened cfg 1000 1%positive page)))) = cfg
  /\ timerRecorded
       (room (run (fun t => t)
                [CameraGranted [track video; track audio]; ClickCamera;
                 BeforeUnload; IntervalTurn 1%positive 5000]
                (opened cfg 1000 1%positive page)))
  /\ (forall x,
        In x (intervals
                (document
                   (room (run (fun t => t)
                            [CameraGranted [track video; track audio];
                             ClickCamera; BeforeUnload;
                             IntervalTurn 1%positive 5000]
                            (opened cfg 1000 1%positive page))))) ->
        x = 1%positive)
  /\ intervals
       (document
          (leaveMeeting
             (room (run (fun t => t)
                      [CameraGranted [track video; track audio]; ClickCamera;
                       BeforeUnload; IntervalTurn 1%positive 5000]
                      (opened cfg 1000 1%positive page))))) = [].
Proof.
  apply (@timer_stays_recorded (fun t => t) cfg 1000 1%positive page
           [CameraGranted [track video; track audio]; ClickCamera;
            BeforeUnload; IntervalTurn 1%positive 5000]).
  reflexivity.
Defined.

Lemma toggle_announces_what_it_applies_witness :
  (exists st' stream',
     toggleCamera live = Returned st'
     /\ localStream (this st') = Some stream'
     /\ isCameraOn (this st') = negb (isCameraOn (this live))
     /\ (forall t, hd_error (getVideoTracks stream') = Some t ->
                   enabled t = isCameraOn (this st'))
     /\ socket (this st')
        = Some ([join_meeting (VStr (lit "123-456-7890"))]
                  ++ [toggle_camera (meetingId (config (this live)))
                        (isCameraOn (this st'))])
     /\ (forall b, cameraBtn (document st') = Some b ->
                   (In (lit "active") (classList b)
                    <-> isCameraOn (this st') = true)))
  /\ (exists st' stream',
        toggleMicrophone live = Returned st'
        /\ localStream (this st') = Some stream'
        /\ isMicrophoneOn (this st') = negb (isMicrophoneOn (this live))
        /\ (forall t, hd_error (getAudioTracks stream') = Some t ->
                      enabled t = isMicrophoneOn (this st'))
        /\ socket (this st')
           = Some ([join_meeting (VStr (lit "123-456-7890"))]
                     ++ [toggle_microphone (meetingId (config (this live)))
                           (isMicrophoneOn (this st'))])
        /\ (forall b, micBtn (document st') = Some b ->
                      (In (lit "active") (classList b)
                       <-> isMicrophoneOn (this st') = true))).
Proof.
  apply (@toggle_announces_what_it_applies live [track video; track audio]
           [join_meeting (VStr (lit "123-456-7890"))]).
  - reflexivity.
  - reflexivity.
Defined.

End TabRunsMore.
